(** * zim.parsing: string utilities of the zim desktop wiki

    A shallow embedding of [zim/parsing.py] and the properties of its
    escape codec, percent codec, link classifier, date parser and the
    [Re] wrapper.

    Python values are modelled as follows.
    - [str] is a list of Unicode code points, each a [Z];
    - [bytes] is a list of octets, each a [Z] in [0, 256);
    - exceptions are the [Raise] case of [result];
    - the regular expressions of the module are terms of [regex], run by
      a backtracking matcher that lists the ways a pattern can match in
      the order in which [sre] tries them. *)

From Stdlib Require Import String Ascii ZArith List Bool Lia.
Import ListNotations.

Open Scope Z_scope.

(** ** Python values *)

Definition char := Z.
Definition str := list char.
Definition bytes := list Z.

(** The code points of an ASCII literal. *)
Fixpoint py (s : String.string) : str :=
  match s with
  | EmptyString => []
  | String a s' => Z.of_nat (nat_of_ascii a) :: py s'
  end.

Definition LF : char := 10.
Definition CR : char := 13.
Definition TAB : char := 9.
Definition BSL : char := 92.      (* backslash *)
Definition PCT : char := 37.      (* percent sign *)
Definition SPC : char := 32.

Fixpoint str_eqb (a b : str) : bool :=
  match a, b with
  | [], [] => true
  | x :: a', y :: b' => (x =? y) && str_eqb a' b'
  | _, _ => false
  end.

(** [s[i:j]] for [0 <= i], [0 <= j]. *)
Definition slice (s : str) (i j : nat) : str := firstn (j - i) (skipn i s).

(** [s.startswith(p)] *)
Fixpoint startswith (s p : str) : bool :=
  match p, s with
  | [], _ => true
  | x :: p', y :: s' => (x =? y) && startswith s' p'
  | _ :: _, [] => false
  end.

(** [c in s] for a one-character [c]. *)
Definition contains (c : char) (s : str) : bool := existsb (Z.eqb c) s.

Inductive exn :=
  IndexError | ValueError | TypeError | AssertionError
| UnicodeEncodeError | UnicodeDecodeError.

Inductive result (A : Type) :=
| Ok (a : A)
| Raise (e : exn).
Arguments Ok {A} a.
Arguments Raise {A} e.

Definition bind {A B} (x : result A) (f : A -> result B) : result B :=
  match x with
  | Ok a => f a
  | Raise e => Raise e
  end.

(** ** Regular expressions

    The fragment of the [re] syntax that the module uses. *)

Inductive regex :=
| Eps                              (* the empty pattern *)
| Chr (c : char)                   (* a literal character *)
| Cls (p : char -> bool)           (* a character class, [.], [\w], ... *)
| Cat (r1 r2 : regex)              (* r1 r2 *)
| Alt (r1 r2 : regex)              (* r1|r2 *)
| Star (r : regex)                 (* r*, greedy *)
| Grp (i : nat) (r : regex)        (* the i-th capturing group *)
| Bol                              (* ^ *)
| Eol.                             (* $ *)

Definition Plus (r : regex) : regex := Cat r (Star r).     (* r+ *)
Definition Opt (r : regex) : regex := Alt r Eps.           (* r? *)

(** [r{1,n+1}] *)
Fixpoint Upto (n : nat) (r : regex) : regex :=
  match n with
  | O => r
  | S n' => Cat r (Opt (Upto n' r))
  end.

(** A literal string. *)
Fixpoint Lit (s : str) : regex :=
  match s with
  | [] => Eps
  | c :: s' => Cat (Chr c) (Lit s')
  end.

(** [pattern.groups]: the groups of a pattern are numbered from 1 in the
    order of their opening parentheses. *)
Fixpoint ngroups (r : regex) : nat :=
  match r with
  | Cat r1 r2 | Alt r1 r2 => Nat.max (ngroups r1) (ngroups r2)
  | Star r' => ngroups r'
  | Grp i r' => Nat.max i (ngroups r')
  | _ => 0%nat
  end.

(** A matcher state: the position reached, the text still ahead, and the
    spans of the groups closed so far (latest first). *)
Record mstate := MState {
  m_pos : nat;
  m_rest : str;
  m_caps : list (nat * (nat * nat))
}.

Definition advance (st : mstate) (rest' : str) : mstate :=
  MState (S (m_pos st)) rest' (m_caps st).

Definition close_group (i : nat) (from : nat) (st : mstate) : mstate :=
  MState (m_pos st) (m_rest st) ((i, (from, m_pos st)) :: m_caps st).

(** Greedy iteration of a body matcher [f]: first one more round, then
    stop.  A round has to consume text, which is how [sre] leaves a loop
    whose body matched the empty string; [n] bounds the rounds by the
    length of the text ahead. *)
Fixpoint star_iter (f : mstate -> list mstate) (n : nat) (st : mstate)
  : list mstate :=
  match n with
  | O => [st]
  | S n' =>
      flat_map (fun st' => if Nat.ltb (m_pos st) (m_pos st')
                           then star_iter f n' st' else [])
               (f st) ++ [st]
  end.

(** All the ways [r] matches from [st], in the order the backtracking
    engine reaches them: the head is the match that [re] reports. *)
Fixpoint ms (r : regex) : mstate -> list mstate :=
  match r with
  | Eps => fun st => [st]
  | Chr c => fun st =>
      match m_rest st with
      | x :: rest' => if x =? c then [advance st rest'] else []
      | [] => []
      end
  | Cls p => fun st =>
      match m_rest st with
      | x :: rest' => if p x then [advance st rest'] else []
      | [] => []
      end
  | Cat r1 r2 => fun st => flat_map (ms r2) (ms r1 st)
  | Alt r1 r2 => fun st => ms r1 st ++ ms r2 st
  | Star r' => fun st => star_iter (ms r') (length (m_rest st)) st
  | Grp i r' => fun st => map (close_group i (m_pos st)) (ms r' st)
  | Bol => fun st => if Nat.eqb (m_pos st) 0 then [st] else []
  | Eol => fun st =>
      match m_rest st with
      | [] => [st]
      | [x] => if x =? LF then [st] else []
      | _ => []
      end
  end.

(** ** Match objects *)

Record rmatch := RMatch {
  mt_string : str;                        (* the subject *)
  mt_groups : nat;                        (* number of groups of the pattern *)
  mt_start : nat;
  mt_end : nat;
  mt_caps : list (nat * (nat * nat))
}.

Fixpoint lookup_cap (i : nat) (caps : list (nat * (nat * nat)))
  : option (nat * nat) :=
  match caps with
  | [] => None
  | (j, sp) :: caps' => if Nat.eqb i j then Some sp else lookup_cap i caps'
  end.

(** [m.group(0)] *)
Definition group0 (m : rmatch) : str :=
  slice (mt_string m) (mt_start m) (mt_end m).

(** [m.group(i)]: [None] stands for Python's [None] of a group that took
    no part in the match. *)
Definition group (m : rmatch) (i : nat) : result (option str) :=
  match i with
  | O => Ok (Some (group0 m))
  | _ =>
      if Nat.leb i (mt_groups m) then
        match lookup_cap i (mt_caps m) with
        | Some (a, b) => Ok (Some (slice (mt_string m) a b))
        | None => Ok None
        end
      else Raise IndexError
  end.

(** [m.groups()] *)
Definition groups (m : rmatch) : list (option str) :=
  map (fun i => match lookup_cap i (mt_caps m) with
                | Some (a, b) => Some (slice (mt_string m) a b)
                | None => None
                end)
      (seq 1 (mt_groups m)).

Definition mk_match (r : regex) (subject : str) (start : nat) (st : mstate)
  : rmatch :=
  RMatch subject (ngroups r) start (m_pos st) (m_caps st).

Definition start_state (pos : nat) (rest : str) : mstate := MState pos rest [].

(** The match the engine reports at one position, if any. *)
Definition match_here (r : regex) (subject : str) (pos : nat) (rest : str)
  : option rmatch :=
  match ms r (start_state pos rest) with
  | st :: _ => Some (mk_match r subject pos st)
  | [] => None
  end.

(** The same when the match has to advance: the first way to match that
    consumes text. *)
Definition match_here_advancing (r : regex) (subject : str) (pos : nat)
  (rest : str) : option rmatch :=
  match filter (fun st => Nat.ltb pos (m_pos st)) (ms r (start_state pos rest)) with
  | st :: _ => Some (mk_match r subject pos st)
  | [] => None
  end.

(** [p.match(subject)] *)
Definition re_match (r : regex) (subject : str) : option rmatch :=
  match_here r subject 0 subject.

Fixpoint search_from (r : regex) (subject : str) (pos : nat) (rest : str)
  : option rmatch :=
  match match_here r subject pos rest with
  | Some m => Some m
  | None =>
      match rest with
      | [] => None
      | _ :: rest' => search_from r subject (S pos) rest'
      end
  end.

(** [p.search(subject)] *)
Definition re_search (r : regex) (subject : str) : option rmatch :=
  search_from r subject 0 subject.

(** How [sub] and [finditer] walk through a subject: a character outside
    every match is copied, a match is handed to the caller. *)
Inductive piece :=
| Copy (c : char)
| Found (m : rmatch).

(** The scan, one position at a time.  [skip] counts the characters
    still inside the previous match.  Where the search resumes, the
    engine reports its first match; when that match is empty the next
    search starts at the same position and has to advance, and from the
    next position on any match is taken again. *)
Fixpoint scan (r : regex) (subject : str) (pos : nat) (rest : str)
  (skip : nat) : list piece :=
  match skip with
  | S k =>
      match rest with
      | [] => []
      | _ :: rest' => scan r subject (S pos) rest' k
      end
  | O =>
      let copy :=
        match rest with
        | [] => []
        | c :: rest' => Copy c :: scan r subject (S pos) rest' O
        end in
      let jump := fun k =>
        match rest with
        | [] => []
        | _ :: rest' => scan r subject (S pos) rest' k
        end in
      match match_here r subject pos rest with
      | None => copy
      | Some m =>
          if Nat.ltb pos (mt_end m)
          then Found m :: jump (mt_end m - pos - 1)%nat
          else
            Found m ::
            match match_here_advancing r subject pos rest with
            | Some m' => Found m' :: jump (mt_end m' - pos - 1)%nat
            | None => copy
            end
      end
  end.

(** [p.finditer(subject)] *)
Definition finditer (r : regex) (subject : str) : list rmatch :=
  flat_map (fun p => match p with Copy _ => [] | Found m => [m] end)
           (scan r subject 0 subject 0).

(** [p.sub(repl, subject)] for a callable [repl] *)
Definition render (repl : rmatch -> str) (ps : list piece) : str :=
  flat_map (fun p => match p with Copy c => [c] | Found m => repl m end) ps.

Definition re_sub (r : regex) (repl : rmatch -> str) (subject : str) : str :=
  render repl (scan r subject 0 subject 0).

(** The same for a [repl] that may raise: the first exception ends the
    substitution. *)
Fixpoint join_pieces (repl : rmatch -> result str) (ps : list piece)
  : result str :=
  match ps with
  | [] => Ok []
  | Copy c :: ps' => bind (join_pieces repl ps') (fun out => Ok (c :: out))
  | Found m :: ps' =>
      bind (repl m) (fun x =>
      bind (join_pieces repl ps') (fun out => Ok (x ++ out)))
  end.

Definition re_sub_try (r : regex) (repl : rmatch -> result str)
  (subject : str) : result str :=
  join_pieces repl (scan r subject 0 subject 0).

(** ** Backslash escapes *)

Definition _escape (m : rmatch) : str :=
  let char := group0 m in
  if str_eqb char [LF] then [BSL; 110]          (* '\\n' *)
  else if str_eqb char [CR] then [BSL; 114]     (* '\\r' *)
  else if str_eqb char [TAB] then [BSL; 116]    (* '\\t' *)
  else BSL :: char.

(** The class ['[\n\r\t\\\\%s]' % chars].  [chars] is read as the set of
    its characters, which is what [re] makes of it as long as [chars]
    holds none of [\], []] and [-]: see [plain_chars]. *)
Definition escape_class (chars : str) : char -> bool :=
  fun c => contains c ([LF; CR; TAB; BSL] ++ chars).

Definition plain_chars (chars : str) : Prop :=
  ~ In BSL chars /\ ~ In 93 chars /\ ~ In 45 chars.

Definition escape_string (string chars : str) : str :=
  re_sub (Cls (escape_class chars)) _escape string.

(** [.]: any character but a newline. *)
Definition dot (c : char) : bool := negb (c =? LF).

(** [match.group(0)[-1]]; a match of ['\\\\.'] holds two characters. *)
Definition _unescape (m : rmatch) : str :=
  match rev (group0 m) with
  | char :: _ =>
      if char =? 110 then [LF]
      else if char =? 116 then [TAB]
      else [char]
  | [] => []
  end.

Definition unescape_string (string : str) : str :=
  re_sub (Cat (Chr BSL) (Cls dot)) _unescape string.


(** ** UTF-8

    [str.encode('UTF-8')] and [bytes.decode('UTF-8')] in their strict
    form: a surrogate cannot be encoded; an overlong form, a surrogate, a
    value above U+10FFFF and a stray or missing continuation byte cannot
    be decoded. *)

Definition is_surrogate (c : Z) : bool := (0xD800 <=? c) && (c <=? 0xDFFF).

(** The octets of one character. *)
Definition utf8_char_bytes (c : char) : bytes :=
  if c <? 0x80 then [c]
  else if c <? 0x800 then [0xC0 + c / 64; 0x80 + c mod 64]
  else if c <? 0x10000 then
    [0xE0 + c / 4096; 0x80 + (c / 64) mod 64; 0x80 + c mod 64]
  else [0xF0 + c / 262144; 0x80 + (c / 4096) mod 64;
        0x80 + (c / 64) mod 64; 0x80 + c mod 64].

Definition utf8_encode_char (c : char) : result bytes :=
  if is_surrogate c then Raise UnicodeEncodeError else Ok (utf8_char_bytes c).

Fixpoint utf8_encode (s : str) : result bytes :=
  match s with
  | [] => Ok []
  | c :: s' =>
      bind (utf8_encode_char c) (fun b =>
      bind (utf8_encode s') (fun bs => Ok (b ++ bs)))
  end.

(** A continuation byte. *)
Definition is_cont (b : Z) : bool := (0x80 <=? b) && (b <=? 0xBF).

Definition decoded (ok : bool) (c : char) (tail : result str) : result str :=
  if ok then bind tail (fun s => Ok (c :: s)) else Raise UnicodeDecodeError.

Fixpoint utf8_decode (bs : bytes) : result str :=
  match bs with
  | [] => Ok []
  | b0 :: t0 =>
      if b0 <? 0x80 then decoded (0 <=? b0) b0 (utf8_decode t0)
      else if b0 <? 0xC2 then Raise UnicodeDecodeError
      else if b0 <? 0xE0 then
        match t0 with
        | b1 :: t1 =>
            decoded (is_cont b1)
                    ((b0 - 0xC0) * 64 + (b1 - 0x80)) (utf8_decode t1)
        | _ => Raise UnicodeDecodeError
        end
      else if b0 <? 0xF0 then
        match t0 with
        | b1 :: b2 :: t2 =>
            let c := (b0 - 0xE0) * 4096 + (b1 - 0x80) * 64 + (b2 - 0x80) in
            decoded (is_cont b1 && is_cont b2 && (0x800 <=? c)
                     && negb (is_surrogate c))
                    c (utf8_decode t2)
        | _ => Raise UnicodeDecodeError
        end
      else if b0 <? 0xF5 then
        match t0 with
        | b1 :: b2 :: b3 :: t3 =>
            let c := (b0 - 0xF0) * 262144 + (b1 - 0x80) * 4096
                     + (b2 - 0x80) * 64 + (b3 - 0x80) in
            decoded (is_cont b1 && is_cont b2 && is_cont b3
                     && (0x10000 <=? c) && (c <=? 0x10FFFF))
                    c (utf8_decode t3)
        | _ => Raise UnicodeDecodeError
        end
      else Raise UnicodeDecodeError
  end.

(** The characters a Python [str] can be encoded from: the Unicode scalar
    values. *)
Definition scalar (c : char) : Prop :=
  0 <= c <= 0x10FFFF /\ is_surrogate c = false.

(** ** Percent encoding *)

Definition URL_ENCODE_DATA : Z := 0.       (* all *)
Definition URL_ENCODE_PATH : Z := 1.       (* all except '/' *)
Definition URL_ENCODE_READABLE : Z := 2.   (* only space and utf-8 *)

Definition in_range (lo hi c : char) : bool := (lo <=? c) && (c <=? hi).

Definition is_upper (c : char) : bool := in_range 65 90 c.     (* A-Z *)
Definition is_lower (c : char) : bool := in_range 97 122 c.    (* a-z *)
Definition is_digit (c : char) : bool := in_range 48 57 c.     (* 0-9 *)

(** [A-Za-z0-9\-_.~] *)
Definition unreserved (c : char) : bool :=
  is_upper c || is_lower c || is_digit c
  || (c =? 45) || (c =? 95) || (c =? 46) || (c =? 126).

(** [r'[^A-Za-z0-9\-_.~]'] *)
Definition _url_encode_re : regex := Cls (fun c => negb (unreserved c)).

(** [r'[^A-Za-z0-9\-_.~/]'] *)
Definition _url_encode_path_re : regex :=
  Cls (fun c => negb (unreserved c || (c =? 47))).

Definition hex_digit (n : Z) : char := if n <? 10 then 48 + n else 55 + n.

(** ['%%%02X' % b] *)
Definition percent_byte (b : Z) : str := [PCT; hex_digit (b / 16); hex_digit (b mod 16)].

Definition _url_encode (m : rmatch) : result str :=
  bind (utf8_encode (group0 m)) (fun data => Ok (flat_map percent_byte data)).

(** [ord] takes a string of one character. *)
Definition _url_encode_readable (m : rmatch) : result str :=
  match group0 m with
  | [i] => if (i =? 32) || (127 <? i) then _url_encode m else Ok (group0 m)
  | _ => Raise TypeError
  end.

Definition url_encode (url : str) (mode : Z) : result str :=
  if mode =? URL_ENCODE_DATA then re_sub_try _url_encode_re _url_encode url
  else if mode =? URL_ENCODE_PATH then
    re_sub_try _url_encode_path_re _url_encode url
  else if mode =? URL_ENCODE_READABLE then
    re_sub_try _url_encode_re _url_encode_readable url
  else Raise AssertionError.

(** [a-fA-F0-9] *)
Definition is_hex (c : char) : bool :=
  in_range 97 102 c || in_range 65 70 c || is_digit c.

(** [0-7] *)
Definition is_low (c : char) : bool := in_range 48 55 c.

(** [a-fA-F89] *)
Definition is_high (c : char) : bool :=
  in_range 97 102 c || in_range 65 70 c || (c =? 56) || (c =? 57).

(** [(%<first>[a-fA-F0-9])+] *)
Definition escapes_re (first : char -> bool) : regex :=
  Plus (Grp 1 (Cat (Chr PCT) (Cat (Cls first) (Cls is_hex)))).

Definition _url_decode_ascii_re : regex := escapes_re is_low.
Definition _url_decode_unicode_bytes_re : regex := escapes_re is_high.

(** [int(x, 16)] of one hexadecimal digit. *)
Definition hex_value (c : char) : Z :=
  if is_digit c then c - 48
  else if in_range 97 102 c then c - 87
  else c - 55.

(** [[int(hexstring[i + 1:i + 3], 16) for i in range(0, len(hexstring), 3)]],
    for a [hexstring] made of [%XX] triples, as every match of
    [escapes_re] is. *)
Fixpoint ords (hexstring : str) : list Z :=
  match hexstring with
  | _ :: a :: b :: rest => (hex_value a * 16 + hex_value b) :: ords rest
  | _ => []
  end.

Definition _url_decode (m : rmatch) : result str :=
  utf8_decode (ords (group0 m)).

Definition _url_decode_bytes (m : rmatch) : bytes := ords (group0 m).

(** [s.replace(old, new)] for a non-empty [old]; [skip] counts the
    characters of the occurrence being replaced that are still ahead. *)
Fixpoint replace_from (old new s : str) (skip : nat) : str :=
  match s with
  | [] => []
  | c :: s' =>
      match skip with
      | S k => replace_from old new s' k
      | O =>
          if startswith s old
          then new ++ replace_from old new s' (length old - 1)
          else c :: replace_from old new s' 0
      end
  end.

Definition replace (s old new : str) : str := replace_from old new s 0.

(** The first pass of [url_decode] in the modes other than
    [URL_ENCODE_READABLE]. *)
Definition decode_ascii (url : str) : result str :=
  re_sub_try _url_decode_ascii_re _url_decode url.

(** The byte form that the second pass of [url_decode] tries to read as
    UTF-8. *)
Definition decode_bytes (url : str) : result bytes :=
  bind (utf8_encode url) (fun raw =>
  Ok (re_sub _url_decode_unicode_bytes_re _url_decode_bytes raw)).

Definition url_decode (url : str) (mode : Z) : result str :=
  (* First pass on ascii bytes *)
  bind (if mode =? URL_ENCODE_READABLE
        then Ok (replace url (py "%20") (py " "))
        else decode_ascii url) (fun url =>
  (* Then try UTF-8 bytes *)
  bind (decode_bytes url) (fun data =>
  match utf8_decode data with
  | Ok url' => Ok url'
  | Raise _ => Ok url
  end)).

(** ** Escaped splitting *)

(** [s.split(sep)]: the pieces between the occurrences of [sep], found
    from the left; [skip] counts the characters of the occurrence just
    found that are still ahead. *)
Fixpoint split_from (sep s : str) (skip : nat) (piece : str) : list str :=
  match s with
  | [] => [piece]
  | c :: s' =>
      match skip with
      | S k => split_from sep s' k piece
      | O =>
          if startswith s sep
          then piece :: split_from sep s' (length sep - 1) []
          else split_from sep s' 0 (piece ++ [c])
      end
  end.

Definition split (s sep : str) : result (list str) :=
  match sep with
  | [] => Raise ValueError        (* empty separator *)
  | _ => Ok (split_from sep s 0 [])
  end.

(** ['\\\\+$'] *)
Definition trailing_backslashes_re : regex := Cat (Plus (Chr BSL)) Eol.

(** [parts[-1] = parts[-1] + more] *)
Definition extend_last (parts : list str) (more : str) : result (list str) :=
  match rev parts with
  | [] => Raise IndexError
  | p :: front => Ok (rev front ++ [p ++ more])
  end.

(** The loop of [split_escaped_string] over the pieces. *)
Fixpoint join_escaped (char : str) (parts : list str)
  (trailing_backslash : bool) (pieces : list str) : result (list str) :=
  match pieces with
  | [] => Ok parts
  | piece :: pieces' =>
      bind (if trailing_backslash
            then extend_last parts (char ++ piece)
            else Ok (parts ++ [piece])) (fun parts' =>
      let m := re_search trailing_backslashes_re piece in
      let trailing_backslash' :=
        match m with
        | Some m => Nat.odd (length (group0 m))  (* uneven number of backslashes *)
        | None => false
        end in
      join_escaped char parts' trailing_backslash' pieces')
  end.

Definition split_escaped_string (string char : str) : result (list str) :=
  bind (split string char) (join_escaped char [] false).

(** ** The [Re] wrapper *)

Record Re := MkRe {
  re_r : str;                    (* the pattern as written *)
  re_p : regex;                  (* the compiled pattern *)
  re_m : option rmatch           (* the last match *)
}.

(** [Re(pattern)]; [p] is what [re.compile] makes of [pattern]. *)
Definition Re_init (pattern : str) (p : regex) : Re := MkRe pattern p None.

Definition Re_len (self : Re) : nat :=
  match re_m self with
  | None => 0
  | Some m => length (groups m) + 1
  end.

(** [m.group(i)] for an integer [i]. *)
Definition group_at (m : rmatch) (i : Z) : result (option str) :=
  if i <? 0 then Raise IndexError else group m (Z.to_nat i).

Definition Re_getitem (self : Re) (i : Z) : result (option str) :=
  match re_m self with
  | None => Raise IndexError
  | Some m => group_at m i
  end.

(** [match] and [search] give the match and the wrapper that remembers
    it. *)
Definition Re_match (self : Re) (string : str) : option rmatch * Re :=
  let m := re_match (re_p self) string in
  (m, MkRe (re_r self) (re_p self) m).

Definition Re_search (self : Re) (string : str) : option rmatch * Re :=
  let m := re_search (re_p self) string in
  (m, MkRe (re_r self) (re_p self) m).

(** [sublist]: the entries of the list are strings or other objects;
    [repl] is called with the wrapper and gives its result together with
    the wrapper as it leaves it. *)
Section Sublist.

Variable T : Type.

Inductive entry :=
| Str (s : str)
| Obj (o : T).

Variable repl : Re -> entry * Re.

(** The loop over the matches of one string [item]. *)
Fixpoint sublist_matches (self : Re) (item : str) (pos : nat)
  (matches : list rmatch) (result : list entry) : list entry * Re :=
  match matches with
  | m :: matches' =>
      let start := mt_start m in
      let end_ := mt_end m in
      let result :=
        if Nat.ltb pos start
        then result ++ [Str (slice item pos start)]
        else result in
      let self := MkRe (re_r self) (re_p self) (Some m) in
      let (x, self) := repl self in
      sublist_matches self item end_ matches' (result ++ [x])
  | [] =>
      (if Nat.ltb pos (length item)
       then result ++ [Str (slice item pos (length item))]
       else result, self)
  end.

(** The loop over the list. *)
Fixpoint sublist_items (self : Re) (items : list entry) (result : list entry)
  : list entry * Re :=
  match items with
  | [] => (result, self)
  | Str s :: items' =>
      let (result, self) :=
        sublist_matches self s 0 (finditer (re_p self) s) result in
      sublist_items self items' result
  | Obj o :: items' => sublist_items self items' (result ++ [Obj o])
  end.

Definition sublist (self : Re) (items : list entry) : list entry * Re :=
  sublist_items self items [].

End Sublist.

Arguments Str {T} s.
Arguments Obj {T} o.
Arguments sublist_matches {T} repl self item pos matches result.
Arguments sublist_items {T} repl self items result.
Arguments sublist {T} repl self items.

(** ** Character classes that depend on the Unicode database

    [\w], [\s] and [\d] of a [str] pattern follow the Unicode database of
    the interpreter.  Their ASCII part is written out; the part beyond
    ASCII is a parameter. *)
Record unicode := Unicode {
  uni_alnum : char -> bool;           (* [str.isalnum] beyond ASCII *)
  uni_space : char -> bool;           (* [str.isspace] beyond ASCII *)
  uni_decimal : char -> option Z      (* the value of a decimal digit beyond ASCII *)
}.

Section Classes.

Variable U : unicode.

(** [\w] *)
Definition is_word (c : char) : bool :=
  if c <? 0x80 then is_upper c || is_lower c || is_digit c || (c =? 95)
  else uni_alnum U c.

(** [\s] *)
Definition is_space (c : char) : bool :=
  if c <? 0x80 then in_range 9 13 c || in_range 28 31 c || (c =? 32)
  else uni_space U c.

(** The value of a decimal digit, for [\d] and [int]. *)
Definition decimal_value (c : char) : option Z :=
  if c <? 0x80 then (if is_digit c then Some (c - 48) else None)
  else uni_decimal U c.

(** [\d] *)
Definition is_decimal (c : char) : bool :=
  match decimal_value c with Some _ => true | None => false end.

(** [[\w\+\-\.]] *)
Definition is_scheme_char (c : char) : bool :=
  is_word c || (c =? 43) || (c =? 45) || (c =? 46).

(** [\w[\w\+\-\.]*] *)
Definition scheme_re : regex := Cat (Cls is_word) (Star (Cls is_scheme_char)).

(** ** Some often used regexes

    Each is an [Re] made from the pattern as written in the module and
    from its reading as a [regex]. *)

(** "scheme:" *)
Definition is_uri_re : Re :=
  Re_init (py "^(\w[\w\+\-\.]*):")
          (Cat Bol (Cat (Grp 1 scheme_re) (Chr 58))).

(** "scheme://" *)
Definition is_url_re : Re :=
  Re_init (py "^(\w[\w\+\-\.]*)://")
          (Cat Bol (Cat (Grp 1 scheme_re) (Lit (py "://")))).

(** [[\w\-]] *)
Definition is_domain_char (c : char) : bool := is_word c || (c =? 45).

(** "www." followed by 2 or more domain sections *)
Definition is_www_link_re : Re :=
  Re_init (py "^www\.([\w\-]+\.)+[\w\-]+")
          (Cat Bol (Cat (Lit (py "www."))
             (Cat (Plus (Grp 1 (Cat (Plus (Cls is_domain_char)) (Chr 46))))
                  (Plus (Cls is_domain_char))))).

(** [\S] *)
Definition is_nonspace (c : char) : bool := negb (is_space c).

(** [[^\s:]] *)
Definition is_name_char (c : char) : bool := negb (is_space c || (c =? 58)).

(** "mailto:" address, or name "@" host *)
Definition is_email_re : Re :=
  Re_init (py "^(mailto:\S+|[^\s:]+)\@\S+\.\w+(\?.+)?$")
          (Cat Bol
            (Cat (Grp 1 (Alt (Cat (Lit (py "mailto:")) (Plus (Cls is_nonspace)))
                             (Plus (Cls is_name_char))))
            (Cat (Chr 64)
            (Cat (Plus (Cls is_nonspace))
            (Cat (Chr 46)
            (Cat (Plus (Cls is_word))
            (Cat (Opt (Grp 2 (Cat (Chr 63) (Plus (Cls dot)))))
                 Eol))))))).

(** [[/\\]] *)
Definition is_slash (c : char) : bool := (c =? 47) || (c =? BSL).

(** [[A-Za-z]] *)
Definition is_letter (c : char) : bool := is_upper c || is_lower c.

(** / ~/ ./ ../ ~user/ and the same with a backslash, or X:\ *)
Definition is_path_re : Re :=
  Re_init (py "^(/|\.\.?[/\\]|~.*[/\\]|[A-Za-z]:\\)")
          (Cat Bol
            (Grp 1 (Alt (Chr 47)
                   (Alt (Cat (Chr 46) (Cat (Opt (Chr 46)) (Cls is_slash)))
                   (Alt (Cat (Chr 126) (Cat (Star (Cls dot)) (Cls is_slash)))
                        (Cat (Cls is_letter) (Cat (Chr 58) (Chr BSL)))))))).

(** X:\ (or X:/) *)
Definition is_win32_path_re : Re :=
  Re_init (py "^[A-Za-z]:[\\/]")
          (Cat Bol (Cat (Cls is_letter) (Cat (Chr 58) (Cls is_slash)))).

(** [[^\\]] *)
Definition is_not_backslash (c : char) : bool := negb (c =? BSL).

(** \\host\share or smb://host/share *)
Definition is_win32_share_re : Re :=
  Re_init (py "^(\\\\[^\\]+\\.+|smb://)")
          (Cat Bol
            (Grp 1 (Alt (Cat (Chr BSL) (Cat (Chr BSL)
                          (Cat (Plus (Cls is_not_backslash))
                          (Cat (Chr BSL) (Plus (Cls dot))))))
                        (Lit (py "smb://"))))).

(** identifier "?" path *)
Definition is_interwiki_re : Re :=
  Re_init (py "^(\w[\w\+\-\.]*)\?(.*)")
          (Cat Bol (Cat (Grp 1 scheme_re)
                   (Cat (Chr 63) (Grp 2 (Star (Cls dot)))))).

(** ['[^\w+\-.]'] *)
Definition interwiki_bad_re : regex :=
  Cls (fun c => negb (is_scheme_char c)).

Definition valid_interwiki_key (name : str) : result str :=
  let key := re_sub interwiki_bad_re (fun _ => py "_") name in
  match key with
  | [] => Raise IndexError                      (* key[0] *)
  | k0 :: _ =>
      if (k0 =? 45) || (k0 =? 46)
      then Ok (py "_" ++ skipn 1 key)           (* "_" matches \w *)
      else Ok key
  end.

(** The truth value of what [match] returns. *)
Definition found (m : option rmatch) : bool :=
  match m with Some _ => true | None => false end.

(** [uri_scheme]: a scheme or [None]. *)
Definition uri_scheme (link : str) : result (option str) :=
  if found (fst (Re_match is_email_re link)) then Ok (Some (py "mailto"))
  else
    let (m, is_uri_re') := Re_match is_uri_re link in
    if found m then Re_getitem is_uri_re' 1 else Ok None.

(** [link_type]: the type is a string; [Re_getitem] may in principle
    give [None] or raise. *)
Definition link_type (link : str) : result (option str) :=
  let (m, is_url_re') := Re_match is_url_re link in
  if found m then
    if startswith link (py "zim+") then Ok (Some (py "notebook"))
    else Re_getitem is_url_re' 1
  else if startswith link (py "file:/") then Ok (Some (py "file"))
  else if found (fst (Re_match is_email_re link))
  then Ok (Some (py "mailto"))
  else if found (fst (Re_match is_www_link_re link))
  then Ok (Some (py "http"))
  else if contains 64 link
          && (startswith link (py "mid:") || startswith link (py "cid:"))
  then Ok (Some (firstn 3 link))
  else if found (fst (Re_match is_win32_share_re link))
  then Ok (Some (py "smb"))
  else if found (fst (Re_match is_path_re link))
  then Ok (Some (py "file"))
  else if found (fst (Re_match is_interwiki_re link))
  then Ok (Some (py "interwiki"))
  else Ok (Some (py "page")).

(** ** Dates *)

(** [\D] *)
Definition is_nondecimal (c : char) : bool := negb (is_decimal c).

(** [r'(\d{1,4})\D(\d{1,2})(?:\D(\d{1,4}))?'] *)
Definition _parse_date_re : regex :=
  Cat (Grp 1 (Upto 3 (Cls is_decimal)))
  (Cat (Cls is_nondecimal)
  (Cat (Grp 2 (Upto 1 (Cls is_decimal)))
       (Opt (Cat (Cls is_nondecimal) (Grp 3 (Upto 3 (Cls is_decimal))))))).

Fixpoint int_digits (acc : Z) (s : str) : result Z :=
  match s with
  | [] => Ok acc
  | c :: s' =>
      match decimal_value c with
      | Some v => int_digits (acc * 10 + v) s'
      | None => Raise ValueError
      end
  end.

(** [int(x)] for a group of the date pattern: a string of decimal
    digits, or [None]. *)
Definition int (x : option str) : result Z :=
  match x with
  | None => Raise TypeError
  | Some [] => Raise ValueError
  | Some s => int_digits 0 s
  end.

(** [not x] for a string or [None]. *)
Definition falsy (x : option str) : bool :=
  match x with
  | None | Some [] => true
  | Some _ => false
  end.

(** [len(x)] for a string or [None]. *)
Definition len (x : option str) : result nat :=
  match x with
  | Some s => Ok (length s)
  | None => Raise TypeError
  end.

(** [parse_date]; [today_year] and [today_month] are what [date.today()]
    gives.  The result [None] is Python's [None]. *)
Definition parse_date (today_year today_month : Z) (string : str)
  : result (option (Z * Z * Z)) :=
  match re_search _parse_date_re string with
  | Some mt =>
      match groups mt with
      | [d; m; y] =>
          bind (len d) (fun n =>
          let '(d, m, y) := if Nat.eqb n 4 then (y, m, d) else (d, m, y) in
          if falsy d then Ok None           (* yyyy-mm not supported *)
          else
            bind (if falsy y
                  then
                    (* Guess year, based on time delta *)
                    bind (int m) (fun mi =>
                    if today_month - mi >=? 6
                    then Ok (today_year + 1)
                    else Ok today_year)
                  else
                    bind (int y) (fun y =>
                    if y <? 50 then Ok (y + 2000)
                    else if y <? 1000 then Ok (y + 1900)
                    else Ok y)) (fun y =>
            bind (int m) (fun m =>
            bind (int d) (fun d =>
            Ok (Some (y, m, d))))))
      | _ => Raise ValueError               (* the pattern has three groups *)
      end
  | None => Ok None
  end.

End Classes.

(** ** More of the module *)

(** ['^\w[\w+\-.]*$'] *)
Definition is_interwiki_keyword_re (U : unicode) : regex :=
  Cat Bol (Cat (Cls (is_word U)) (Cat (Star (Cls (is_scheme_char U))) Eol)).

(** [normalize_win32_share]; [nt] tells whether [os.name] is ['nt'].
    [url_encode] and [url_decode] are called in their default mode,
    [URL_ENCODE_PATH]. *)
Definition normalize_win32_share (nt : bool) (path : str) : result str :=
  if nt then
    if startswith path (py "smb://") then
      (* smb://host/share/.. -> \\host\share\.. *)
      let path := replace (skipn 4 path) (py "/") [BSL] in
      url_decode path URL_ENCODE_PATH
    else Ok path
  else
    if startswith path [BSL; BSL] then
      (* \\host\share\.. -> smb://host/share/.. *)
      bind (url_encode (replace path [BSL] (py "/")) URL_ENCODE_PATH)
           (fun encoded => Ok (py "smb:" ++ encoded))
    else Ok path.

(** ** [TextBuffer] *)

(** The characters at which [str.splitlines] ends a line: [\n], [\r],
    [\v], [\f], [\x1c], [\x1d], [\x1e], [\x85], [\u2028] and [\u2029]. *)
Definition is_line_boundary (c : char) : bool :=
  (c =? LF) || (c =? CR) || (c =? 11) || (c =? 12) || (c =? 28) || (c =? 29)
  || (c =? 30) || (c =? 0x85) || (c =? 0x2028) || (c =? 0x2029).

(** [s.splitlines(True)]: the lines with their ends; [\r\n] is one end.
    [line] is the line read so far. *)
Fixpoint splitlines_from (s line : str) : list str :=
  match s with
  | [] => match line with [] => [] | _ :: _ => [line] end
  | c :: s' =>
      if c =? CR then
        match s' with
        | d :: s'' =>
            if d =? LF then (line ++ [CR; LF]) :: splitlines_from s'' []
            else (line ++ [CR]) :: splitlines_from s' []
        | [] => [line ++ [CR]]
        end
      else if is_line_boundary c then (line ++ [c]) :: splitlines_from s' []
      else splitlines_from s' (line ++ [c])
  end.

Definition splitlines (s : str) : list str := splitlines_from s [].

(** [s.endswith(suffix)] *)
Definition endswith (s suffix : str) : bool :=
  startswith (rev s) (rev suffix).

(** A [TextBuffer] is a list of strings. *)
Definition TextBuffer := list str.

(** [get_lines]; [lines[-1] += '\n'] changes the last line. *)
Definition get_lines (self : TextBuffer) (end_with_newline : bool)
  : list str :=
  let lines := splitlines (concat self) in
  match rev lines with
  | last_line :: front =>
      if end_with_newline && negb (endswith last_line [LF])
      then rev front ++ [last_line ++ [LF]]
      else lines
  | [] => lines
  end.

(** [prefix_lines]: the new content of the buffer. *)
Definition prefix_lines (self : TextBuffer) (prefix : str) : TextBuffer :=
  map (fun line => prefix ++ line) (get_lines self false).

(** ** [Re.start] and [Re.end] *)

(** [m.span(group)]: [(-1, -1)] for a group that exists but took no part
    in the match. *)
Definition span (m : rmatch) (group : Z) : result (Z * Z) :=
  if group <? 0 then Raise IndexError
  else
    match Z.to_nat group with
    | O => Ok (Z.of_nat (mt_start m), Z.of_nat (mt_end m))
    | S _ as i =>
        if Nat.leb i (mt_groups m) then
          match lookup_cap i (mt_caps m) with
          | Some (a, b) => Ok (Z.of_nat a, Z.of_nat b)
          | None => Ok (-1, -1)
          end
        else Raise IndexError
    end.

(** What a call of a method of [self.m] gives: [self.m] may be [None],
    which has no such method. *)
Inductive called (A : Type) :=
| Gives (r : result A)
| AttributeError.
Arguments Gives {A} r.
Arguments AttributeError {A}.

(** [self.m.start(group)] *)
Definition Re_start (self : Re) (group : Z) : called Z :=
  match re_m self with
  | None => AttributeError
  | Some m => Gives (bind (span m group) (fun sp => Ok (fst sp)))
  end.

(** [self.m.end(group)] *)
Definition Re_end (self : Re) (group : Z) : called Z :=
  match re_m self with
  | None => AttributeError
  | Some m => Gives (bind (span m group) (fun sp => Ok (snd sp)))
  end.

(** ** Character-level readings

    What the substitutions of the module do, read off one character at a
    time.  The properties below relate the scans through the regular
    expressions to these. *)

(** What [escape_string] does with one character. *)
Definition escape_char (chars : str) (c : char) : str :=
  if escape_class chars c then
    if c =? LF then [BSL; 110]
    else if c =? CR then [BSL; 114]
    else if c =? TAB then [BSL; 116]
    else [BSL; c]
  else [c].

(** An escape [%XY] with [X] in the class [first] comes first. *)
Definition starts_escape (first : char -> bool) (s : str) : bool :=
  match s with
  | p :: x :: y :: _ => (p =? PCT) && first x && is_hex y
  | _ => false
  end.

(** Such an escape occurs somewhere. *)
Fixpoint has_escape (first : char -> bool) (s : str) : bool :=
  match s with
  | [] => false
  | _ :: s' => starts_escape first s || has_escape first s'
  end.

(** Each escape [%XY] with [X] in [first] gives the octet it denotes. *)
Fixpoint pct_decode (first : char -> bool) (s : str) : list Z :=
  match s with
  | [] => []
  | c :: s' =>
      match s' with
      | x :: y :: s'' =>
          if (c =? PCT) && first x && is_hex y
          then (hex_value x * 16 + hex_value y) :: pct_decode first s''
          else c :: pct_decode first s'
      | _ => c :: pct_decode first s'
      end
  end.

(** A run of escapes, given by their pairs of digits. *)
Definition escape_run (xs : list (char * char)) : str :=
  flat_map (fun xy => [PCT; fst xy; snd xy]) xs.

Definition good_escape (first : char -> bool) (xy : char * char) : Prop :=
  first (fst xy) = true /\ is_hex (snd xy) = true.

(** Percent encoding, one character at a time: the characters of [keep]
    stay, any other gives the escapes of its octets. *)
Definition pct_encode (keep : char -> bool) (s : str) : str :=
  flat_map (fun c => if keep c then [c]
                     else flat_map percent_byte (utf8_char_bytes c)) s.

Definition octet (b : Z) : Prop := 0 <= b < 256.
Definition ascii_char (c : Z) : Prop := 0 <= c < 0x80.

(** [c < 0x80] *)
Definition is_ascii (c : char) : bool := c <? 0x80.

(** ** Readings of the matcher and of [sublist] *)

(** [st'] is [st] after some text was consumed. *)
Definition extends (st st' : mstate) : Prop :=
  exists consumed,
    m_rest st = consumed ++ m_rest st' /\
    m_pos st' = (m_pos st + length consumed)%nat.

(** Matches of [subject] that follow one another between [lo] and [hi]. *)
Fixpoint chain (subject : str) (lo : nat) (ms : list rmatch) (hi : nat) : Prop :=
  match ms with
  | [] => (lo <= hi)%nat
  | m :: ms' =>
      mt_string m = subject /\
      (lo <= mt_start m)%nat /\ (mt_start m <= mt_end m)%nat /\
      chain subject (mt_end m) ms' hi
  end.

(** Where an entry of the list that [sublist] returns comes from. *)
Inductive emitted (T : Type) :=
| Fragment (s : str)                     (* text between two matches *)
| Replaced (m : rmatch) (x : entry T)    (* what [repl] gave for a match *)
| Kept (o : T).                          (* an entry that is not a string *)
Arguments Fragment {T} s.
Arguments Replaced {T} m x.
Arguments Kept {T} o.

Definition forget {T} (e : emitted T) : entry T :=
  match e with
  | Fragment s => Str s
  | Replaced _ x => x
  | Kept o => Obj o
  end.

(** The text of the input that an entry stands for. *)
Definition text_of {T} (e : emitted T) : str :=
  match e with
  | Fragment s => s
  | Replaced m _ => group0 m
  | Kept _ => []
  end.

(** What [sublist] emits for a string: fragments that are not empty, and
    results of [repl] called with the wrapper at a match. *)
Definition from_string {T} (repl : Re -> entry T * Re) (e : emitted T) : Prop :=
  match e with
  | Fragment s => s <> []
  | Replaced m x => exists cursor, re_m cursor = Some m /\ x = fst (repl cursor)
  | Kept _ => False
  end.

(** The entries emitted for one entry of the input. *)
Definition block_of {T} (repl : Re -> entry T * Re) (it : entry T)
  (block : list (emitted T)) : Prop :=
  match it with
  | Obj o => block = [Kept o]
  | Str s =>
      concat (map text_of block) = s /\ Forall (from_string repl) block
  end.

(** The matches of a scan. *)
Definition matches_of (ps : list piece) : list rmatch :=
  flat_map (fun p => match p with Copy _ => [] | Found m => [m] end) ps.

(** The characters of a key. *)
Definition key_char (U : unicode) (c : char) : Prop :=
  is_word U c = true \/ c = 43 \/ c = 45 \/ c = 46.

(** A string of decimal digits. *)
Definition digits (U : unicode) (g : str) : Prop :=
  g <> [] /\ Forall (fun c => is_decimal U c = true) g.

(** The year as [parse_date] reads it. *)
Definition full_year (y : Z) : Z :=
  if y <? 50 then y + 2000 else if y <? 1000 then y + 1900 else y.

(** A Unicode database with nothing beyond ASCII. *)
Definition ascii_only : unicode :=
  Unicode (fun _ => false) (fun _ => false) (fun _ => None).

(** ** Splitting at the separators that are not escaped

    [split_unescaped] follows the words of the specification: it walks
    through the text and keeps the parity of the backslashes that come
    directly before the current character; a separator after an even
    number of them ends the part, any other character joins it. *)
Fixpoint split_unescaped (sep : char) (s : str) (part : str) (odd_bs : bool)
  : list str :=
  match s with
  | [] => [part]
  | c :: s' =>
      if (c =? sep) && negb odd_bs
      then part :: split_unescaped sep s' [] false
      else split_unescaped sep s' (part ++ [c]) ((c =? BSL) && negb odd_bs)
  end.

(** [pat] occurs in [s]. *)
Fixpoint occurs (pat s : str) : bool :=
  match s with
  | [] => startswith s pat
  | _ :: s' => startswith s pat || occurs pat s'
  end.

(** The number of backslashes at the head. *)
Fixpoint lead_bsl (s : str) : nat :=
  match s with
  | c :: s' => if c =? BSL then S (lead_bsl s') else 0
  | [] => 0
  end.

(** Where [$] matches. *)
Definition at_eol (rest : str) : bool :=
  match rest with
  | [] => true
  | [x] => x =? LF
  | _ => false
  end.

(** The text ends with a backslash and a newline. *)
Fixpoint ends_bsl_lf (s : str) : bool :=
  match s with
  | [] => false
  | c :: s' =>
      match s' with
      | [l] => (c =? BSL) && (l =? LF)
      | _ => false
      end || ends_bsl_lf s'
  end.

(** The parity of the backslashes at the end of a text. *)
Fixpoint trailing_odd (s : str) : bool :=
  match s with
  | [] => false
  | c :: s' =>
      if (c =? BSL) && Nat.eqb (lead_bsl s') (length s')
      then Nat.odd (S (length s'))
      else trailing_odd s'
  end.

Definition parity_step (odd_bs : bool) (c : char) : bool :=
  (c =? BSL) && negb odd_bs.

Definition parity (s : str) : bool := fold_left parity_step s false.

(** The text still ahead of [split_escaped_string], with the piece being
    read, shows no backslash and newline right before a separator. *)
Definition clean (sep : char) (piece s : str) : Prop :=
  (sep = LF /\ ~ In LF piece) \/
  (sep <> LF /\ occurs [BSL; LF; sep] (piece ++ s) = false).

(** The parts so far, as the loop of [split_escaped_string] holds them:
    [front] are the parts that are closed; [held] is the part that the
    next piece is joined to. *)
Definition parts_of (front : list str) (held : option str) : list str :=
  match held with
  | Some p => front ++ [p]
  | None => front
  end.

Definition current (sep : char) (held : option str) (piece : str) : str :=
  match held with
  | Some p => p ++ [sep] ++ piece
  | None => piece
  end.

Definition is_held (held : option str) : bool :=
  match held with Some _ => true | None => false end.

(** ** Further readings *)

(** The characters that [url_encode] leaves alone in each mode. *)
Definition keep_path (c : char) : bool := unreserved c || (c =? 47).

Definition keep_readable (c : char) : bool :=
  unreserved c || negb ((c =? 32) || (127 <? c)).

Definition keep_of_mode (mode : Z) : char -> bool :=
  if mode =? URL_ENCODE_DATA then unreserved
  else if mode =? URL_ENCODE_PATH then keep_path
  else keep_readable.

Definition known_mode (mode : Z) : Prop :=
  mode = URL_ENCODE_DATA \/ mode = URL_ENCODE_PATH \/
  mode = URL_ENCODE_READABLE.

(** A substitution that may raise, one character at a time. *)
Fixpoint try_chars (g : char -> result str) (s : str) : result str :=
  match s with
  | [] => Ok []
  | c :: s' =>
      bind (g c) (fun x => bind (try_chars g s') (fun out => Ok (x ++ out)))
  end.

(** What [url_encode] does with one character. *)
Definition encode_char (keep : char -> bool) (c : char) : result str :=
  if keep c then Ok [c]
  else bind (utf8_encode_char c) (fun b => Ok (flat_map percent_byte b)).

(** The character that [_unescape] gives for the second character of an
    escape. *)
Definition unescaped (d : char) : char :=
  if d =? 110 then LF else if d =? 116 then TAB else d.

(** [unescape_string], read from left to right: a backslash and a
    character other than a newline give one character; any other
    character, a backslash before a newline or at the end included,
    stays. *)
Fixpoint unescape_chars (s : str) : str :=
  match s with
  | [] => []
  | c :: s' =>
      match s' with
      | d :: s'' =>
          if (c =? BSL) && dot d
          then unescaped d :: unescape_chars s''
          else c :: unescape_chars s'
      | [] => [c]
      end
  end.

(** A reader of escaped text that knows the letter [r] as well. *)
Fixpoint escape_inverse (s : str) : str :=
  match s with
  | [] => []
  | c :: s' =>
      match s' with
      | d :: s'' =>
          if c =? BSL
          then (if d =? 110 then LF
                else if d =? 114 then CR
                else if d =? 116 then TAB
                else d) :: escape_inverse s''
          else c :: escape_inverse s'
      | [] => [c]
      end
  end.

(** What becomes of a character that is escaped and unescaped. *)
Definition cr_as_letter (c : char) : char := if c =? CR then 114 else c.

(** [sep.join(parts)] *)
Fixpoint join_with (sep : str) (parts : list str) : str :=
  match parts with
  | [] => []
  | p :: rest =>
      match rest with
      | [] => p
      | _ :: _ => p ++ sep ++ join_with sep rest
      end
  end.

(** The kept characters of a share path that went to a URL and back. *)
Definition keep_share (c : char) : bool := (c =? BSL) || unreserved c.

(** The spans of the groups lie between [lo] and [hi]. *)
Definition caps_within (lo hi : nat) (caps : list (nat * (nat * nat))) : Prop :=
  Forall (fun e => (lo <= fst (snd e) <= snd (snd e))%nat /\
                   (snd (snd e) <= hi)%nat) caps.

(** The groups that a matcher closes lie within the text it consumes. *)
Definition closes_within (f : mstate -> list mstate) : Prop :=
  forall st st', In st' (f st) ->
    exists new, m_caps st' = new ++ m_caps st /\
                caps_within (m_pos st) (m_pos st') new.

(** An entry that is the empty string. *)
Definition is_empty_string {T} (e : entry T) : bool :=
  match e with
  | Str [] => true
  | _ => false
  end.

(** A name of a scheme: a word character and then word characters,
    [+], [-] and [.]. *)
Definition scheme_name (U : unicode) (scheme : str) : Prop :=
  match scheme with
  | [] => False
  | c :: cs =>
      is_word U c = true /\ Forall (fun x => is_scheme_char U x = true) cs
  end.

(** * Properties *)

(** Empty matches, as [re.sub('x*', '-', 'abxd')] gives ['-a-b--d-']. *)
Example sub_empty_matches :
  re_sub (Star (Chr 120)) (fun _ => py "-") (py "abxd") = py "-a-b--d-" /\
  map (fun m => (mt_start m, mt_end m)) (finditer (Star (Chr 120)) (py "abxd")) =
    [(0, 0); (1, 1); (2, 3); (3, 3); (4, 4)]%nat.
Proof. split; vm_compute; reflexivity. Qed.

Example escape_demo :
  escape_string (py "a" ++ [LF] ++ py "b\c;") (py ";") = py "a\nb\\c\;".
Proof. vm_compute. reflexivity. Qed.

Example unescape_demo :
  unescape_string (py "a\nb\\c\;\") = py "a" ++ [LF] ++ py "b\c;\".
Proof. vm_compute. reflexivity. Qed.

(** ** Slices and scanning *)

Lemma slice_app (pre x post : str) :
  slice (pre ++ x ++ post) (length pre) (length pre + length x) = x.
Proof.
  unfold slice.
  rewrite skipn_app, skipn_all, Nat.sub_diag; simpl.
  replace (length pre + length x - length pre)%nat with (length x) by lia.
  rewrite firstn_app, firstn_all, Nat.sub_diag; simpl.
  apply app_nil_r.
Qed.

Lemma slice_one (pre : str) (c : char) (post : str) :
  slice (pre ++ c :: post) (length pre) (S (length pre)) = [c].
Proof.
  replace (S (length pre)) with (length pre + length [c])%nat by (simpl; lia).
  apply (slice_app pre [c] post).
Qed.

Lemma slice_two (pre : str) (c d : char) (post : str) :
  slice (pre ++ c :: d :: post) (length pre) (S (S (length pre))) = [c; d].
Proof.
  replace (S (S (length pre))) with (length pre + length [c; d])%nat
    by (simpl; lia).
  apply (slice_app pre [c; d] post).
Qed.

Lemma snoc_assoc (pre : str) (c : char) (rest : str) :
  pre ++ c :: rest = (pre ++ [c]) ++ rest.
Proof. rewrite <- app_assoc. reflexivity. Qed.

Lemma length_snoc (pre : str) (c : char) : length (pre ++ [c]) = S (length pre).
Proof. rewrite length_app; simpl; lia. Qed.

(** The steps of [scan]. *)
Lemma scan_skip r subject pos c rest k :
  scan r subject pos (c :: rest) (S k) = scan r subject (S pos) rest k.
Proof. reflexivity. Qed.

Lemma scan_copy r subject pos c rest :
  match_here r subject pos (c :: rest) = None ->
  scan r subject pos (c :: rest) 0 = Copy c :: scan r subject (S pos) rest 0.
Proof. intros H. cbn [scan]. rewrite H. reflexivity. Qed.

Lemma scan_found r subject pos c rest m :
  match_here r subject pos (c :: rest) = Some m ->
  (pos < mt_end m)%nat ->
  scan r subject pos (c :: rest) 0 =
  Found m :: scan r subject (S pos) rest (mt_end m - pos - 1).
Proof.
  intros H Hlt. cbn [scan]. rewrite H.
  rewrite (proj2 (Nat.ltb_lt _ _) Hlt). reflexivity.
Qed.

Lemma render_copy repl c ps : render repl (Copy c :: ps) = c :: render repl ps.
Proof. reflexivity. Qed.

Lemma render_found repl m ps :
  render repl (Found m :: ps) = repl m ++ render repl ps.
Proof. reflexivity. Qed.

(** Substitution of a one-character class works character by character. *)
Lemma sub_cls (p : char -> bool) (repl : rmatch -> str) (f : str -> str) :
  (forall m, repl m = f (group0 m)) ->
  forall rest pre,
    render repl (scan (Cls p) (pre ++ rest) (length pre) rest 0) =
    flat_map (fun c => if p c then f [c] else [c]) rest.
Proof.
  intros Hrepl.
  induction rest as [|c rest IH]; intros pre.
  - reflexivity.
  - cbn [flat_map].
    destruct (p c) eqn:Hp.
    + rewrite (scan_found _ _ _ _ _ (RMatch (pre ++ c :: rest) 0 (length pre)
                                        (S (length pre)) [])).
      * cbn [mt_end].
        replace (S (length pre) - length pre - 1)%nat with 0%nat by lia.
        rewrite render_found, Hrepl. unfold group0; cbn [mt_string mt_start mt_end].
        rewrite slice_one.
        rewrite (snoc_assoc pre c rest), <- (length_snoc pre c), IH. reflexivity.
      * unfold match_here, start_state; cbn [ms m_rest]. rewrite Hp. reflexivity.
      * cbn [mt_end]. lia.
    + rewrite scan_copy.
      * rewrite render_copy.
        rewrite (snoc_assoc pre c rest), <- (length_snoc pre c), IH. reflexivity.
      * unfold match_here, start_state; cbn [ms m_rest]. rewrite Hp. reflexivity.
Qed.

Section Escape.

Lemma escape_string_chars (string chars : str) :
  escape_string string chars = flat_map (escape_char chars) string.
Proof.
  unfold escape_string, re_sub.
  pose proof (sub_cls (escape_class chars) _escape
             (fun g => if str_eqb g [LF] then [BSL; 110]
                       else if str_eqb g [CR] then [BSL; 114]
                       else if str_eqb g [TAB] then [BSL; 116]
                       else BSL :: g) (fun m => eq_refl) string []) as H.
  cbn [app length] in H. rewrite H.
  apply flat_map_ext; intros c. unfold escape_char.
  destruct (escape_class chars c); [|reflexivity].
  cbn [str_eqb]. rewrite !andb_true_r. reflexivity.
Qed.

Let unesc := Cat (Chr BSL) (Cls dot).

Lemma match_unesc_pair subject pos (d : char) rest :
  d <> LF ->
  match_here unesc subject pos (BSL :: d :: rest) =
  Some (RMatch subject 0 pos (S (S pos)) []).
Proof.
  intros Hd. unfold match_here, start_state, unesc, dot.
  cbn [ms m_rest flat_map]. rewrite Z.eqb_refl.
  cbn [flat_map advance m_rest app].
  rewrite (proj2 (Z.eqb_neq d LF) Hd). reflexivity.
Qed.

Lemma match_unesc_plain subject pos (c : char) rest :
  c <> BSL -> match_here unesc subject pos (c :: rest) = None.
Proof.
  intros Hc. unfold match_here, start_state, unesc.
  cbn [ms m_rest flat_map].
  rewrite (proj2 (Z.eqb_neq c BSL) Hc). reflexivity.
Qed.

(** [unescape_string] at an escaped pair. *)
Lemma unescape_pair (pre : str) (d : char) (rest : str) :
  d <> LF ->
  render _unescape (scan unesc (pre ++ BSL :: d :: rest) (length pre)
           (BSL :: d :: rest) 0) =
  (if d =? 110 then LF else if d =? 116 then TAB else d)
    :: render _unescape (scan unesc ((pre ++ [BSL; d]) ++ rest)
                (length (pre ++ [BSL; d])) rest 0).
Proof.
  intros Hd.
  rewrite (scan_found _ _ _ _ _ _ (match_unesc_pair _ _ _ _ Hd))
    by (cbn [mt_end]; lia).
  cbn [mt_end].
  replace (S (S (length pre)) - length pre - 1)%nat with 1%nat by lia.
  rewrite scan_skip, render_found.
  unfold _unescape, group0; cbn [mt_string mt_start mt_end].
  rewrite slice_two. cbn [rev app].
  rewrite <- app_assoc, length_app. cbn [app length].
  replace (length pre + 2)%nat with (S (S (length pre))) by lia.
  destruct (d =? 110); [reflexivity|].
  destruct (d =? 116); reflexivity.
Qed.

(** [unescape_string] at a character that is not a backslash. *)
Lemma unescape_plain (pre : str) (c : char) (rest : str) :
  c <> BSL ->
  render _unescape (scan unesc (pre ++ c :: rest) (length pre) (c :: rest) 0) =
  c :: render _unescape (scan unesc ((pre ++ [c]) ++ rest)
                (length (pre ++ [c])) rest 0).
Proof.
  intros Hc.
  rewrite (scan_copy _ _ _ _ _ (match_unesc_plain _ _ _ _ Hc)), render_copy.
  rewrite <- snoc_assoc, length_snoc. reflexivity.
Qed.

Variable chars : str.
Hypothesis no_n : ~ In 110 chars.
Hypothesis no_t : ~ In 116 chars.

Lemma escape_class_true (c : char) :
  escape_class chars c = true ->
  c = LF \/ c = CR \/ c = TAB \/ c = BSL \/ In c chars.
Proof.
  unfold escape_class, contains. rewrite existsb_exists.
  intros [x [Hin Heq]]. apply Z.eqb_eq in Heq. subst x.
  cbn [app In] in Hin.
  destruct Hin as [H|[H|[H|[H|H]]]]; subst; auto.
Qed.

Lemma escape_class_false (c : char) :
  escape_class chars c = false -> c <> BSL.
Proof.
  unfold escape_class, contains. intros H Hc. subst c.
  cbn in H. discriminate.
Qed.

Lemma unescape_escaped (string : str) :
  ~ In CR string ->
  forall pre,
    render _unescape (scan unesc (pre ++ flat_map (escape_char chars) string)
             (length pre) (flat_map (escape_char chars) string) 0) = string.
Proof.
  induction string as [|c string IH]; intros Hcr pre; [reflexivity|].
  assert (Hc : c <> CR) by (intros ->; apply Hcr; left; reflexivity).
  assert (Hcr' : ~ In CR string) by (intros H; apply Hcr; right; exact H).
  cbn [flat_map]. unfold escape_char at 1 3.
  destruct (escape_class chars c) eqn:Hcls.
  - destruct (Z.eqb_spec c LF) as [->|Hlf].
    { cbn [app]. rewrite unescape_pair by discriminate.
      rewrite IH by assumption. reflexivity. }
    destruct (Z.eqb_spec c CR) as [->|_]; [contradiction|].
    destruct (Z.eqb_spec c TAB) as [->|Htab].
    { cbn [app]. rewrite unescape_pair by discriminate.
      rewrite IH by assumption. reflexivity. }
    cbn [app]. rewrite unescape_pair by assumption.
    rewrite IH by assumption.
    destruct (Z.eqb_spec c 110) as [->|_].
    { apply escape_class_true in Hcls.
      destruct Hcls as [H|[H|[H|[H|H]]]]; try discriminate H.
      contradiction. }
    destruct (Z.eqb_spec c 116) as [->|_].
    { apply escape_class_true in Hcls.
      destruct Hcls as [H|[H|[H|[H|H]]]]; try discriminate H.
      contradiction. }
    reflexivity.
  - cbn [app]. rewrite unescape_plain by (apply escape_class_false; exact Hcls).
    rewrite IH by assumption. reflexivity.
Qed.

End Escape.

Ltac not_in := vm_compute; intuition discriminate.

(** C3 (as amended).  For every text [T] without a carriage return and
    every plain set [C] of extra characters that holds none of backslash,
    newline, carriage return, tab and the letters [n] and [t],
    [unescape_string (escape_string T C)] is [T]. *)
Theorem unescape_escape_roundtrip (T C : str) :
  ~ In CR T ->
  plain_chars C -> ~ In LF C -> ~ In CR C -> ~ In TAB C ->
  ~ In 110 C -> ~ In 116 C ->
  unescape_string (escape_string T C) = T.
Proof.
  intros HT _ _ _ _ Hn Ht.
  rewrite escape_string_chars. unfold unescape_string, re_sub.
  exact (unescape_escaped C Hn Ht T HT []).
Qed.

Lemma unescape_escape_roundtrip_witness :
  unescape_string (escape_string (py "a\b;" ++ [LF; TAB]) (py ";:")) =
  py "a\b;" ++ [LF; TAB].
Proof.
  apply unescape_escape_roundtrip; not_in.
Defined.

(** C3 as stated fails: with the letter [n] among the extra characters,
    the escaped [n] comes back as a newline. *)
Lemma unescape_escape_letter_n :
  ~ (forall T C : str,
        plain_chars C -> ~ In LF C -> ~ In CR C -> ~ In TAB C ->
        unescape_string (escape_string T C) = T).
Proof.
  intros H.
  specialize (H (py "n") (py "n")).
  assert (E : unescape_string (escape_string (py "n") (py "n")) = [LF])
    by (vm_compute; reflexivity).
  rewrite E in H.
  assert (D : [LF] = py "n" -> False) by (vm_compute; discriminate).
  apply D, H; not_in.
Qed.

(** A carriage return is escaped with the letter [r], which
    [unescape_string] does not turn back. *)
Example unescape_escape_cr :
  escape_string [CR] [] = py "\r" /\ unescape_string (py "\r") = py "r".
Proof. split; vm_compute; reflexivity. Qed.

Example url_encode_path_demo :
  url_encode (py "a b/c") URL_ENCODE_PATH = Ok (py "a%20b/c").
Proof. vm_compute. reflexivity. Qed.

Example url_encode_data_demo :
  url_encode (py "a b/c%" ++ [233; 8364; 128512]) URL_ENCODE_DATA =
  Ok (py "a%20b%2Fc%25%C3%A9%E2%82%AC%F0%9F%98%80").
Proof. vm_compute. reflexivity. Qed.

Example url_decode_data_demo :
  url_decode (py "a%20b%2Fc%25%C3%A9%E2%82%AC%F0%9F%98%80") URL_ENCODE_DATA =
  Ok (py "a b/c%" ++ [233; 8364; 128512]).
Proof. vm_compute. reflexivity. Qed.

Example url_decode_readable_demo :
  url_decode (py "a%20b%41%C3%A9") URL_ENCODE_READABLE = Ok (py "a b%41" ++ [233]).
Proof. vm_compute. reflexivity. Qed.

Example url_decode_bad_demo :
  url_decode (py "%41%C3%A9 %FF") URL_ENCODE_DATA = Ok (py "A%C3%A9 %FF").
Proof. vm_compute. reflexivity. Qed.

Section LinkExamples.
Variable U : unicode.

Example link_type_samples :
  link_type U (py "mailto:foo@bar.com") = Ok (Some (py "mailto")) /\
  link_type U (py "www.example.com") = Ok (Some (py "http")) /\
  link_type U (py "../foo/bar") = Ok (Some (py "file")) /\
  link_type U (py "SomeWikiPage") = Ok (Some (py "page")) /\
  link_type U (py "wp?Some_Page") = Ok (Some (py "interwiki")) /\
  link_type U (py "http://zim-wiki.org") = Ok (Some (py "http")) /\
  link_type U (py "zim+file:///foo") = Ok (Some (py "notebook")) /\
  link_type U (py "file:/foo") = Ok (Some (py "file")) /\
  link_type U (py "foo@bar.com") = Ok (Some (py "mailto")) /\
  link_type U (py "mid:abc@host") = Ok (Some (py "mid")) /\
  link_type U (py "\\host\share") = Ok (Some (py "smb")) /\
  link_type U (py "~/foo") = Ok (Some (py "file")).
Proof. repeat split; vm_compute; reflexivity. Qed.
End LinkExamples.

(** ** UTF-8 round trip *)

Ltac bool_to_prop :=
  repeat match goal with
  | H : _ && _ = true |- _ => apply andb_true_iff in H; destruct H
  | H : _ || _ = false |- _ => apply orb_false_iff in H; destruct H
  | H : negb _ = true |- _ => apply negb_true_iff in H
  | H : negb _ = false |- _ => apply negb_false_iff in H
  | H : (_ <=? _) = true |- _ => apply Z.leb_le in H
  | H : (_ <=? _) = false |- _ => apply Z.leb_gt in H
  | H : (_ <? _) = true |- _ => apply Z.ltb_lt in H
  | H : (_ <? _) = false |- _ => apply Z.ltb_ge in H
  | H : (_ =? _) = true |- _ => apply Z.eqb_eq in H
  | H : (_ =? _) = false |- _ => apply Z.eqb_neq in H
  end.

Ltac ok_inj H :=
  match type of H with
  | Ok ?x = Ok ?y =>
      let E := fresh in
      assert (E : y = x) by congruence; subst y; clear H
  end.

Lemma scalar_not_surrogate (c : char) :
  scalar c -> c < 0xD800 \/ 0xDFFF < c.
Proof.
  intros [_ H]. unfold is_surrogate in H.
  apply andb_false_iff in H. destruct H; bool_to_prop; lia.
Qed.

Lemma utf8_decode_cons (b0 : Z) (t0 : bytes) :
  utf8_decode (b0 :: t0) =
  if b0 <? 0x80 then decoded (0 <=? b0) b0 (utf8_decode t0)
  else if b0 <? 0xC2 then Raise UnicodeDecodeError
  else if b0 <? 0xE0 then
    match t0 with
    | b1 :: t1 =>
        decoded (is_cont b1)
                ((b0 - 0xC0) * 64 + (b1 - 0x80)) (utf8_decode t1)
    | _ => Raise UnicodeDecodeError
    end
  else if b0 <? 0xF0 then
    match t0 with
    | b1 :: b2 :: t2 =>
        let c := (b0 - 0xE0) * 4096 + (b1 - 0x80) * 64 + (b2 - 0x80) in
        decoded (is_cont b1 && is_cont b2 && (0x800 <=? c)
                 && negb (is_surrogate c))
                c (utf8_decode t2)
    | _ => Raise UnicodeDecodeError
    end
  else if b0 <? 0xF5 then
    match t0 with
    | b1 :: b2 :: b3 :: t3 =>
        let c := (b0 - 0xF0) * 262144 + (b1 - 0x80) * 4096
                 + (b2 - 0x80) * 64 + (b3 - 0x80) in
        decoded (is_cont b1 && is_cont b2 && is_cont b3
                 && (0x10000 <=? c) && (c <=? 0x10FFFF))
                c (utf8_decode t3)
    | _ => Raise UnicodeDecodeError
    end
  else Raise UnicodeDecodeError.
Proof. reflexivity. Qed.

Lemma utf8_decode_char_bytes (c : char) (rest : bytes) :
  scalar c ->
  utf8_decode (utf8_char_bytes c ++ rest) =
  bind (utf8_decode rest) (fun s => Ok (c :: s)).
Proof.
  intros Hc. pose proof (scalar_not_surrogate c Hc) as Hs.
  destruct Hc as [[Hlo Hhi] Hsur].
  unfold utf8_char_bytes.
  destruct (Z.ltb_spec c 0x80).
  { rewrite <- app_comm_cons; cbv beta iota delta [app]; rewrite utf8_decode_cons.
    rewrite (proj2 (Z.ltb_lt _ _)) by lia.
    unfold decoded. rewrite (proj2 (Z.leb_le _ _)) by lia. reflexivity. }
  destruct (Z.ltb_spec c 0x800).
  { rewrite <- app_comm_cons; cbv beta iota delta [app]; rewrite utf8_decode_cons.
    assert (0xC2 <= 0xC0 + c / 64 < 0xE0) by (Z.div_mod_to_equations; lia).
    assert (0 <= c mod 64 < 64) by (Z.div_mod_to_equations; lia).
    rewrite (proj2 (Z.ltb_ge _ 0x80)) by lia.
    rewrite (proj2 (Z.ltb_ge _ 0xC2)) by lia.
    rewrite (proj2 (Z.ltb_lt _ 0xE0)) by lia.
    unfold decoded, is_cont.
    rewrite (proj2 (Z.leb_le 0x80 _)), (proj2 (Z.leb_le _ 0xBF)) by lia.
    cbn [andb].
    replace ((0xC0 + c / 64 - 0xC0) * 64 + (0x80 + c mod 64 - 0x80)) with c
      by (Z.div_mod_to_equations; lia).
    reflexivity. }
  destruct (Z.ltb_spec c 0x10000).
  { rewrite <- app_comm_cons; cbv beta iota delta [app]; rewrite utf8_decode_cons.
    assert (0xE0 <= 0xE0 + c / 4096 < 0xF0) by (Z.div_mod_to_equations; lia).
    assert (0 <= c mod 64 < 64) by (Z.div_mod_to_equations; lia).
    assert (0 <= (c / 64) mod 64 < 64) by (Z.div_mod_to_equations; lia).
    rewrite (proj2 (Z.ltb_ge _ 0x80)) by lia.
    rewrite (proj2 (Z.ltb_ge _ 0xC2)) by lia.
    rewrite (proj2 (Z.ltb_ge _ 0xE0)) by lia.
    rewrite (proj2 (Z.ltb_lt _ 0xF0)) by lia. cbv zeta.
    replace ((0xE0 + c / 4096 - 0xE0) * 4096
             + (0x80 + (c / 64) mod 64 - 0x80) * 64
             + (0x80 + c mod 64 - 0x80)) with c
      by (Z.div_mod_to_equations; lia).
    unfold decoded, is_cont.
    rewrite !(proj2 (Z.leb_le 0x80 _)), !(proj2 (Z.leb_le _ 0xBF)) by lia.
    rewrite (proj2 (Z.leb_le 0x800 c)) by lia.
    rewrite Hsur. reflexivity. }
  rewrite <- app_comm_cons; cbv beta iota delta [app]; rewrite utf8_decode_cons.
  assert (0xF0 <= 0xF0 + c / 262144 < 0xF5) by (Z.div_mod_to_equations; lia).
  assert (0 <= c mod 64 < 64) by (Z.div_mod_to_equations; lia).
  assert (0 <= (c / 64) mod 64 < 64) by (Z.div_mod_to_equations; lia).
  assert (0 <= (c / 4096) mod 64 < 64) by (Z.div_mod_to_equations; lia).
  rewrite (proj2 (Z.ltb_ge _ 0x80)) by lia.
  rewrite (proj2 (Z.ltb_ge _ 0xC2)) by lia.
  rewrite (proj2 (Z.ltb_ge _ 0xE0)) by lia.
  rewrite (proj2 (Z.ltb_ge _ 0xF0)) by lia.
  rewrite (proj2 (Z.ltb_lt _ 0xF5)) by lia. cbv zeta.
  replace ((0xF0 + c / 262144 - 0xF0) * 262144
           + (0x80 + (c / 4096) mod 64 - 0x80) * 4096
           + (0x80 + (c / 64) mod 64 - 0x80) * 64
           + (0x80 + c mod 64 - 0x80)) with c
    by (Z.div_mod_to_equations; lia).
  unfold decoded, is_cont.
  rewrite !(proj2 (Z.leb_le 0x80 _)), !(proj2 (Z.leb_le _ 0xBF)) by lia.
  rewrite (proj2 (Z.leb_le 0x10000 c)), (proj2 (Z.leb_le c 0x10FFFF)) by lia.
  reflexivity.
Qed.

Lemma utf8_encode_scalar (s : str) :
  Forall scalar s -> utf8_encode s = Ok (flat_map utf8_char_bytes s).
Proof.
  induction 1 as [|c s [_ Hc] _ IH]; [reflexivity|].
  cbn [utf8_encode flat_map]. unfold utf8_encode_char.
  rewrite Hc, IH. reflexivity.
Qed.

Lemma utf8_decode_bytes_of (s : str) :
  Forall scalar s -> utf8_decode (flat_map utf8_char_bytes s) = Ok s.
Proof.
  induction 1 as [|c s Hc _ IH]; [reflexivity|].
  cbn [flat_map]. rewrite utf8_decode_char_bytes, IH by assumption.
  reflexivity.
Qed.

(** ** Runs of percent escapes *)

Lemma scan_skip_all r subject (a : str) : forall pos rest,
  scan r subject pos (a ++ rest) (length a) =
  scan r subject (pos + length a) rest 0.
Proof.
  induction a as [|c a IH]; intros pos rest.
  - cbn [app length]. rewrite Nat.add_0_r. reflexivity.
  - cbn [app length]. rewrite scan_skip, IH.
    replace (S pos + length a)%nat with (pos + S (length a))%nat by lia.
    reflexivity.
Qed.

Lemma join_pieces_pure (repl : rmatch -> str) (ps : list piece) :
  join_pieces (fun m => Ok (repl m)) ps = Ok (render repl ps).
Proof.
  induction ps as [|[c|m] ps IH]; cbn [join_pieces]; [reflexivity| |];
    rewrite IH; reflexivity.
Qed.

Section Escapes.

Variable first : char -> bool.

Let body := Grp 1 (Cat (Chr PCT) (Cat (Cls first) (Cls is_hex))).

Let good_pair := good_escape first.

Lemma ms_body_escape pos x y rest caps :
  first x = true -> is_hex y = true ->
  ms body (MState pos (PCT :: x :: y :: rest) caps) =
  [MState (S (S (S pos))) rest ((1%nat, (pos, S (S (S pos)))) :: caps)].
Proof.
  intros Hx Hy. unfold body.
  cbn [ms m_rest m_pos flat_map map]. rewrite Z.eqb_refl.
  cbn [flat_map advance m_rest m_pos m_caps app]. rewrite Hx.
  cbn [flat_map advance m_rest m_pos m_caps app]. rewrite Hy.
  reflexivity.
Qed.

Lemma ms_body_none pos rest caps :
  starts_escape first rest = false -> ms body (MState pos rest caps) = [].
Proof.
  intros H. unfold body. cbn [ms m_rest m_pos].
  destruct rest as [|p rest]; [reflexivity|].
  destruct (Z.eqb_spec p PCT) as [->|Hp]; [|reflexivity].
  cbn [flat_map advance m_rest app].
  destruct rest as [|x rest]; [reflexivity|].
  destruct (first x) eqn:Hx; [|reflexivity].
  cbn [flat_map advance m_rest app].
  destruct rest as [|y rest]; [reflexivity|].
  destruct (is_hex y) eqn:Hy; [|reflexivity].
  cbn [starts_escape] in H. rewrite Z.eqb_refl, Hx, Hy in H. discriminate.
Qed.

Lemma length_escape_run xs : length (escape_run xs) = (3 * length xs)%nat.
Proof.
  induction xs as [|xy xs IH]; [reflexivity|].
  unfold escape_run in *. cbn [flat_map app length]. rewrite IH. lia.
Qed.

(** The loop takes the whole run. *)
Lemma star_run xs : forall n pos caps tail,
  Forall good_pair xs ->
  starts_escape first tail = false ->
  (length xs <= n)%nat ->
  exists caps' l,
    star_iter (ms body) n (MState pos (escape_run xs ++ tail) caps) =
    MState (pos + 3 * length xs) tail caps' :: l.
Proof.
  induction xs as [|[x y] xs IH]; intros n pos caps tail Hgood Htail Hn.
  - cbn [escape_run flat_map app length]. rewrite Nat.mul_0_r, Nat.add_0_r.
    destruct n as [|n]; cbn [star_iter].
    + eauto.
    + rewrite ms_body_none by assumption. cbn [flat_map app]. eauto.
  - inversion Hgood as [|? ? [Hx Hy] Hgood']; subst.
    cbn [fst snd] in Hx, Hy.
    destruct n as [|n]; [cbn [length] in Hn; lia|].
    cbn [length] in Hn.
    unfold escape_run. cbn [flat_map fst snd app]. fold (escape_run xs).
    cbn [star_iter]. rewrite ms_body_escape by assumption.
    cbn [flat_map m_pos]. rewrite (proj2 (Nat.ltb_lt _ _)) by lia.
    destruct (IH n (S (S (S pos))) ((1%nat, (pos, S (S (S pos)))) :: caps)
                tail Hgood' Htail ltac:(lia)) as [caps' [l Hl]].
    rewrite Hl. cbn [app length].
    replace (S (S (S pos)) + 3 * length xs)%nat
      with (pos + 3 * S (length xs))%nat by lia.
    eauto.
Qed.

Lemma match_run subject pos xy xs tail :
  Forall good_pair (xy :: xs) ->
  starts_escape first tail = false ->
  exists caps,
    match_here (escapes_re first) subject pos (escape_run (xy :: xs) ++ tail) =
    Some (RMatch subject 1 pos (pos + 3 * length (xy :: xs)) caps).
Proof.
  intros Hgood Htail. destruct xy as [x y].
  inversion Hgood as [|? ? [Hx Hy] Hgood']; subst. cbn [fst snd] in Hx, Hy.
  unfold match_here, start_state, escapes_re, Plus. fold body.
  unfold escape_run. cbn [flat_map fst snd app]. fold (escape_run xs).
  cbn [ms]. rewrite ms_body_escape by assumption.
  cbn [flat_map m_rest].
  destruct (star_run xs (length (escape_run xs ++ tail)) (S (S (S pos)))
              [(1%nat, (pos, S (S (S pos))))] tail Hgood' Htail)
    as [caps [l Hl]].
  { rewrite length_app, length_escape_run. lia. }
  rewrite Hl. cbn [app]. unfold mk_match. cbn [m_pos m_caps length].
  replace (S (S (S pos)) + 3 * length xs)%nat
    with (pos + 3 * S (length xs))%nat by lia.
  exists caps. reflexivity.
Qed.

Lemma match_no_escape subject pos rest :
  starts_escape first rest = false ->
  match_here (escapes_re first) subject pos rest = None.
Proof.
  intros H. unfold match_here, start_state, escapes_re, Plus. fold body.
  cbn [ms]. rewrite ms_body_none by assumption. reflexivity.
Qed.

(** The scan at a run: one match, which covers the run. *)
Lemma scan_run pre xy xs tail :
  Forall good_pair (xy :: xs) ->
  starts_escape first tail = false ->
  exists m,
    group0 m = escape_run (xy :: xs) /\
    scan (escapes_re first) (pre ++ escape_run (xy :: xs) ++ tail)
         (length pre) (escape_run (xy :: xs) ++ tail) 0 =
    Found m ::
    scan (escapes_re first) ((pre ++ escape_run (xy :: xs)) ++ tail)
         (length (pre ++ escape_run (xy :: xs))) tail 0.
Proof.
  intros Hgood Htail. destruct xy as [x y].
  destruct (match_run (pre ++ escape_run ((x, y) :: xs) ++ tail) (length pre)
              (x, y) xs tail Hgood Htail) as [caps Hm].
  eexists. split.
  2:{ change (escape_run ((x, y) :: xs))
        with (PCT :: x :: y :: escape_run xs) in *.
      rewrite <- !app_comm_cons in *.
      rewrite (scan_found _ _ _ _ _ _ Hm) by (cbn [mt_end length]; lia).
      cbn [mt_end length].
      replace (length pre + 3 * S (length xs) - length pre - 1)%nat
        with (length (x :: y :: escape_run xs))
        by (cbn [length]; rewrite length_escape_run; lia).
      rewrite (app_comm_cons _ _ y), (app_comm_cons _ _ x).
      rewrite (scan_skip_all _ _ (x :: y :: escape_run xs)).
      rewrite <- (app_assoc pre), length_app.
      replace (S (length pre) + length (x :: y :: escape_run xs))%nat
        with (length pre + length (PCT :: x :: y :: escape_run xs))%nat
        by (cbn [length]; lia).
      rewrite <- !app_comm_cons. reflexivity. }
  unfold group0. cbn [mt_string mt_start mt_end].
  pose proof (slice_app pre (escape_run ((x, y) :: xs)) tail) as E.
  rewrite length_escape_run in E. exact E.
Qed.

Lemma scan_no_escape pre c rest :
  starts_escape first (c :: rest) = false ->
  scan (escapes_re first) (pre ++ c :: rest) (length pre) (c :: rest) 0 =
  Copy c :: scan (escapes_re first) ((pre ++ [c]) ++ rest)
                 (length (pre ++ [c])) rest 0.
Proof.
  intros H. rewrite (scan_copy _ _ _ _ _ (match_no_escape _ _ _ H)).
  rewrite <- snoc_assoc, length_snoc. reflexivity.
Qed.

Lemma pct_decode_copy c rest :
  starts_escape first (c :: rest) = false ->
  pct_decode first (c :: rest) = c :: pct_decode first rest.
Proof.
  intros H. cbn [pct_decode starts_escape] in *.
  destruct rest as [|x [|y rest]]; try reflexivity.
  rewrite H. reflexivity.
Qed.

Lemma pct_decode_run xs tail :
  Forall good_pair xs ->
  pct_decode first (escape_run xs ++ tail) =
  ords (escape_run xs) ++ pct_decode first tail.
Proof.
  induction 1 as [|[x y] xs [Hx Hy] _ IH]; [reflexivity|].
  cbn [fst snd] in Hx, Hy.
  unfold escape_run. cbn [flat_map fst snd app]. fold (escape_run xs).
  cbn [pct_decode ords]. rewrite Z.eqb_refl, Hx, Hy. cbn [andb app].
  rewrite IH. reflexivity.
Qed.

(** Every text starts with a (possibly empty) maximal run. *)
Lemma run_split (n : nat) : forall s : str,
  (length s <= n)%nat ->
  exists xs tail,
    s = escape_run xs ++ tail /\ Forall good_pair xs /\
    starts_escape first tail = false.
Proof.
  induction n as [|n IH]; intros s Hn.
  - destruct s; [|cbn [length] in Hn; lia].
    exists [], []. repeat split; constructor.
  - destruct (starts_escape first s) eqn:Hs.
    + destruct s as [|p [|x [|y s]]]; try discriminate Hs.
      cbn [starts_escape] in Hs. bool_to_prop. subst p.
      destruct (IH s) as [xs [tail [-> [Hgood Htail]]]].
      { cbn [length] in Hn. lia. }
      exists ((x, y) :: xs), tail. repeat split; [|assumption].
      constructor; [split; assumption|assumption].
    + exists [], s. repeat split; [constructor|assumption].
Qed.

Variable repl : rmatch -> result str.
Hypothesis repl_run : forall m xs,
  Forall good_pair xs -> group0 m = escape_run xs ->
  repl m = Ok (ords (escape_run xs)).

(** Substituting the runs decodes the escapes one by one. *)
Lemma join_escapes (n : nat) : forall s pre,
  (length s <= n)%nat ->
  join_pieces repl (scan (escapes_re first) (pre ++ s) (length pre) s 0) =
  Ok (pct_decode first s).
Proof.
  induction n as [|n IH]; intros s pre Hn.
  - destruct s; [reflexivity|cbn [length] in Hn; lia].
  - destruct (run_split (length s) s (le_n _))
      as [[|xy xs] [tail [-> [Hgood Htail]]]].
    + cbn [escape_run flat_map app] in *.
      destruct tail as [|c rest]; [reflexivity|].
      rewrite scan_no_escape, pct_decode_copy by assumption.
      cbn [join_pieces]. rewrite IH by (cbn [length] in Hn; lia).
      reflexivity.
    + destruct (scan_run pre xy xs tail Hgood Htail) as [m [Hm ->]].
      cbn [join_pieces].
      rewrite (repl_run m (xy :: xs) Hgood Hm).
      rewrite IH.
      * rewrite pct_decode_run by assumption. reflexivity.
      * rewrite length_app, length_escape_run in Hn. cbn [length] in Hn. lia.
Qed.

End Escapes.

(** ** Hexadecimal digits and octets *)

Ltac zbool :=
  repeat match goal with
  | |- context [?a <? ?b] => destruct (Z.ltb_spec a b)
  | |- context [?a <=? ?b] => destruct (Z.leb_spec a b)
  | |- context [?a =? ?b] => destruct (Z.eqb_spec a b)
  end;
  cbn [andb orb negb]; try reflexivity; try lia.

Lemma hex_value_digit n : 0 <= n < 16 -> hex_value (hex_digit n) = n.
Proof. intros H. unfold hex_value, hex_digit, is_digit, in_range. zbool. Qed.

Lemma is_hex_digit n : 0 <= n < 16 -> is_hex (hex_digit n) = true.
Proof. intros H. unfold is_hex, hex_digit, is_digit, in_range. zbool. Qed.

Lemma is_low_digit n : 0 <= n < 8 -> is_low (hex_digit n) = true.
Proof. intros H. unfold is_low, hex_digit, in_range. zbool. Qed.

Lemma is_low_digit_high n : 8 <= n < 16 -> is_low (hex_digit n) = false.
Proof. intros H. unfold is_low, hex_digit, in_range. zbool. Qed.

Lemma is_high_digit n : 8 <= n < 16 -> is_high (hex_digit n) = true.
Proof. intros H. unfold is_high, hex_digit, in_range. zbool. Qed.

Lemma hex_digit_ascii n : 0 <= n < 16 -> 0 <= hex_digit n < 0x80.
Proof. intros H. unfold hex_digit. zbool. Qed.

Lemma hex_digit_not_pct n : 0 <= n < 16 -> hex_digit n <> PCT.
Proof. intros H. unfold hex_digit, PCT. zbool. Qed.

Lemma is_high_is_hex c : is_high c = true -> is_hex c = true.
Proof. unfold is_high, is_hex, is_digit, in_range. zbool. Qed.

Lemma hex_value_low c : is_low c = true -> 0 <= hex_value c < 8.
Proof.
  unfold is_low, hex_value, is_digit, in_range. intros H. bool_to_prop.
  zbool.
Qed.

Lemma hex_value_hex c : is_hex c = true -> 0 <= hex_value c < 16.
Proof.
  unfold is_hex, hex_value, is_digit, in_range. intros H.
  repeat match type of H with
  | _ || _ = true => apply orb_true_iff in H; destruct H as [H|H]
  end; bool_to_prop; zbool.
Qed.

Lemma octet_split b :
  octet b -> 0 <= b / 16 < 16 /\ 0 <= b mod 16 < 16 /\ b / 16 * 16 + b mod 16 = b.
Proof. unfold octet. intros H. Z.div_mod_to_equations. lia. Qed.

Lemma starts_escape_not_pct first c rest :
  c <> PCT -> starts_escape first (c :: rest) = false.
Proof.
  intros H. cbn [starts_escape]. destruct rest as [|x [|y rest]]; try reflexivity.
  rewrite (proj2 (Z.eqb_neq _ _) H). reflexivity.
Qed.

(** An escaped octet whose first digit is in the class is decoded. *)
Lemma pct_decode_byte first b rest :
  octet b -> first (hex_digit (b / 16)) = true ->
  pct_decode first (percent_byte b ++ rest) = b :: pct_decode first rest.
Proof.
  intros Hb Hf. destruct (octet_split b Hb) as [Hq [Hr Hsum]].
  unfold percent_byte. cbn [app pct_decode].
  rewrite Z.eqb_refl, Hf, is_hex_digit by assumption. cbn [andb].
  rewrite !hex_value_digit by assumption. rewrite Hsum. reflexivity.
Qed.

(** One whose first digit is outside the class stays as it is. *)
Lemma pct_decode_keep_byte first b rest :
  octet b -> first (hex_digit (b / 16)) = false ->
  pct_decode first (percent_byte b ++ rest) =
  percent_byte b ++ pct_decode first rest.
Proof.
  intros Hb Hf. destruct (octet_split b Hb) as [Hq [Hr Hsum]].
  unfold percent_byte. cbn [app].
  rewrite (pct_decode_copy first PCT).
  2:{ cbn [starts_escape]. rewrite Hf, andb_false_r. reflexivity. }
  rewrite !pct_decode_copy
    by (apply starts_escape_not_pct, hex_digit_not_pct; assumption).
  reflexivity.
Qed.

Lemma utf8_char_bytes_octets c :
  scalar c -> Forall octet (utf8_char_bytes c).
Proof.
  intros [[Hlo Hhi] _]. unfold utf8_char_bytes, octet.
  destruct (Z.ltb_spec c 0x80); [repeat constructor; lia|].
  destruct (Z.ltb_spec c 0x800);
    [repeat constructor; Z.div_mod_to_equations; lia|].
  destruct (Z.ltb_spec c 0x10000);
    repeat constructor; Z.div_mod_to_equations; lia.
Qed.

Lemma utf8_char_bytes_high c :
  scalar c -> 0x80 <= c -> Forall (fun b => 0x80 <= b < 256) (utf8_char_bytes c).
Proof.
  intros [[Hlo Hhi] _] Hc. unfold utf8_char_bytes.
  rewrite (proj2 (Z.ltb_ge c 0x80)) by lia.
  destruct (Z.ltb_spec c 0x800);
    [repeat constructor; Z.div_mod_to_equations; lia|].
  destruct (Z.ltb_spec c 0x10000);
    repeat constructor; Z.div_mod_to_equations; lia.
Qed.

Lemma utf8_char_bytes_ascii c : c < 0x80 -> utf8_char_bytes c = [c].
Proof.
  intros H. unfold utf8_char_bytes. rewrite (proj2 (Z.ltb_lt _ _)) by lia.
  reflexivity.
Qed.

Lemma utf8_encode_ascii (s : str) :
  Forall ascii_char s -> utf8_encode s = Ok s.
Proof.
  induction 1 as [|c s Hc _ IH]; [reflexivity|].
  unfold ascii_char in Hc.
  cbn [utf8_encode]. unfold utf8_encode_char, is_surrogate.
  rewrite (proj2 (Z.leb_gt 0xD800 c)) by lia. cbn [andb].
  rewrite utf8_char_bytes_ascii, IH by lia. reflexivity.
Qed.

Lemma utf8_decode_ascii (bs : bytes) :
  Forall ascii_char bs -> utf8_decode bs = Ok bs.
Proof.
  induction 1 as [|b bs Hb _ IH]; [reflexivity|].
  unfold ascii_char in Hb.
  rewrite utf8_decode_cons, IH. rewrite (proj2 (Z.ltb_lt _ _)) by lia.
  unfold decoded. rewrite (proj2 (Z.leb_le _ _)) by lia. reflexivity.
Qed.

(** ** The two passes of [url_decode] *)

Lemma ords_low_ascii xs :
  Forall (good_escape is_low) xs -> Forall ascii_char (ords (escape_run xs)).
Proof.
  induction 1 as [|[x y] xs [Hx Hy] _ IH]; [constructor|].
  cbn [fst snd] in Hx, Hy.
  unfold escape_run. cbn [flat_map fst snd app ords]. fold (escape_run xs).
  constructor; [|exact IH].
  pose proof (hex_value_low x Hx). pose proof (hex_value_hex y Hy).
  unfold ascii_char. lia.
Qed.

Lemma decode_ascii_chars (url : str) :
  decode_ascii url = Ok (pct_decode is_low url).
Proof.
  unfold decode_ascii, re_sub_try, _url_decode_ascii_re.
  apply (join_escapes is_low _url_decode) with (n := length url) (pre := []);
    [|apply le_n].
  intros m xs Hgood Hm. unfold _url_decode. rewrite Hm.
  apply utf8_decode_ascii, ords_low_ascii, Hgood.
Qed.

Lemma sub_bytes_chars (raw : bytes) :
  re_sub _url_decode_unicode_bytes_re _url_decode_bytes raw =
  pct_decode is_high raw.
Proof.
  unfold re_sub, _url_decode_unicode_bytes_re.
  pose proof (join_escapes is_high (fun m => Ok (_url_decode_bytes m))) as H.
  specialize (H (fun m xs _ Hm => f_equal (fun g => Ok (ords g)) Hm)
                (length raw) raw [] (le_n _)).
  rewrite join_pieces_pure in H. cbn [app length] in H. congruence.
Qed.

(** [url_decode], with the scans replaced by their readings. *)
Lemma url_decode_chars (url : str) (mode : Z) :
  url_decode url mode =
  let url1 := if mode =? URL_ENCODE_READABLE
              then replace url (py "%20") (py " ")
              else pct_decode is_low url in
  bind (utf8_encode url1) (fun raw =>
  match utf8_decode (pct_decode is_high raw) with
  | Ok url' => Ok url'
  | Raise _ => Ok url1
  end).
Proof.
  unfold url_decode. rewrite decode_ascii_chars.
  destruct (mode =? URL_ENCODE_READABLE); cbn [bind];
    unfold decode_bytes;
    (destruct (utf8_encode _) as [raw|e]; [|reflexivity]);
    cbn [bind]; rewrite sub_bytes_chars; reflexivity.
Qed.

(** ** [url_encode], one character at a time *)

Lemma join_cls (p : char -> bool) (repl : rmatch -> result str)
  (f : char -> str) : forall rest pre,
  (forall m c, In c rest -> group0 m = [c] -> repl m = Ok (f c)) ->
  join_pieces repl (scan (Cls p) (pre ++ rest) (length pre) rest 0) =
  Ok (flat_map (fun c => if p c then f c else [c]) rest).
Proof.
  induction rest as [|c rest IH]; intros pre Hrepl; [reflexivity|].
  assert (Hrest : forall m c', In c' rest -> group0 m = [c'] -> repl m = Ok (f c'))
    by (intros m c' Hin; apply Hrepl; right; exact Hin).
  cbn [flat_map]. destruct (p c) eqn:Hp.
  - rewrite (scan_found _ _ _ _ _ (RMatch (pre ++ c :: rest) 0 (length pre)
                                      (S (length pre)) [])).
    + cbn [mt_end].
      replace (S (length pre) - length pre - 1)%nat with 0%nat by lia.
      cbn [join_pieces].
      rewrite (Hrepl _ c (or_introl eq_refl)) by apply slice_one.
      rewrite (snoc_assoc pre c rest), <- (length_snoc pre c), IH by assumption.
      reflexivity.
    + unfold match_here, start_state; cbn [ms m_rest]. rewrite Hp. reflexivity.
    + cbn [mt_end]. lia.
  - rewrite scan_copy.
    + cbn [join_pieces].
      rewrite (snoc_assoc pre c rest), <- (length_snoc pre c), IH by assumption.
      reflexivity.
    + unfold match_here, start_state; cbn [ms m_rest]. rewrite Hp. reflexivity.
Qed.

Lemma url_encode_match (m : rmatch) (c : char) :
  scalar c -> group0 m = [c] ->
  _url_encode m = Ok (flat_map percent_byte (utf8_char_bytes c)).
Proof.
  intros [_ Hc] Hm. unfold _url_encode. rewrite Hm.
  cbn [utf8_encode]. unfold utf8_encode_char. rewrite Hc. cbn [bind].
  rewrite app_nil_r. reflexivity.
Qed.

Lemma url_encode_data_chars (url : str) :
  Forall scalar url ->
  url_encode url URL_ENCODE_DATA = Ok (pct_encode unreserved url).
Proof.
  intros Hurl. unfold url_encode, re_sub_try, _url_encode_re. cbn [Z.eqb URL_ENCODE_DATA].
  pose proof (join_cls (fun c => negb (unreserved c)) _url_encode
                (fun c => flat_map percent_byte (utf8_char_bytes c)) url []) as H.
  cbn [app length] in H. rewrite H.
  - f_equal. unfold pct_encode. apply flat_map_ext. intros c.
    destruct (unreserved c); reflexivity.
  - intros m c Hin. apply url_encode_match.
    rewrite Forall_forall in Hurl. apply Hurl, Hin.
Qed.

(** ** Decoding what was encoded *)

Lemma unreserved_ascii c : unreserved c = true -> 0 <= c < 0x80 /\ c <> PCT.
Proof.
  unfold unreserved, is_upper, is_lower, is_digit, in_range, PCT. intros H.
  repeat match type of H with
  | _ || _ = true => apply orb_true_iff in H; destruct H as [H|H]
  end; bool_to_prop; lia.
Qed.

Lemma pct_decode_keep_bytes first bs rest :
  Forall (fun b => octet b /\ first (hex_digit (b / 16)) = false) bs ->
  pct_decode first (flat_map percent_byte bs ++ rest) =
  flat_map percent_byte bs ++ pct_decode first rest.
Proof.
  induction 1 as [|b bs [Hb Hf] _ IH]; [reflexivity|].
  cbn [flat_map]. rewrite <- !app_assoc.
  rewrite pct_decode_keep_byte, IH by assumption. reflexivity.
Qed.

Lemma pct_decode_bytes first bs rest :
  Forall (fun b => octet b /\ first (hex_digit (b / 16)) = true) bs ->
  pct_decode first (flat_map percent_byte bs ++ rest) =
  bs ++ pct_decode first rest.
Proof.
  induction 1 as [|b bs [Hb Hf] _ IH]; [reflexivity|].
  cbn [flat_map]. rewrite <- !app_assoc.
  rewrite pct_decode_byte, IH by assumption. reflexivity.
Qed.

Lemma high_octets c :
  scalar c -> 0x80 <= c ->
  Forall (fun b => octet b /\ 8 <= b / 16 < 16) (utf8_char_bytes c).
Proof.
  intros Hc Hhi. pose proof (utf8_char_bytes_high c Hc Hhi) as H.
  eapply Forall_impl; [|exact H]. cbv beta. intros b Hb. unfold octet.
  split; [lia|]. Z.div_mod_to_equations. lia.
Qed.

(** The first pass gives back the ASCII characters and leaves the escapes
    of the others. *)
Lemma decode_low_encoded (s : str) :
  Forall scalar s ->
  pct_decode is_low (pct_encode unreserved s) = pct_encode is_ascii s.
Proof.
  induction 1 as [|c s Hc _ IH]; [reflexivity|].
  unfold pct_encode in *. cbn [flat_map].
  destruct (unreserved c) eqn:Hu.
  - destruct (unreserved_ascii c Hu) as [Hr Hp].
    unfold is_ascii at 1. rewrite (proj2 (Z.ltb_lt _ _)) by lia.
    cbn [app]. rewrite pct_decode_copy by (apply starts_escape_not_pct, Hp).
    rewrite IH. reflexivity.
  - unfold is_ascii at 1. destruct (Z.ltb_spec c 0x80).
    + rewrite utf8_char_bytes_ascii by assumption. cbn [flat_map].
      rewrite app_nil_r. destruct Hc as [[Hlo _] _].
      rewrite pct_decode_byte, IH; [reflexivity|unfold octet; lia|].
      apply is_low_digit. Z.div_mod_to_equations. lia.
    + rewrite pct_decode_keep_bytes, IH; [reflexivity|].
      eapply Forall_impl; [|apply (high_octets c Hc); lia].
      cbv beta. intros b [Hb Hq]. split; [exact Hb|].
      apply is_low_digit_high, Hq.
Qed.

Lemma percent_byte_ascii b : octet b -> Forall ascii_char (percent_byte b).
Proof.
  intros Hb. destruct (octet_split b Hb) as [Hq [Hr _]].
  unfold percent_byte. repeat constructor; try (unfold ascii_char, PCT; lia);
    apply hex_digit_ascii; assumption.
Qed.

Lemma encoded_ascii (s : str) :
  Forall scalar s -> Forall ascii_char (pct_encode is_ascii s).
Proof.
  induction 1 as [|c s Hc _ IH]; [constructor|].
  unfold pct_encode in *. cbn [flat_map]. apply Forall_app. split; [|exact IH].
  unfold is_ascii. destruct (Z.ltb_spec c 0x80).
  - destruct Hc as [[Hlo _] _]. repeat constructor; unfold ascii_char; lia.
  - apply Forall_flat_map.
    eapply Forall_impl; [|apply (utf8_char_bytes_octets c Hc)].
    intros b. apply percent_byte_ascii.
Qed.

(** ** Text without escapes of high octets *)

Section Images.

(** [img] spells each character out, an ASCII character as itself. *)
Variable img : char -> str.
Hypothesis img_ascii : forall c, c < 0x80 -> img c = [c].
Hypothesis img_high : forall c rest,
  scalar c -> 0x80 <= c ->
  pct_decode is_high (img c ++ rest) =
  utf8_char_bytes c ++ pct_decode is_high rest.
Hypothesis img_head : forall c,
  scalar c -> 0x80 <= c -> exists h t, img c = h :: t /\ is_hex h = false.

Lemma no_escape_first c x rest :
  is_high x = false -> starts_escape is_high (c :: x :: rest) = false.
Proof.
  intros H. cbn [starts_escape]. destruct rest; [reflexivity|].
  rewrite H, andb_false_r. reflexivity.
Qed.

Lemma no_escape_second c x y rest :
  is_hex y = false -> starts_escape is_high (c :: x :: y :: rest) = false.
Proof. intros H. cbn [starts_escape]. rewrite H, andb_false_r. reflexivity. Qed.

Lemma not_hex_not_high h : is_hex h = false -> is_high h = false.
Proof.
  intros H. destruct (is_high h) eqn:E; [|reflexivity].
  apply is_high_is_hex in E. congruence.
Qed.

Lemma starts_escape_img c s :
  Forall scalar s ->
  starts_escape is_high (c :: s) = false ->
  starts_escape is_high (c :: flat_map img s) = false.
Proof.
  intros Hs H.
  destruct s as [|x s]; [reflexivity|].
  inversion Hs as [|? ? Hx Hs']; subst.
  cbn [flat_map]. destruct (Z.ltb_spec x 0x80).
  - rewrite img_ascii by assumption. cbn [app].
    destruct s as [|y s]; [reflexivity|].
    inversion Hs' as [|? ? Hy Hs'']; subst.
    cbn [flat_map]. destruct (Z.ltb_spec y 0x80).
    + rewrite img_ascii by assumption. exact H.
    + destruct (img_head y Hy) as [h [t [-> Hh]]]; [assumption|].
      cbn [app]. apply no_escape_second, Hh.
  - destruct (img_head x Hx) as [h [t [-> Hh]]]; [assumption|].
    cbn [app]. apply no_escape_first, not_hex_not_high, Hh.
Qed.

Lemma pct_decode_img (s : str) :
  Forall scalar s ->
  has_escape is_high s = false ->
  pct_decode is_high (flat_map img s) = flat_map utf8_char_bytes s.
Proof.
  induction 1 as [|c s Hc Hs IH]; intros Hesc; [reflexivity|].
  cbn [has_escape] in Hesc. apply orb_false_iff in Hesc.
  destruct Hesc as [Hhere Hesc].
  cbn [flat_map]. destruct (Z.ltb_spec c 0x80).
  - rewrite img_ascii, utf8_char_bytes_ascii by assumption. cbn [app].
    rewrite pct_decode_copy by (apply starts_escape_img; assumption).
    rewrite IH by assumption. reflexivity.
  - rewrite img_high, IH by assumption. reflexivity.
Qed.

End Images.

Lemma pct_decode_copy_all first bs rest :
  Forall (fun b => b <> PCT) bs ->
  pct_decode first (bs ++ rest) = bs ++ pct_decode first rest.
Proof.
  induction 1 as [|b bs Hb _ IH]; [reflexivity|].
  cbn [app]. rewrite pct_decode_copy by (apply starts_escape_not_pct, Hb).
  rewrite IH. reflexivity.
Qed.

Lemma high_not_hex b : 0x80 <= b -> is_hex b = false.
Proof. intros H. unfold is_hex, is_digit, in_range. zbool. Qed.

(** The escapes of the high octets of an encoded text are the UTF-8 form
    of the text, as long as the text itself spells no such escape. *)
Lemma decode_high_encoded (s : str) :
  Forall scalar s ->
  has_escape is_high s = false ->
  pct_decode is_high (pct_encode is_ascii s) = flat_map utf8_char_bytes s.
Proof.
  unfold pct_encode. apply pct_decode_img.
  - intros c Hc. unfold is_ascii. rewrite (proj2 (Z.ltb_lt _ _) Hc). reflexivity.
  - intros c rest Hc Hhi. unfold is_ascii.
    rewrite (proj2 (Z.ltb_ge _ _) Hhi).
    apply pct_decode_bytes.
    eapply Forall_impl; [|apply (high_octets c Hc Hhi)].
    cbv beta. intros b [Hb Hq]. split; [exact Hb|]. apply is_high_digit, Hq.
  - intros c Hc Hhi. unfold is_ascii. rewrite (proj2 (Z.ltb_ge _ _) Hhi).
    pose proof (utf8_char_bytes_high c Hc Hhi) as H.
    destruct (utf8_char_bytes c) as [|b bs] eqn:E;
      [|cbn [flat_map percent_byte app]; eauto].
    unfold utf8_char_bytes in E.
    destruct (c <? 0x80), (c <? 0x800), (c <? 0x10000); discriminate.
Qed.

(** A text that spells no escape of a high octet keeps its UTF-8 form. *)
Lemma decode_high_plain (s : str) :
  Forall scalar s ->
  has_escape is_high s = false ->
  pct_decode is_high (flat_map utf8_char_bytes s) = flat_map utf8_char_bytes s.
Proof.
  apply pct_decode_img.
  - apply utf8_char_bytes_ascii.
  - intros c rest Hc Hhi. apply pct_decode_copy_all.
    eapply Forall_impl; [|apply (utf8_char_bytes_high c Hc Hhi)].
    cbv beta. unfold PCT. intros b Hb. lia.
  - intros c Hc Hhi.
    pose proof (utf8_char_bytes_high c Hc Hhi) as H.
    destruct (utf8_char_bytes c) as [|b bs] eqn:E.
    + unfold utf8_char_bytes in E.
      destruct (c <? 0x80), (c <? 0x800), (c <? 0x10000); discriminate.
    + inversion H; subst. exists b, bs. split; [reflexivity|].
      apply high_not_hex. lia.
Qed.

(** C1 (as amended).  For every string of Unicode scalar values in which
    no percent sign is followed by two hexadecimal digits the first of
    which is one of [89a-fA-F], percent-decoding the DATA-mode encoding
    of the string in DATA mode gives the string back. *)
Theorem url_decode_encode_data (s : str) :
  Forall scalar s ->
  has_escape is_high s = false ->
  bind (url_encode s URL_ENCODE_DATA)
       (fun e => url_decode e URL_ENCODE_DATA) = Ok s.
Proof.
  intros Hs Hesc.
  rewrite url_encode_data_chars by assumption. cbn [bind].
  rewrite url_decode_chars.
  change (URL_ENCODE_DATA =? URL_ENCODE_READABLE) with false. cbv beta iota zeta.
  rewrite decode_low_encoded by assumption.
  rewrite utf8_encode_ascii by (apply encoded_ascii, Hs). cbn [bind].
  rewrite decode_high_encoded by assumption.
  rewrite utf8_decode_bytes_of by assumption. reflexivity.
Qed.

Ltac all_scalar :=
  repeat constructor; (vm_compute; intuition discriminate).

Lemma url_decode_encode_data_witness :
  bind (url_encode (py "50%/a b%41%zz%" ++ [233; 8364]) URL_ENCODE_DATA)
       (fun e => url_decode e URL_ENCODE_DATA) =
  Ok (py "50%/a b%41%zz%" ++ [233; 8364]).
Proof.
  apply url_decode_encode_data; [all_scalar|vm_compute; reflexivity].
Defined.

(** C1 as stated fails: a text that spells the escapes of a UTF-8
    sequence comes back as the character of that sequence. *)
Lemma url_decode_encode_data_escaped_text :
  ~ (forall s : str,
        bind (url_encode s URL_ENCODE_DATA)
             (fun e => url_decode e URL_ENCODE_DATA) = Ok s).
Proof.
  intros H. specialize (H (py "%C3%A9")).
  assert (E : bind (url_encode (py "%C3%A9") URL_ENCODE_DATA)
                   (fun e => url_decode e URL_ENCODE_DATA) = Ok [233])
    by (vm_compute; reflexivity).
  rewrite E in H. vm_compute in H. discriminate H.
Qed.

(** ** [url_decode] in the READABLE mode *)

Lemma replace_from_skip old new : forall s k,
  replace_from old new s k = replace_from old new (skipn k s) 0.
Proof.
  induction s as [|c s IH]; intros k.
  - destruct k; reflexivity.
  - destruct k as [|k]; [reflexivity|].
    cbn [replace_from skipn]. apply IH.
Qed.

(** One step of [url.replace('%20', ' ')]. *)
Lemma replace_pct20_cons c s :
  replace (c :: s) (py "%20") (py " ") =
  if startswith (c :: s) (py "%20")
  then SPC :: replace (skipn 2 s) (py "%20") (py " ")
  else c :: replace s (py "%20") (py " ").
Proof.
  unfold replace. cbn [replace_from].
  destruct (startswith (c :: s) (py "%20")); [|reflexivity].
  rewrite replace_from_skip. reflexivity.
Qed.

Lemma startswith_pct20 s :
  startswith s (py "%20") = true -> exists t, s = py "%20" ++ t.
Proof.
  change (py "%20") with [37; 50; 48].
  destruct s as [|a [|b [|c t]]]; cbn [startswith]; intros H;
    try discriminate H;
    repeat match type of H with
    | context [?u =? ?v] => destruct (Z.eqb_spec u v)
    end; cbn [andb] in H; try discriminate H.
  subst. exists t. reflexivity.
Qed.

Lemma has_escape_tail first c s :
  has_escape first (c :: s) = false -> has_escape first s = false.
Proof. cbn [has_escape]. intros H. apply orb_false_iff in H. apply H. Qed.

Lemma has_escape_skipn first k : forall s,
  has_escape first s = false -> has_escape first (skipn k s) = false.
Proof.
  induction k as [|k IH]; intros s H; [exact H|].
  destruct s as [|c s]; [reflexivity|].
  cbn [skipn]. apply IH, (has_escape_tail first c s H).
Qed.

Lemma replace_head s :
  exists t,
    replace s (py "%20") (py " ") = t /\
    (s = [] /\ t = [] \/
     (exists s', s = py "%20" ++ s' /\
                 t = SPC :: replace s' (py "%20") (py " ")) \/
     (exists c s', s = c :: s' /\ startswith s (py "%20") = false /\
                   t = c :: replace s' (py "%20") (py " "))).
Proof.
  eexists. split; [reflexivity|].
  destruct s as [|c s]; [left; split; reflexivity|].
  rewrite replace_pct20_cons.
  destruct (startswith (c :: s) (py "%20")) eqn:E.
  - right; left. destruct (startswith_pct20 _ E) as [t Ht].
    exists t. split; [exact Ht|].
    change (py "%20" ++ t) with (37 :: 50 :: 48 :: t) in Ht.
    assert (s = 50 :: 48 :: t) as -> by congruence.
    reflexivity.
  - right; right. exists c, s. repeat split.
Qed.

(** An escape at the head of the replaced text was at the head before. *)
Lemma starts_escape_replace c s :
  starts_escape is_high (c :: s) = false ->
  starts_escape is_high (c :: replace s (py "%20") (py " ")) = false.
Proof.
  intros H.
  destruct (replace_head s) as [t [-> [[-> ->]|[[s' [-> ->]]|[x [s' [-> [_ ->]]]]]]]].
  - reflexivity.
  - apply no_escape_first. reflexivity.
  - destruct (replace_head s') as [t [-> [[-> ->]|[[s'' [-> ->]]|[y [s'' [-> [_ ->]]]]]]]].
    + reflexivity.
    + apply no_escape_second. reflexivity.
    + exact H.
Qed.

Lemma replace_keeps (n : nat) : forall s,
  (length s <= n)%nat ->
  Forall scalar s -> has_escape is_high s = false ->
  Forall scalar (replace s (py "%20") (py " ")) /\
  has_escape is_high (replace s (py "%20") (py " ")) = false.
Proof.
  induction n as [|n IH]; intros s Hn Hs Hesc.
  - destruct s; [split; [constructor|reflexivity]|cbn [length] in Hn; lia].
  - destruct (replace_head s) as [t [-> [[-> ->]|[[s' [-> ->]]|[x [s' [-> [_ ->]]]]]]]].
    + split; [constructor|reflexivity].
    + destruct (IH s') as [IH1 IH2].
      * cbn [py app length] in Hn. lia.
      * cbn [py app] in Hs.
        inversion Hs as [|? ? _ Hs1]; subst.
        inversion Hs1 as [|? ? _ Hs2]; subst.
        inversion Hs2; subst. assumption.
      * apply (has_escape_skipn is_high 3 _ Hesc).
      * split.
        -- constructor; [|exact IH1].
           unfold scalar, SPC, is_surrogate. split; [lia|reflexivity].
        -- cbn [has_escape]. rewrite IH2, orb_false_r.
           apply starts_escape_not_pct. discriminate.
    + inversion Hs as [|? ? Hx Hs']; subst.
      pose proof Hesc as Hesc'. cbn [has_escape] in Hesc'.
      apply orb_false_iff in Hesc'. destruct Hesc' as [Hhere Hrest].
      destruct (IH s') as [IH1 IH2]; try assumption.
      * cbn [length] in Hn. lia.
      * split; [constructor; assumption|].
        cbn [has_escape]. rewrite IH2, orb_false_r.
        apply starts_escape_replace, Hhere.
Qed.




(** ** [url_decode] on escapes that are not UTF-8 *)

Lemma pct_decode_scalar (n : nat) : forall s,
  (length s <= n)%nat ->
  Forall scalar s -> Forall scalar (pct_decode is_low s).
Proof.
  induction n as [|n IH]; intros s Hn Hs.
  - destruct s; [constructor|cbn [length] in Hn; lia].
  - destruct s as [|c s]; [constructor|].
    inversion Hs as [|? ? Hc Hs']; subst. cbn [length] in Hn.
    destruct (starts_escape is_low (c :: s)) eqn:E.
    + destruct s as [|x [|y s]]; try discriminate E.
      cbn [starts_escape] in E. cbn [pct_decode]. rewrite E.
      bool_to_prop.
      pose proof (hex_value_low x ltac:(assumption)).
      pose proof (hex_value_hex y ltac:(assumption)).
      constructor.
      * unfold scalar, is_surrogate. split; [lia|].
        rewrite (proj2 (Z.leb_gt 0xD800 _)) by lia. reflexivity.
      * apply IH; [cbn [length] in Hn; lia|].
        inversion Hs' as [|? ? _ Hs'']; subst. inversion Hs''; subst. assumption.
    + rewrite pct_decode_copy by assumption.
      constructor; [assumption|]. apply IH; [lia|assumption].
Qed.

(** C5 (as amended).  In the modes other than READABLE [url_decode] of a
    string of Unicode scalar values never raises.  When the byte form of
    the text, in which every escape of a high octet is replaced by that
    octet, is not valid UTF-8, the result is the output of the first
    pass: the escapes of ASCII octets are decoded and every escape of a
    high octet stays as it is, the runs that are valid UTF-8 on their own
    included. *)
Theorem url_decode_not_utf8 (url : str) (mode : Z) :
  mode <> URL_ENCODE_READABLE ->
  Forall scalar url ->
  (exists url1 data,
     decode_ascii url = Ok url1 /\
     decode_bytes url1 = Ok data /\
     (exists out, url_decode url mode = Ok out) /\
     (forall e, utf8_decode data = Raise e -> url_decode url mode = Ok url1)) /\
  url_decode (py "%41%C3%A9 %FF") URL_ENCODE_DATA = Ok (py "A%C3%A9 %FF").
Proof.
  intros Hmode Hurl. split; [|vm_compute; reflexivity].
  pose proof (pct_decode_scalar (length url) url (le_n _) Hurl) as H1.
  exists (pct_decode is_low url),
         (pct_decode is_high (flat_map utf8_char_bytes (pct_decode is_low url))).
  split; [apply decode_ascii_chars|].
  split.
  { unfold decode_bytes. rewrite utf8_encode_scalar by assumption.
    cbn [bind]. rewrite sub_bytes_chars. reflexivity. }
  rewrite url_decode_chars.
  rewrite (proj2 (Z.eqb_neq _ _) Hmode). cbv beta iota zeta.
  rewrite utf8_encode_scalar by assumption. cbn [bind].
  split.
  - destruct (utf8_decode _); eauto.
  - intros e He. rewrite He. reflexivity.
Qed.

Lemma url_decode_not_utf8_witness :
  exists url1 data,
    decode_ascii (py "%41%C3%A9 %FF") = Ok url1 /\
    decode_bytes url1 = Ok data /\
    (exists out, url_decode (py "%41%C3%A9 %FF") URL_ENCODE_PATH = Ok out) /\
    (forall e, utf8_decode data = Raise e ->
               url_decode (py "%41%C3%A9 %FF") URL_ENCODE_PATH = Ok url1).
Proof.
  apply (url_decode_not_utf8 (py "%41%C3%A9 %FF") URL_ENCODE_PATH);
    [vm_compute; discriminate|all_scalar].
Defined.

(** C5 as stated fails: recovery is not local.  A run that decodes when
    it stands alone stays escaped next to a run that is not UTF-8. *)
Lemma url_decode_recovery_not_local :
  ~ (forall good bad decoded : str,
        url_decode good URL_ENCODE_DATA = Ok decoded ->
        url_decode bad URL_ENCODE_DATA = Ok bad ->
        url_decode (good ++ SPC :: bad) URL_ENCODE_DATA =
        Ok (decoded ++ SPC :: bad)).
Proof.
  intros H.
  specialize (H (py "%C3%A9") (py "%FF") [233]).
  assert (E : url_decode (py "%C3%A9" ++ SPC :: py "%FF") URL_ENCODE_DATA =
              Ok (py "%C3%A9 %FF")) by (vm_compute; reflexivity).
  rewrite E in H.
  assert (D : Ok (py "%C3%A9 %FF") = Ok ([233] ++ SPC :: py "%FF") -> False)
    by (vm_compute; discriminate).
  apply D, H; vm_compute; reflexivity.
Qed.

(** ** The matcher only moves forward *)

Lemma extends_refl st : extends st st.
Proof. exists []. split; [reflexivity|cbn [length]; lia]. Qed.

Lemma extends_trans st1 st2 st3 :
  extends st1 st2 -> extends st2 st3 -> extends st1 st3.
Proof.
  intros [a [Ha Hpa]] [b [Hb Hpb]]. exists (a ++ b). split.
  - rewrite Ha, Hb, app_assoc. reflexivity.
  - rewrite Hpb, Hpa, length_app. lia.
Qed.

Lemma star_iter_extends (f : mstate -> list mstate) :
  (forall st st', In st' (f st) -> extends st st') ->
  forall n st st', In st' (star_iter f n st) -> extends st st'.
Proof.
  intros Hf. induction n as [|n IH]; intros st st' Hin.
  - cbn [star_iter In] in Hin. destruct Hin as [<-|[]]. apply extends_refl.
  - cbn [star_iter] in Hin. apply in_app_or in Hin.
    destruct Hin as [Hin|[<-|[]]]; [|apply extends_refl].
    apply in_flat_map in Hin. destruct Hin as [st1 [H1 Hin]].
    destruct (Nat.ltb (m_pos st) (m_pos st1)); [|destruct Hin].
    eapply extends_trans; [apply Hf, H1|apply IH, Hin].
Qed.

Lemma ms_extends (r : regex) :
  forall st st', In st' (ms r st) -> extends st st'.
Proof.
  induction r as [|c|p|r1 IH1 r2 IH2|r1 IH1 r2 IH2|r IH|i r IH| |];
    intros st st' Hin; cbn [ms] in Hin.
  - destruct Hin as [<-|[]]. apply extends_refl.
  - destruct (m_rest st) as [|x rest] eqn:E; [destruct Hin|].
    destruct (x =? c); [|destruct Hin]. destruct Hin as [<-|[]].
    exists [x]. cbn [advance m_rest m_pos app length]. split; [exact E|lia].
  - destruct (m_rest st) as [|x rest] eqn:E; [destruct Hin|].
    destruct (p x); [|destruct Hin]. destruct Hin as [<-|[]].
    exists [x]. cbn [advance m_rest m_pos app length]. split; [exact E|lia].
  - apply in_flat_map in Hin. destruct Hin as [st1 [H1 H2]].
    eapply extends_trans; [apply IH1, H1|apply IH2, H2].
  - apply in_app_or in Hin. destruct Hin as [Hin|Hin]; auto.
  - eapply star_iter_extends; [exact IH|exact Hin].
  - apply in_map_iff in Hin. destruct Hin as [st1 [<- H1]].
    destruct (IH st st1 H1) as [a [Ha Hp]]. exists a. split; assumption.
  - destruct (Nat.eqb (m_pos st) 0); [|destruct Hin].
    destruct Hin as [<-|[]]. apply extends_refl.
  - destruct (m_rest st) as [|x [|y rest]].
    + destruct Hin as [<-|[]]. apply extends_refl.
    + destruct (x =? LF); [|destruct Hin]. destruct Hin as [<-|[]].
      apply extends_refl.
    + destruct Hin.
Qed.

Lemma flat_map_same {A B} (f g : A -> list B) (l : list A) :
  (forall a, In a l -> f a = g a) -> flat_map f l = flat_map g l.
Proof.
  induction l as [|a l IH]; intros H; [reflexivity|].
  cbn [flat_map]. rewrite (H a (or_introl eq_refl)), IH; [reflexivity|].
  intros b Hb. apply H. right. exact Hb.
Qed.

Lemma flat_map_none {A B} (l : list A) :
  flat_map (fun _ : A => @nil B) l = [].
Proof. induction l as [|a l IH]; [reflexivity|exact IH]. Qed.

(** The bound on the rounds of [star_iter] is never what ends a loop:
    with the length of the text ahead or with any larger bound the result
    is the same. *)
Lemma star_iter_bound (f : mstate -> list mstate) :
  (forall st st', In st' (f st) -> extends st st') ->
  forall n st,
    (length (m_rest st) <= n)%nat ->
    star_iter f (S n) st = star_iter f n st.
Proof.
  intros Hf. induction n as [|n IH]; intros st Hn.
  - cbn [star_iter].
    transitivity (flat_map (fun _ => @nil mstate) (f st) ++ [st]);
      [|rewrite flat_map_none; reflexivity].
    f_equal. apply flat_map_same.
    intros st' Hin. apply Hf in Hin. destruct Hin as [a [Ha Hp]].
    assert (length (m_rest st) = 0)%nat as Hz by lia.
    rewrite Ha, length_app in Hz.
    rewrite (proj2 (Nat.ltb_ge _ _)) by lia. reflexivity.
  - change (star_iter f (S (S n)) st)
      with (flat_map (fun st' => if Nat.ltb (m_pos st) (m_pos st')
                                 then star_iter f (S n) st' else [])
                     (f st) ++ [st]).
    change (star_iter f (S n) st)
      with (flat_map (fun st' => if Nat.ltb (m_pos st) (m_pos st')
                                 then star_iter f n st' else [])
                     (f st) ++ [st]).
    f_equal. apply flat_map_same. intros st' Hin.
    destruct (Nat.ltb_spec (m_pos st) (m_pos st')); [|reflexivity].
    apply IH. apply Hf in Hin. destruct Hin as [a [Ha Hp]].
    rewrite Ha, length_app in Hn. lia.
Qed.

Lemma extends_span st st' :
  extends st st' ->
  (m_pos st <= m_pos st' <= m_pos st + length (m_rest st))%nat.
Proof.
  intros [a [Ha Hp]]. rewrite Ha, Hp, length_app. lia.
Qed.

(** What [match_here] reports is a match of the subject within the text
    ahead. *)
Lemma match_here_span r subject pos rest m :
  match_here r subject pos rest = Some m ->
  mt_string m = subject /\ mt_groups m = ngroups r /\ mt_start m = pos /\
  (pos <= mt_end m <= pos + length rest)%nat.
Proof.
  unfold match_here. destruct (ms r (start_state pos rest)) as [|st l] eqn:E;
    [discriminate|].
  intros H. injection H as <-.
  assert (Hin : In st (ms r (start_state pos rest))) by (rewrite E; left; reflexivity).
  apply ms_extends, extends_span in Hin. cbn [start_state m_pos m_rest] in Hin.
  unfold mk_match. cbn [mt_string mt_groups mt_start mt_end]. auto.
Qed.

Lemma match_here_advancing_span r subject pos rest m :
  match_here_advancing r subject pos rest = Some m ->
  mt_string m = subject /\ mt_groups m = ngroups r /\ mt_start m = pos /\
  (pos < mt_end m <= pos + length rest)%nat.
Proof.
  unfold match_here_advancing.
  destruct (filter _ (ms r (start_state pos rest))) as [|st l] eqn:E;
    [discriminate|].
  intros H. injection H as <-.
  assert (Hin : In st (filter (fun st => Nat.ltb pos (m_pos st))
                         (ms r (start_state pos rest))))
    by (rewrite E; left; reflexivity).
  apply filter_In in Hin. destruct Hin as [Hin Hlt].
  apply Nat.ltb_lt in Hlt.
  apply ms_extends, extends_span in Hin. cbn [start_state m_pos m_rest] in Hin.
  unfold mk_match. cbn [mt_string mt_groups mt_start mt_end].
  repeat split; try reflexivity; lia.
Qed.

Lemma search_from_span r subject : forall rest pos m,
  search_from r subject pos rest = Some m ->
  mt_string m = subject /\ mt_groups m = ngroups r /\
  (pos <= mt_start m <= mt_end m)%nat /\
  (mt_end m <= pos + length rest)%nat.
Proof.
  induction rest as [|c rest IH]; intros pos m H; cbn [search_from] in H.
  - destruct (match_here r subject pos []) eqn:E; [|discriminate].
    injection H as ->. apply match_here_span in E.
    destruct E as [H1 [H2 [H3 H4]]]. repeat split; try assumption; lia.
  - destruct (match_here r subject pos (c :: rest)) eqn:E.
    + injection H as ->. apply match_here_span in E.
      destruct E as [H1 [H2 [H3 H4]]]. repeat split; try assumption; lia.
    + apply IH in H. cbn [length]. destruct H as [H1 [H2 [H3 H4]]].
      repeat split; try assumption; lia.
Qed.

Lemma chain_weaken subject lo lo' ms hi :
  (lo' <= lo)%nat -> chain subject lo ms hi -> chain subject lo' ms hi.
Proof.
  destruct ms as [|m ms]; cbn [chain]; [lia|].
  intros Hlo [Hs [H1 [H2 H3]]]. repeat split; try assumption. lia.
Qed.

(** The matches of a scan follow one another. *)
Lemma scan_chain r subject : forall rest pos skip,
  (skip <= length rest)%nat ->
  chain subject (pos + skip) (matches_of (scan r subject pos rest skip))
        (pos + length rest).
Proof.
  induction rest as [|c rest IH]; intros pos skip Hskip.
  - cbn [length] in Hskip. assert (skip = 0%nat) as -> by lia.
    cbn [scan length]. rewrite !Nat.add_0_r.
    destruct (match_here r subject pos []) as [m|] eqn:Em; [|cbn; lia].
    destruct (match_here_span _ _ _ _ _ Em) as [Hs [_ [Hst Hend]]].
    cbn [length] in Hend.
    rewrite (proj2 (Nat.ltb_ge pos (mt_end m))) by lia.
    destruct (match_here_advancing r subject pos []) as [m'|] eqn:Em'.
    { destruct (match_here_advancing_span _ _ _ _ _ Em') as [_ [_ [_ H]]].
      cbn [length] in H. lia. }
    cbn [matches_of flat_map app chain]. repeat split; try assumption; lia.
  - destruct skip as [|k].
    + rewrite Nat.add_0_r. cbn [scan].
      destruct (match_here r subject pos (c :: rest)) as [m|] eqn:Em.
      * destruct (match_here_span _ _ _ _ _ Em) as [Hs [_ [Hst Hend]]].
        cbn [length] in Hend.
        destruct (Nat.ltb_spec pos (mt_end m)).
        -- cbn [matches_of flat_map app chain].
           repeat split; try assumption; try lia.
           specialize (IH (S pos) (mt_end m - pos - 1)%nat ltac:(lia)).
           replace (S pos + (mt_end m - pos - 1))%nat with (mt_end m) in IH by lia.
           cbn [length].
           replace (pos + S (length rest))%nat with (S pos + length rest)%nat by lia.
           exact IH.
        -- destruct (match_here_advancing r subject pos (c :: rest))
             as [m'|] eqn:Em'.
           ++ destruct (match_here_advancing_span _ _ _ _ _ Em')
                as [Hs' [_ [Hst' Hend']]].
              cbn [length] in Hend'.
              cbn [matches_of flat_map app chain].
              repeat split; try assumption; try lia.
              specialize (IH (S pos) (mt_end m' - pos - 1)%nat ltac:(lia)).
              replace (S pos + (mt_end m' - pos - 1))%nat
                with (mt_end m') in IH by lia.
              cbn [length].
              replace (pos + S (length rest))%nat
                with (S pos + length rest)%nat by lia.
              exact IH.
           ++ cbn [matches_of flat_map app chain].
              repeat split; try assumption; try lia.
              specialize (IH (S pos) 0%nat ltac:(lia)).
              cbn [length].
              replace (pos + S (length rest))%nat
                with (S pos + length rest)%nat by lia.
              eapply chain_weaken; [|exact IH]. lia.
      * cbn [matches_of flat_map app].
        specialize (IH (S pos) 0%nat ltac:(lia)).
        cbn [length].
        replace (pos + S (length rest))%nat
          with (S pos + length rest)%nat by lia.
        eapply chain_weaken; [|exact IH]. lia.
    + cbn [scan length]. cbn [length] in Hskip.
      specialize (IH (S pos) k ltac:(lia)).
      replace (pos + S k)%nat with (S pos + k)%nat by lia.
      replace (pos + S (length rest))%nat with (S pos + length rest)%nat by lia.
      exact IH.
Qed.

Lemma finditer_chain r subject :
  chain subject 0 (finditer r subject) (length subject).
Proof. apply (scan_chain r subject subject 0 0). lia. Qed.

(** ** [Re.sublist] *)

Lemma firstn_plus {A} (a b : nat) : forall l : list A,
  firstn (a + b) l = firstn a l ++ firstn b (skipn a l).
Proof.
  induction a as [|a IH]; intros l; [reflexivity|].
  destruct l as [|x l]; [cbn [skipn]; rewrite !firstn_nil; reflexivity|].
  cbn [Nat.add firstn skipn app]. rewrite IH. reflexivity.
Qed.

Lemma slice_join (s : str) (a b c : nat) :
  (a <= b <= c)%nat -> slice s a b ++ slice s b c = slice s a c.
Proof.
  intros H. unfold slice.
  replace (c - a)%nat with ((b - a) + (c - b))%nat by lia.
  rewrite firstn_plus, skipn_skipn.
  replace (b - a + a)%nat with b by lia. reflexivity.
Qed.

Lemma slice_empty (s : str) (a : nat) : slice s a a = [].
Proof. unfold slice. rewrite Nat.sub_diag. reflexivity. Qed.

Lemma slice_length (s : str) (a b : nat) :
  (b <= length s)%nat -> length (slice s a b) = (b - a)%nat.
Proof.
  intros H. unfold slice. rewrite length_firstn, length_skipn. lia.
Qed.

Lemma slice_nonempty (s : str) (a b : nat) :
  (a < b <= length s)%nat -> slice s a b <> [].
Proof.
  intros H E. apply (f_equal (@length _)) in E.
  rewrite slice_length in E by lia. cbn [length] in E. lia.
Qed.

Lemma slice_all (s : str) : slice s 0 (length s) = s.
Proof. unfold slice. rewrite Nat.sub_0_r. cbn [skipn]. apply firstn_all. Qed.

Lemma chain_bounds subject lo ms hi :
  chain subject lo ms hi -> (lo <= hi)%nat.
Proof.
  revert lo. induction ms as [|m ms IH]; intros lo; cbn [chain]; [auto|].
  intros [_ [H1 [H2 H3]]]. apply IH in H3. lia.
Qed.

Section SublistProperties.

Variable T : Type.
Variable repl : Re -> entry T * Re.

(** The loop over the matches of one string emits the text from [pos]
    on, cut at the matches. *)
Lemma sublist_matches_block (item : str) : forall matches self pos result,
  chain item pos matches (length item) ->
  exists block,
    fst (sublist_matches repl self item pos matches result) =
      result ++ map forget block /\
    concat (map text_of block) = slice item pos (length item) /\
    Forall (from_string repl) block.
Proof.
  induction matches as [|m matches IH]; intros self pos result Hchain.
  - cbn [chain] in Hchain. cbn [sublist_matches fst].
    destruct (Nat.ltb_spec pos (length item)).
    + exists [Fragment (slice item pos (length item))]. repeat split.
      * cbn [map concat text_of]. apply app_nil_r.
      * repeat constructor. cbn [from_string]. apply slice_nonempty. lia.
    + exists []. repeat split.
      * rewrite app_nil_r. reflexivity.
      * assert (pos = length item) as -> by lia.
        rewrite slice_empty. reflexivity.
      * constructor.
  - cbn [chain] in Hchain. destruct Hchain as [Hs [H1 [H2 Hchain]]].
    pose proof (chain_bounds _ _ _ _ Hchain) as Hend.
    cbn [sublist_matches].
    destruct (repl (MkRe (re_r self) (re_p self) (Some m))) as [x self'] eqn:Ex.
    destruct (IH self' (mt_end m)
                ((if Nat.ltb pos (mt_start m)
                  then result ++ [Str (slice item pos (mt_start m))]
                  else result) ++ [x]) Hchain)
      as [block [Hout [Htext Hok]]].
    assert (Hx : from_string repl (Replaced m x)).
    { cbn [from_string]. exists (MkRe (re_r self) (re_p self) (Some m)).
      split; [reflexivity|]. rewrite Ex. reflexivity. }
    assert (Hg : group0 m = slice item (mt_start m) (mt_end m)).
    { unfold group0. rewrite Hs. reflexivity. }
    destruct (Nat.ltb_spec pos (mt_start m)).
    + exists (Fragment (slice item pos (mt_start m)) :: Replaced m x :: block).
      repeat split.
      * rewrite Hout. cbn [map forget]. rewrite <- !app_assoc. reflexivity.
      * cbn [map concat text_of]. rewrite Htext, Hg.
        rewrite (slice_join item (mt_start m)) by lia.
        apply slice_join. lia.
      * constructor; [|constructor; assumption].
        cbn [from_string]. apply slice_nonempty. lia.
    + exists (Replaced m x :: block). repeat split.
      * rewrite Hout. cbn [map forget]. rewrite <- !app_assoc. reflexivity.
      * cbn [map concat text_of]. rewrite Htext, Hg.
        assert (pos = mt_start m) as -> by lia.
        apply slice_join. lia.
      * constructor; assumption.
Qed.

Lemma sublist_items_blocks : forall items self result,
  exists blocks,
    fst (sublist_items repl self items result) =
      result ++ map forget (concat blocks) /\
    Forall2 (block_of repl) items blocks.
Proof.
  induction items as [|[s|o] items IH]; intros self result.
  - exists []. split; [cbn; rewrite app_nil_r; reflexivity|constructor].
  - cbn [sublist_items].
    destruct (sublist_matches_block s (finditer (re_p self) s) self 0 result
                (finditer_chain _ _)) as [block [Hout [Htext Hok]]].
    destruct (sublist_matches repl self s 0 (finditer (re_p self) s) result)
      as [result' self'].
    cbn [fst] in Hout. subst result'.
    destruct (IH self' (result ++ map forget block)) as [blocks [Hout' Hblocks]].
    exists (block :: blocks). split.
    + rewrite Hout'. cbn [concat]. rewrite map_app, app_assoc. reflexivity.
    + constructor; [|exact Hblocks].
      cbn [block_of]. rewrite Htext, slice_all. split; [reflexivity|exact Hok].
  - cbn [sublist_items].
    destruct (IH self (result ++ [Obj o])) as [blocks [Hout Hblocks]].
    exists ([Kept o] :: blocks). split.
    + rewrite Hout. cbn [concat map forget app]. rewrite <- app_assoc.
      reflexivity.
    + constructor; [reflexivity|exact Hblocks].
Qed.

End SublistProperties.


(** A tokenizer step: the matches of [b+] become tokens, the text around
    them stays, an entry that is not a string is passed on, and no empty
    string appears. *)
Example sublist_demo :
  let token (self : Re) : entry str * Re :=
    match Re_getitem self 0 with
    | Ok (Some text) => (Obj text, self)
    | _ => (Obj [], self)
    end in
  fst (sublist token (Re_init (py "b+") (Plus (Chr 98)))
               [Str (py "abbc"); Obj (py "kept"); Str (py "bb"); Str []; Str (py "xby")]) =
  [Str (py "a"); Obj (py "bb"); Str (py "c"); Obj (py "kept"); Obj (py "bb");
   Str (py "x"); Obj (py "b"); Str (py "y")].
Proof. vm_compute. reflexivity. Qed.

(** ** The state of an [Re] *)

Lemma length_groups (m : rmatch) : length (groups m) = mt_groups m.
Proof. unfold groups. rewrite length_map, length_seq. reflexivity. Qed.

(** C8.  An [Re] that holds no match, fresh or after a [match] or a
    [search] that failed, raises [IndexError] at every index and has
    length 0; after a [match] or a [search] that succeeded its length is
    the number of groups of the pattern plus one. *)
Theorem Re_without_match (self : Re) (string : str) :
  (re_m self = None ->
   (forall i, Re_getitem self i = Raise IndexError) /\ Re_len self = 0%nat) /\
  (forall pattern p,
     (forall i, Re_getitem (Re_init pattern p) i = Raise IndexError) /\
     Re_len (Re_init pattern p) = 0%nat) /\
  (fst (Re_match self string) = None ->
   (forall i, Re_getitem (snd (Re_match self string)) i = Raise IndexError) /\
   Re_len (snd (Re_match self string)) = 0%nat) /\
  (fst (Re_search self string) = None ->
   (forall i, Re_getitem (snd (Re_search self string)) i = Raise IndexError) /\
   Re_len (snd (Re_search self string)) = 0%nat) /\
  (forall m, fst (Re_match self string) = Some m ->
             Re_len (snd (Re_match self string)) = (ngroups (re_p self) + 1)%nat) /\
  (forall m, fst (Re_search self string) = Some m ->
             Re_len (snd (Re_search self string)) = (ngroups (re_p self) + 1)%nat).
Proof.
  assert (Hnone : forall re : Re, re_m re = None ->
            (forall i, Re_getitem re i = Raise IndexError) /\ Re_len re = 0%nat).
  { intros re H. unfold Re_getitem, Re_len. rewrite H. split; reflexivity. }
  split; [apply Hnone|].
  split; [intros pattern p; apply Hnone; reflexivity|].
  split; [intros H; apply Hnone; exact H|].
  split; [intros H; apply Hnone; exact H|].
  split.
  - intros m Hm. cbn [Re_match fst snd] in *. unfold Re_len. cbn [re_m re_p].
    rewrite Hm, length_groups. unfold re_match in Hm.
    apply match_here_span in Hm. destruct Hm as [_ [-> _]]. reflexivity.
  - intros m Hm. cbn [Re_search fst snd] in *. unfold Re_len. cbn [re_m re_p].
    rewrite Hm, length_groups. unfold re_search in Hm.
    apply search_from_span in Hm. destruct Hm as [_ [-> _]]. reflexivity.
Qed.

Lemma Re_without_match_witness :
  (forall i, Re_getitem (snd (Re_match (Re_init (py "b+") (Plus (Chr 98)))
                                       (py "abb"))) i = Raise IndexError) /\
  Re_len (snd (Re_match (Re_init (py "b+") (Plus (Chr 98))) (py "abb"))) = 0%nat.
Proof.
  destruct (Re_without_match (Re_init (py "b+") (Plus (Chr 98))) (py "abb"))
    as [_ [_ [H _]]].
  apply H. vm_compute. reflexivity.
Defined.

Example Re_demo :
  let re := Re_init (py "(b+)(c)?") (Cat (Grp 1 (Plus (Chr 98))) (Opt (Grp 2 (Chr 99)))) in
  let re' := snd (Re_search re (py "abbd")) in
  Re_len re' = 3%nat /\
  Re_getitem re' 0 = Ok (Some (py "bb")) /\
  Re_getitem re' 1 = Ok (Some (py "bb")) /\
  Re_getitem re' 2 = Ok None /\
  Re_getitem re' 3 = Raise IndexError /\
  Re_getitem re' (-1) = Raise IndexError.
Proof. repeat split; vm_compute; reflexivity. Qed.

(** ** [valid_interwiki_key] *)

Section Interwiki.

Variable U : unicode.

(** The substitution, one character at a time. *)
Lemma interwiki_sub_chars (name : str) :
  re_sub (interwiki_bad_re U) (fun _ => py "_") name =
  map (fun c => if is_scheme_char U c then c else 95) name.
Proof.
  unfold re_sub, interwiki_bad_re.
  pose proof (sub_cls (fun c => negb (is_scheme_char U c)) (fun _ => py "_")
                (fun _ => py "_") (fun _ => eq_refl) name []) as H.
  cbn [app length] in H. rewrite H. clear H.
  induction name as [|c name IH]; [reflexivity|].
  cbn [flat_map map]. rewrite IH.
  destruct (is_scheme_char U c); reflexivity.
Qed.

Lemma underscore_is_word : is_word U 95 = true.
Proof. reflexivity. Qed.

Lemma is_scheme_char_key (c : char) :
  is_scheme_char U c = true -> key_char U c.
Proof.
  unfold is_scheme_char, key_char. intros H.
  repeat match type of H with
  | _ || _ = true => apply orb_true_iff in H; destruct H as [H|H]
  end; bool_to_prop; auto.
Qed.

Lemma sub_key_chars (name : str) :
  Forall (key_char U) (map (fun c => if is_scheme_char U c then c else 95) name).
Proof.
  induction name as [|c name IH]; [constructor|].
  cbn [map]. constructor; [|exact IH].
  destruct (is_scheme_char U c) eqn:E.
  - apply is_scheme_char_key, E.
  - left. apply underscore_is_word.
Qed.

End Interwiki.

(** C10.  [valid_interwiki_key] of the empty string raises [IndexError];
    for every other name it gives a key of the same length, hence not
    empty, made of word characters, [+], [-] and [.], that starts with
    neither [-] nor [.]. *)
Theorem valid_interwiki_key_shape (U : unicode) (name : str) :
  valid_interwiki_key U [] = Raise IndexError /\
  (name <> [] ->
   exists key,
     valid_interwiki_key U name = Ok key /\
     key <> [] /\ length key = length name /\
     Forall (key_char U) key /\
     (forall k0 rest, key = k0 :: rest -> k0 <> 45 /\ k0 <> 46)).
Proof.
  split; [reflexivity|].
  intros Hname. unfold valid_interwiki_key. rewrite interwiki_sub_chars.
  pose proof (sub_key_chars U name) as Hchars.
  assert (Hlen : length (map (fun c => if is_scheme_char U c then c else 95) name)
                 = length name) by apply length_map.
  destruct (map (fun c => if is_scheme_char U c then c else 95) name)
    as [|k0 key] eqn:E.
  { destruct name; [contradiction|discriminate E]. }
  destruct ((k0 =? 45) || (k0 =? 46)) eqn:Ek.
  - exists (py "_" ++ skipn 1 (k0 :: key)). cbn [py app skipn].
    change (Z.of_nat (nat_of_ascii "_")) with 95.
    repeat split.
    + discriminate.
    + exact Hlen.
    + inversion Hchars; subst. constructor; [|assumption].
      left. apply underscore_is_word.
    + injection H as <- _. discriminate.
    + injection H as <- _. discriminate.
  - exists (k0 :: key). apply orb_false_iff in Ek. destruct Ek as [E1 E2].
    bool_to_prop.
    repeat split; try assumption; try discriminate;
      injection H as <- _; assumption.
Qed.

Lemma valid_interwiki_key_shape_witness :
  exists key,
    valid_interwiki_key ascii_only
                        (py "-bad.key") = Ok key /\
    key <> [] /\ length key = length (py "-bad.key") /\
    Forall (key_char ascii_only) key /\
    (forall k0 rest, key = k0 :: rest -> k0 <> 45 /\ k0 <> 46).
Proof.
  apply (valid_interwiki_key_shape
           ascii_only
           (py "-bad.key")).
  vm_compute. discriminate.
Defined.

Example valid_interwiki_key_demo (U : unicode) :
  valid_interwiki_key U (py "-bad.key") = Ok (py "_bad.key") /\
  valid_interwiki_key U (py "a b?c") = Ok (py "a_b_c").
Proof. split; vm_compute; reflexivity. Qed.

(** ** [link_type] *)

Lemma startswith_app (p : str) : forall s,
  startswith s p = true -> s = p ++ skipn (length p) s.
Proof.
  induction p as [|x p IH]; intros s H; [reflexivity|].
  destruct s as [|y s]; [discriminate H|].
  cbn [startswith] in H. apply andb_true_iff in H. destruct H as [Hx Hp].
  apply Z.eqb_eq in Hx. subst y. cbn [length skipn app]. f_equal. apply IH, Hp.
Qed.

(** A literal matches where the text ahead starts with it. *)
Lemma ms_Lit (s : str) : forall st,
  ms (Lit s) st =
  if startswith (m_rest st) s
  then [MState (m_pos st + length s) (skipn (length s) (m_rest st)) (m_caps st)]
  else [].
Proof.
  induction s as [|c s IH]; intros [pos rest caps].
  - cbn. rewrite Nat.add_0_r. destruct rest; reflexivity.
  - cbn [Lit ms m_rest m_pos m_caps flat_map startswith length skipn].
    destruct rest as [|x rest]; [reflexivity|].
    change (startswith (x :: rest) (c :: s))
      with ((c =? x) && startswith rest s).
    rewrite (Z.eqb_sym c x). destruct (x =? c); [|reflexivity].
    cbn [flat_map andb]. rewrite IH, app_nil_r.
    cbn [advance m_rest m_pos m_caps skipn].
    replace (S pos + length s)%nat with (pos + S (length s))%nat by lia.
    reflexivity.
Qed.

Section Links.

Variable U : unicode.

(** A match of [is_url_re] splits the link into a scheme, which is
    group 1, the literal [://] and the rest. *)
Lemma url_match_scheme (link : str) (m : rmatch) :
  re_match (re_p (is_url_re U)) link = Some m ->
  exists scheme rest,
    link = scheme ++ py "://" ++ rest /\
    group m 1 = Ok (Some scheme).
Proof.
  unfold re_match, match_here, is_url_re, Re_init. cbn [re_p].
  destruct (ms _ (start_state 0 link)) as [|st l] eqn:E; [discriminate|].
  intros H. injection H as <-.
  assert (Hin : In st (ms (Cat Bol (Cat (Grp 1 (scheme_re U)) (Lit (py "://"))))
                          (start_state 0 link)))
    by (rewrite E; left; reflexivity).
  clear E. cbn [ms start_state m_pos Nat.eqb flat_map] in Hin.
  rewrite app_nil_r in Hin.
  apply in_flat_map in Hin. destruct Hin as [st1 [H1 H2]].
  apply in_map_iff in H1. destruct H1 as [st0 [<- H0]].
  fold (ms (scheme_re U)) in H0.
  apply ms_extends in H0. destruct H0 as [scheme [Hrest Hpos]].
  unfold start_state in Hrest, Hpos. cbn [m_rest m_pos] in Hrest, Hpos.
  rewrite ms_Lit in H2. cbn [close_group m_rest m_pos m_caps] in H2.
  destruct (startswith (m_rest st0) (py "://")) eqn:Es; [|destruct H2].
  destruct H2 as [<-|[]].
  exists scheme, (skipn 3 (m_rest st0)). split.
  - rewrite Hrest. f_equal. apply (startswith_app (py "://")), Es.
  - unfold group, mk_match. cbn [mt_groups mt_caps mt_string m_caps].
    match goal with
    | |- context [ngroups ?r] => change (ngroups r) with 1%nat
    end.
    cbn [Nat.leb lookup_cap Nat.eqb].
    rewrite Hpos. f_equal. f_equal.
    unfold slice. cbn [skipn Nat.add]. rewrite Nat.sub_0_r, Hrest.
    rewrite firstn_app, firstn_all, Nat.sub_diag. cbn [firstn].
    apply app_nil_r.
Qed.

(** C4.  [link_type] tries its recognizers in a fixed order and answers
    with the first that applies: the URL pattern (the scheme, or
    [notebook] for a link that starts with [zim+]), the prefix
    [file:/], the email pattern, the [www.] pattern, [mid:] or [cid:]
    with an [@] (the first three characters), the share pattern, the
    path pattern, the interwiki pattern, and [page] otherwise. *)
Theorem link_type_first_match (link : str) :
  let url := found (fst (Re_match (is_url_re U) link)) in
  let file := startswith link (py "file:/") in
  let email := found (fst (Re_match (is_email_re U) link)) in
  let www := found (fst (Re_match (is_www_link_re U) link)) in
  let msgid := contains 64 link
               && (startswith link (py "mid:") || startswith link (py "cid:")) in
  let share := found (fst (Re_match is_win32_share_re link)) in
  let path := found (fst (Re_match is_path_re link)) in
  let interwiki := found (fst (Re_match (is_interwiki_re U) link)) in
  (url = true -> startswith link (py "zim+") = true ->
   link_type U link = Ok (Some (py "notebook"))) /\
  (url = true -> startswith link (py "zim+") = false ->
   exists scheme rest,
     link = scheme ++ py "://" ++ rest /\
     link_type U link = Ok (Some scheme)) /\
  (url = false -> file = true ->
   link_type U link = Ok (Some (py "file"))) /\
  (url = false -> file = false -> email = true ->
   link_type U link = Ok (Some (py "mailto"))) /\
  (url = false -> file = false -> email = false -> www = true ->
   link_type U link = Ok (Some (py "http"))) /\
  (url = false -> file = false -> email = false -> www = false ->
   msgid = true ->
   link_type U link = Ok (Some (firstn 3 link)) /\
   (firstn 3 link = py "mid" \/ firstn 3 link = py "cid")) /\
  (url = false -> file = false -> email = false -> www = false ->
   msgid = false -> share = true ->
   link_type U link = Ok (Some (py "smb"))) /\
  (url = false -> file = false -> email = false -> www = false ->
   msgid = false -> share = false -> path = true ->
   link_type U link = Ok (Some (py "file"))) /\
  (url = false -> file = false -> email = false -> www = false ->
   msgid = false -> share = false -> path = false -> interwiki = true ->
   link_type U link = Ok (Some (py "interwiki"))) /\
  (url = false -> file = false -> email = false -> www = false ->
   msgid = false -> share = false -> path = false -> interwiki = false ->
   link_type U link = Ok (Some (py "page"))) /\
  link_type U (py "mailto:foo@bar.com") = Ok (Some (py "mailto")) /\
  link_type U (py "www.example.com") = Ok (Some (py "http")) /\
  link_type U (py "../foo/bar") = Ok (Some (py "file")) /\
  link_type U (py "SomeWikiPage") = Ok (Some (py "page")) /\
  link_type U (py "wp?Some_Page") = Ok (Some (py "interwiki")).
Proof.
  cbv zeta. unfold link_type, Re_match. cbn [fst snd].
  remember (re_match (re_p (is_url_re U)) link) as mu eqn:Emu.
  repeat match goal with |- _ /\ _ => split end;
    try (vm_compute; reflexivity).
  - intros -> ->. reflexivity.
  - intros Hm ->. rewrite Hm.
    destruct mu as [m|]; [|discriminate Hm].
    destruct (url_match_scheme link m (eq_sym Emu)) as [scheme [rest [Hlink Hg]]].
    exists scheme, rest. split; [exact Hlink|].
    unfold Re_getitem, group_at. cbn [re_m]. exact Hg.
  - intros -> ->. reflexivity.
  - intros -> -> ->. reflexivity.
  - intros -> -> -> ->. reflexivity.
  - intros -> -> -> -> Hid. rewrite Hid. split; [reflexivity|].
    apply andb_true_iff in Hid. destruct Hid as [_ Hid].
    apply orb_true_iff in Hid. destruct Hid as [Hid|Hid];
      apply startswith_app in Hid; rewrite Hid; [left|right]; reflexivity.
  - intros -> -> -> -> -> ->. reflexivity.
  - intros -> -> -> -> -> -> ->. reflexivity.
  - intros -> -> -> -> -> -> -> ->. reflexivity.
  - intros -> -> -> -> -> -> -> ->. reflexivity.
Qed.

End Links.

Lemma link_type_first_match_witness :
  link_type ascii_only (py "zim+file:///notes") = Ok (Some (py "notebook")) /\
  link_type ascii_only (py "cid:part1@example") = Ok (Some (py "cid")).
Proof.
  split.
  - apply (link_type_first_match ascii_only (py "zim+file:///notes"));
      vm_compute; reflexivity.
  - destruct (link_type_first_match ascii_only (py "cid:part1@example"))
      as [_ [_ [_ [_ [_ [H _]]]]]].
    apply H; vm_compute; reflexivity.
Defined.

(** ** [parse_date] *)

Example parse_date_demo (U : unicode) :
  parse_date U 2026 11 (py "Journal 2024-03-15") = Ok (Some (2024, 3, 15)) /\
  parse_date U 2026 11 (py "15-03-24") = Ok (Some (2024, 3, 15)) /\
  parse_date U 2026 11 (py "15/3/1999 x") = Ok (Some (1999, 3, 15)) /\
  parse_date U 2026 11 (py "1.2.87") = Ok (Some (1987, 2, 1)) /\
  parse_date U 2026 11 (py "0012-03-15") = Ok (Some (2012, 3, 15)) /\
  parse_date U 2026 11 (py "15-03") = Ok (Some (2027, 3, 15)) /\
  parse_date U 2026 1 (py "15-03") = Ok (Some (2026, 3, 15)) /\
  parse_date U 2026 11 (py "2024-03") = Ok None /\
  parse_date U 2026 11 (py "March 2024") = Ok None /\
  parse_date U 2026 11 (py "12345-6-7") = Ok (Some (2345, 6, 7)).
Proof. repeat split; vm_compute; reflexivity. Qed.

Lemma ms_cls_step (p : char -> bool) (st st' : mstate) :
  In st' (ms (Cls p) st) ->
  exists x, m_rest st = x :: m_rest st' /\ m_pos st' = S (m_pos st) /\
            m_caps st' = m_caps st.
Proof.
  cbn [ms]. destruct (m_rest st) as [|x rest]; [intros []|].
  destruct (p x); [|intros []]. intros [<-|[]].
  exists x. repeat split.
Qed.

(** A bounded run of a class consumes characters of the class, at least
    one, and closes no group. *)
Lemma ms_upto_cls (p : char -> bool) (n : nat) : forall st st',
  In st' (ms (Upto n (Cls p)) st) ->
  exists consumed,
    consumed <> [] /\ Forall (fun c => p c = true) consumed /\
    m_rest st = consumed ++ m_rest st' /\
    m_pos st' = (m_pos st + length consumed)%nat /\
    m_caps st' = m_caps st.
Proof.
  induction n as [|n IH]; intros st st' Hin.
  - cbn [Upto ms] in Hin.
    destruct (m_rest st) as [|x rest] eqn:E; [destruct Hin|].
    destruct (p x) eqn:Hp; [|destruct Hin]. destruct Hin as [<-|[]].
    exists [x]. cbn [advance m_rest m_pos m_caps app length].
    repeat split; try discriminate; try lia. repeat constructor. exact Hp.
  - cbn [Upto] in Hin. unfold Opt in Hin. cbn [ms] in Hin.
    destruct (m_rest st) as [|x rest] eqn:E; [destruct Hin|].
    destruct (p x) eqn:Hp; [|destruct Hin].
    cbn [flat_map] in Hin. rewrite app_nil_r in Hin.
    apply in_app_or in Hin. destruct Hin as [Hin|[<-|[]]].
    + apply IH in Hin. destruct Hin as [consumed [_ [Hall [Hrest [Hpos Hcaps]]]]].
      cbn [advance m_rest m_pos m_caps] in Hrest, Hpos, Hcaps.
      exists (x :: consumed). repeat split; try discriminate.
      * constructor; assumption.
      * cbn [app]. rewrite Hrest. reflexivity.
      * cbn [length]. lia.
      * exact Hcaps.
    + exists [x]. cbn [advance m_rest m_pos m_caps app length].
      repeat split; try discriminate; try lia. repeat constructor. exact Hp.
Qed.

Lemma ms_grp_upto_cls (i : nat) (p : char -> bool) (n : nat) (st st' : mstate) :
  In st' (ms (Grp i (Upto n (Cls p))) st) ->
  exists consumed,
    consumed <> [] /\ Forall (fun c => p c = true) consumed /\
    m_rest st = consumed ++ m_rest st' /\
    m_pos st' = (m_pos st + length consumed)%nat /\
    m_caps st' = (i, (m_pos st, m_pos st')) :: m_caps st.
Proof.
  cbn [ms]. intros Hin. apply in_map_iff in Hin.
  destruct Hin as [st1 [<- H1]]. apply ms_upto_cls in H1.
  destruct H1 as [consumed [H1 [H2 [H3 [H4 H5]]]]].
  exists consumed. cbn [close_group m_rest m_pos m_caps].
  repeat split; try assumption. rewrite H5. reflexivity.
Qed.

Lemma slice_mid (subject a b c : str) (p q : nat) :
  subject = a ++ b ++ c -> p = length a -> q = (p + length b)%nat ->
  slice subject p q = b.
Proof. intros -> -> ->. apply slice_app. Qed.

Lemma search_from_here r subject : forall rest pre m,
  subject = pre ++ rest ->
  search_from r subject (length pre) rest = Some m ->
  exists pre' rest',
    subject = pre' ++ rest' /\
    match_here r subject (length pre') rest' = Some m.
Proof.
  induction rest as [|c rest IH]; intros pre m Hs H; cbn [search_from] in H.
  - destruct (match_here r subject (length pre) []) eqn:E; [|discriminate].
    injection H as ->. eauto.
  - destruct (match_here r subject (length pre) (c :: rest)) eqn:E.
    + injection H as ->. eauto.
    + rewrite <- (length_snoc pre c) in H. apply IH in H; [exact H|].
      rewrite Hs. apply snoc_assoc.
Qed.

Section Dates.

Variable U : unicode.

Let digit := fun c => is_decimal U c = true.

(** The groups of a match of the date pattern are strings of decimal
    digits; the first two are always there. *)
Lemma date_groups (subject pre rest : str) (m : rmatch) :
  subject = pre ++ rest ->
  match_here (_parse_date_re U) subject (length pre) rest = Some m ->
  exists g1 g2 og3,
    groups m = [Some g1; Some g2; og3] /\
    digits U g1 /\ digits U g2 /\
    (forall g3, og3 = Some g3 -> digits U g3).
Proof.
  intros Hs. unfold match_here.
  destruct (ms _ (start_state (length pre) rest)) as [|st l] eqn:E;
    [discriminate|].
  intros H. injection H as <-.
  assert (Hin : In st (ms (_parse_date_re U) (start_state (length pre) rest)))
    by (rewrite E; left; reflexivity).
  clear E l. unfold _parse_date_re in Hin.
  cbn [ms] in Hin. fold (ms (Grp 1 (Upto 3 (Cls (is_decimal U))))) in Hin.
  apply in_flat_map in Hin. destruct Hin as [st1 [H1 Hin]].
  apply in_flat_map in Hin. destruct Hin as [st2 [H2 Hin]].
  apply in_flat_map in Hin. destruct Hin as [st3 [H3 Hin]].
  apply (ms_grp_upto_cls 1 (is_decimal U) 3) in H1.
  destruct H1 as [c1 [N1 [D1 [R1 [P1 C1]]]]].
  unfold start_state in R1, P1, C1. cbn [m_rest m_pos m_caps] in R1, P1, C1.
  apply (ms_cls_step (is_nondecimal U)) in H2.
  destruct H2 as [x [R2 [P2 C2]]].
  apply (ms_grp_upto_cls 2 (is_decimal U) 1) in H3.
  destruct H3 as [c2 [N2 [D2 [R3 [P3 C3]]]]].
  assert (G1 : slice subject (length pre) (m_pos st1) = c1).
  { apply (slice_mid subject pre c1 (m_rest st1)); [|reflexivity|exact P1].
    rewrite Hs, R1. reflexivity. }
  assert (G2 : slice subject (m_pos st2) (m_pos st3) = c2).
  { apply (slice_mid subject (pre ++ c1 ++ [x]) c2 (m_rest st3)); [| |exact P3].
    - rewrite Hs, R1, R2, R3, <- !app_assoc. reflexivity.
    - rewrite !length_app. cbn [length]. lia. }
  unfold Opt in Hin. apply in_app_or in Hin. destruct Hin as [Hin|[<-|[]]].
  - cbn [ms] in Hin. apply in_flat_map in Hin. destruct Hin as [st4 [H4 H5]].
    apply (ms_cls_step (is_nondecimal U)) in H4.
    destruct H4 as [y [R4 [P4 C4]]].
    apply (ms_grp_upto_cls 3 (is_decimal U) 3) in H5.
    destruct H5 as [c3 [N3 [D3 [R5 [P5 C5]]]]].
    assert (G3 : slice subject (m_pos st4) (m_pos st) = c3).
    { apply (slice_mid subject (pre ++ c1 ++ [x] ++ c2 ++ [y]) c3 (m_rest st));
        [| |exact P5].
      - rewrite Hs, R1, R2, R3, R4, R5, <- !app_assoc. reflexivity.
      - rewrite !length_app. cbn [length]. lia. }
    exists c1, c2, (Some c3).
    split; [|split; [split; assumption|split; [split; assumption|]]].
    + unfold groups, mk_match. cbn [mt_groups mt_caps mt_string].
      match goal with
      | |- context [ngroups ?r] => change (ngroups r) with 3%nat
      end.
      cbn [seq map]. rewrite C5, C4, C3, C2, C1.
      cbn [lookup_cap Nat.eqb]. rewrite G1, G2, G3. reflexivity.
    + intros g3 Hg. injection Hg as <-. split; assumption.
  - exists c1, c2, None.
    split; [|split; [split; assumption|split; [split; assumption|]]].
    + unfold groups, mk_match. cbn [mt_groups mt_caps mt_string].
      match goal with
      | |- context [ngroups ?r] => change (ngroups r) with 3%nat
      end.
      cbn [seq map]. rewrite C3, C2, C1.
      cbn [lookup_cap Nat.eqb]. rewrite G1, G2. reflexivity.
    + intros g3 Hg. discriminate Hg.
Qed.

Lemma int_digits_ok (s : str) : forall acc,
  Forall digit s -> exists v, int_digits U acc s = Ok v.
Proof.
  induction s as [|c s IH]; intros acc Hs; [cbn; eauto|].
  inversion Hs as [|? ? Hc Hs']; subst. cbn [int_digits].
  unfold digit, is_decimal in Hc.
  destruct (decimal_value U c) as [v|]; [|discriminate Hc].
  apply IH, Hs'.
Qed.

Lemma int_ok (g : str) :
  digits U g -> exists v, int U (Some g) = Ok v /\ falsy (Some g) = false.
Proof.
  intros [Hne Hall]. destruct g as [|c g]; [contradiction|].
  destruct (int_digits_ok (c :: g) 0 Hall) as [v Hv].
  exists v. split; [exact Hv|reflexivity].
Qed.

End Dates.

(** C9.  When [parse_date] finds a match whose three groups all took
    part, the year and the day are both there.  The groups are read in
    the order year, month, day when the first has four digits and in the
    order day, month, year otherwise, and the year [y] of the result is
    [y + 2000] when [y < 50], [y + 1900] when [50 <= y < 1000], and [y]
    otherwise. *)
Theorem parse_date_explicit_year (U : unicode) (today_year today_month : Z)
  (string : str) (m : rmatch) (g1 g2 g3 : str) :
  re_search (_parse_date_re U) string = Some m ->
  groups m = [Some g1; Some g2; Some g3] ->
  exists y mo d,
    int U (Some (if Nat.eqb (length g1) 4 then g1 else g3)) = Ok y /\
    int U (Some g2) = Ok mo /\
    int U (Some (if Nat.eqb (length g1) 4 then g3 else g1)) = Ok d /\
    parse_date U today_year today_month string =
    Ok (Some (full_year y, mo, d)).
Proof.
  intros Hm Hg. unfold parse_date. rewrite Hm, Hg.
  unfold re_search in Hm.
  apply (search_from_here _ string string []) in Hm; [|reflexivity].
  destruct Hm as [pre [rest [Hs Hm]]].
  destruct (date_groups U string pre rest m Hs Hm)
    as [c1 [c2 [o3 [Hg' [D1 [D2 D3]]]]]].
  rewrite Hg in Hg'. injection Hg' as <- <- <-.
  specialize (D3 g3 eq_refl).
  destruct (int_ok U g1 D1) as [v1 [I1 F1]].
  destruct (int_ok U g2 D2) as [v2 [I2 F2]].
  destruct (int_ok U g3 D3) as [v3 [I3 F3]].
  cbn [len bind].
  destruct (Nat.eqb (length g1) 4).
  - exists v1, v2, v3. repeat split; try assumption.
    rewrite F3, F1, I1. cbn [bind]. unfold full_year.
    destruct (v1 <? 50); [cbn [bind]; rewrite I2, I3; reflexivity|].
    destruct (v1 <? 1000); cbn [bind]; rewrite I2, I3; reflexivity.
  - exists v3, v2, v1. repeat split; try assumption.
    rewrite F1, F3, I3. cbn [bind]. unfold full_year.
    destruct (v3 <? 50); [cbn [bind]; rewrite I2, I1; reflexivity|].
    destruct (v3 <? 1000); cbn [bind]; rewrite I2, I1; reflexivity.
Qed.

Lemma parse_date_explicit_year_witness :
  exists y mo d,
    int ascii_only (Some (if Nat.eqb (length (py "15")) 4
                          then py "15" else py "24")) = Ok y /\
    int ascii_only (Some (py "03")) = Ok mo /\
    int ascii_only (Some (if Nat.eqb (length (py "15")) 4
                          then py "24" else py "15")) = Ok d /\
    parse_date ascii_only 2026 11 (py "on 15-03-24") =
    Ok (Some (full_year y, mo, d)).
Proof.
  apply (parse_date_explicit_year ascii_only 2026 11 (py "on 15-03-24")
           (RMatch (py "on 15-03-24") 3 3 11
                   [(3, (9, 11)); (2, (6, 8)); (1, (3, 5))]%nat));
    vm_compute; reflexivity.
Defined.

(** ** [split_escaped_string] *)

Example split_escaped_demo :
  split_escaped_string (py "a\,b,c") (py ",") = Ok [py "a\,b"; py "c"] /\
  split_escaped_string (py "a\\,b,c") (py ",") = Ok [py "a\\"; py "b"; py "c"] /\
  split_escaped_string (py "a\,b\,c,,d\") (py ",") =
    Ok [py "a\,b\,c"; py ""; py "d\"] /\
  split_escaped_string (py "a::b\::c") (py "::") = Ok [py "a"; py "b\::c"] /\
  split_escaped_string (py "abc") (py "") = Raise ValueError.
Proof. repeat split; vm_compute; reflexivity. Qed.

Lemma ms_Eol st : ms Eol st = if at_eol (m_rest st) then [st] else [].
Proof.
  cbn [ms]. unfold at_eol. destruct (m_rest st) as [|x [|y rest]]; reflexivity.
Qed.

Lemma lead_bsl_le (s : str) : (lead_bsl s <= length s)%nat.
Proof.
  induction s as [|c s IH]; cbn [lead_bsl length]; [lia|].
  destruct (c =? BSL); lia.
Qed.

Lemma star_iter_S f n st :
  star_iter f (S n) st =
  flat_map (fun st' => if Nat.ltb (m_pos st) (m_pos st')
                       then star_iter f n st' else []) (f st) ++ [st].
Proof. reflexivity. Qed.

Lemma ms_Chr pos c x rest caps :
  ms (Chr c) (MState pos (x :: rest) caps) =
  if x =? c then [MState (S pos) rest caps] else [].
Proof. reflexivity. Qed.

(** The greedy run of backslashes before [$]: only the whole run can be
    followed by the end. *)
Lemma star_bsl_eol : forall rest n pos caps,
  (lead_bsl rest <= n)%nat ->
  flat_map (ms Eol) (star_iter (ms (Chr BSL)) n (MState pos rest caps)) =
  if at_eol (skipn (lead_bsl rest) rest)
  then [MState (pos + lead_bsl rest) (skipn (lead_bsl rest) rest) caps]
  else [].
Proof.
  induction rest as [|c rest IH]; intros n pos caps Hn.
  - cbn [lead_bsl skipn at_eol]. rewrite Nat.add_0_r.
    destruct n.
    + cbn [star_iter flat_map]. rewrite ms_Eol. reflexivity.
    + rewrite star_iter_S.
      change (ms (Chr BSL) (MState pos [] caps)) with (@nil mstate).
      cbn [flat_map app]. rewrite ms_Eol. reflexivity.
  - cbn [lead_bsl] in *. destruct (Z.eqb_spec c BSL) as [->|Hc].
    + destruct n as [|n]; [lia|].
      rewrite star_iter_S, ms_Chr, Z.eqb_refl.
      cbn [flat_map m_pos]. rewrite (proj2 (Nat.ltb_lt _ _)) by lia.
      rewrite app_nil_r, flat_map_app, IH by lia.
      cbn [skipn flat_map]. rewrite ms_Eol. cbn [m_rest at_eol].
      replace (match rest with [] => BSL =? LF | _ :: _ => false end)
        with false by (destruct rest; reflexivity).
      rewrite !app_nil_r.
      replace (S pos + lead_bsl rest)%nat with (pos + S (lead_bsl rest))%nat
        by lia.
      reflexivity.
    + cbn [skipn]. rewrite Nat.add_0_r.
      assert (E : star_iter (ms (Chr BSL)) n (MState pos (c :: rest) caps) =
                  [MState pos (c :: rest) caps]).
      { destruct n; [reflexivity|].
        rewrite star_iter_S, ms_Chr, (proj2 (Z.eqb_neq _ _) Hc). reflexivity. }
      rewrite E. cbn [flat_map]. rewrite ms_Eol, app_nil_r. reflexivity.
Qed.

(** What the pattern of the trailing backslashes matches at a position. *)
Lemma match_trailing subject pos rest :
  match_here trailing_backslashes_re subject pos rest =
  match rest with
  | c :: rest' =>
      if (c =? BSL) && at_eol (skipn (lead_bsl rest') rest')
      then Some (RMatch subject 0 pos (S pos + lead_bsl rest') [])
      else None
  | [] => None
  end.
Proof.
  unfold match_here, trailing_backslashes_re, Plus, start_state.
  destruct rest as [|c rest]; [reflexivity|].
  change (ms (Cat (Cat (Chr BSL) (Star (Chr BSL))) Eol) (MState pos (c :: rest) []))
    with (flat_map (ms Eol)
            (flat_map (fun st => star_iter (ms (Chr BSL)) (length (m_rest st)) st)
                      (ms (Chr BSL) (MState pos (c :: rest) [])))).
  rewrite ms_Chr. destruct (c =? BSL); [|reflexivity].
  cbn [flat_map m_rest andb]. rewrite app_nil_r.
  rewrite star_bsl_eol by apply lead_bsl_le.
  destruct (at_eol _); reflexivity.
Qed.

Lemma ends_bsl_lf_run (rest : str) :
  skipn (lead_bsl rest) rest = [LF] -> ends_bsl_lf (BSL :: rest) = true.
Proof.
  induction rest as [|c rest IH]; [discriminate|].
  cbn [lead_bsl]. destruct (Z.eqb_spec c BSL) as [->|Hc].
  - cbn [skipn]. intros H. apply IH in H.
    cbn [ends_bsl_lf] in *. destruct rest; [discriminate H|].
    cbn [orb]. exact H.
  - cbn [skipn]. intros H. injection H as -> ->. reflexivity.
Qed.

Lemma ends_bsl_lf_tail c s : ends_bsl_lf (c :: s) = false -> ends_bsl_lf s = false.
Proof. cbn [ends_bsl_lf]. intros H. apply orb_false_iff in H. apply H. Qed.

Lemma lead_bsl_all (rest : str) :
  skipn (lead_bsl rest) rest = [] -> lead_bsl rest = length rest.
Proof.
  induction rest as [|c rest IH]; [reflexivity|].
  cbn [lead_bsl]. destruct (c =? BSL); cbn [skipn length]; [|discriminate].
  intros H. f_equal. apply IH, H.
Qed.

(** The parity that [split_escaped_string] reads off a piece that does
    not end with a backslash and a newline. *)
Lemma search_trailing_odd : forall rest pre,
  ends_bsl_lf rest = false ->
  match search_from trailing_backslashes_re (pre ++ rest) (length pre) rest with
  | Some m => Nat.odd (length (group0 m))
  | None => false
  end = trailing_odd rest.
Proof.
  induction rest as [|c rest IH]; intros pre Hends.
  - cbn [search_from]. rewrite match_trailing. reflexivity.
  - cbn [search_from trailing_odd]. rewrite match_trailing.
    pose proof (ends_bsl_lf_tail _ _ Hends) as Htail.
    destruct (Z.eqb_spec c BSL) as [->|Hc].
    + cbn [andb]. destruct (at_eol (skipn (lead_bsl rest) rest)) eqn:Eeol.
      * assert (Hall : lead_bsl rest = length rest).
        { apply lead_bsl_all. unfold at_eol in Eeol.
          destruct (skipn (lead_bsl rest) rest) as [|x [|y r]] eqn:Es;
            [reflexivity| |discriminate].
          apply Z.eqb_eq in Eeol. subst x.
          rewrite (ends_bsl_lf_run rest Es) in Hends. discriminate. }
        rewrite Hall, Nat.eqb_refl.
        unfold group0. cbn [mt_string mt_start mt_end].
        rewrite slice_length; [f_equal; lia|].
        rewrite length_app. cbn [length]. lia.
      * replace (Nat.eqb (lead_bsl rest) (length rest)) with false.
        { rewrite (snoc_assoc pre BSL rest), <- (length_snoc pre BSL).
          apply IH, Htail. }
        symmetry. apply Nat.eqb_neq. intros Hall.
        rewrite Hall, skipn_all in Eeol. discriminate.
    + cbn [andb]. rewrite (snoc_assoc pre c rest), <- (length_snoc pre c).
      apply IH, Htail.
Qed.

Lemma trailing_odd_all (s : str) :
  lead_bsl s = length s -> trailing_odd s = Nat.odd (length s).
Proof.
  destruct s as [|c s]; [reflexivity|].
  cbn [lead_bsl trailing_odd length].
  destruct (c =? BSL); [|discriminate].
  intros H. injection H as H. rewrite H, Nat.eqb_refl. reflexivity.
Qed.

Lemma parity_fold : forall s p0,
  fold_left parity_step s p0 =
  if Nat.eqb (lead_bsl s) (length s)
  then xorb p0 (Nat.odd (length s))
  else trailing_odd s.
Proof.
  induction s as [|c s IH]; intros p0.
  - cbn. destruct p0; reflexivity.
  - cbn [fold_left lead_bsl length trailing_odd]. rewrite IH.
    unfold parity_step. destruct (Z.eqb_spec c BSL) as [->|Hc].
    + cbn [andb Nat.eqb]. destruct (Nat.eqb (lead_bsl s) (length s)) eqn:E.
      * rewrite Nat.odd_succ, <- Nat.negb_odd. destruct p0, (Nat.odd (length s));
          reflexivity.
      * reflexivity.
    + cbn [andb Nat.eqb]. destruct (Nat.eqb (lead_bsl s) (length s)) eqn:E.
      * apply Nat.eqb_eq in E. rewrite (trailing_odd_all s E).
        destruct (Nat.odd (length s)); reflexivity.
      * reflexivity.
Qed.

Lemma parity_trailing_odd (s : str) : parity s = trailing_odd s.
Proof.
  unfold parity. rewrite parity_fold.
  destruct (Nat.eqb (lead_bsl s) (length s)) eqn:E; [|reflexivity].
  apply Nat.eqb_eq in E. rewrite (trailing_odd_all s E).
  destruct (Nat.odd (length s)); reflexivity.
Qed.

Lemma flag_parity (piece : str) :
  ends_bsl_lf piece = false ->
  match re_search trailing_backslashes_re piece with
  | Some m => Nat.odd (length (group0 m))
  | None => false
  end = parity piece.
Proof.
  intros H. rewrite parity_trailing_odd.
  apply (search_trailing_odd piece [] H).
Qed.

Lemma extend_last_snoc (front : list str) (p more : str) :
  extend_last (front ++ [p]) more = Ok (front ++ [p ++ more]).
Proof.
  unfold extend_last. rewrite rev_app_distr. cbn [rev app].
  rewrite rev_involutive. reflexivity.
Qed.

Lemma occurs_suffix (pat a b : str) :
  occurs pat (a ++ b) = false -> occurs pat b = false.
Proof.
  induction a as [|c a IH]; [auto|].
  cbn [app occurs]. intros H. apply orb_false_iff in H. apply IH, H.
Qed.

Lemma startswith_nil_pat (s : str) : startswith s [] = true.
Proof. destruct s; reflexivity. Qed.

Lemma startswith_cons (y : char) (s : str) (x : char) (p : str) :
  startswith (y :: s) (x :: p) = (x =? y) && startswith s p.
Proof. reflexivity. Qed.

(** A piece that ends with a backslash and a newline and is followed by
    the separator shows the three characters in a row. *)
Lemma ends_bsl_lf_occurs (sep : char) (piece rest : str) :
  ends_bsl_lf piece = true ->
  occurs [BSL; LF; sep] (piece ++ sep :: rest) = true.
Proof.
  induction piece as [|c piece IH]; [discriminate|].
  cbn [ends_bsl_lf app occurs]. intros H.
  apply orb_true_iff in H. destruct H as [H|H].
  - destruct piece as [|l [|x piece]]; try discriminate H.
    apply andb_true_iff in H. destruct H as [Hc Hl].
    apply Z.eqb_eq in Hc, Hl. subst c l.
    cbn [app]. rewrite !startswith_cons, !Z.eqb_refl, startswith_nil_pat.
    reflexivity.
  - rewrite (IH H). apply orb_true_r.
Qed.

Lemma no_lf_ends (piece : str) : ~ In LF piece -> ends_bsl_lf piece = false.
Proof.
  induction piece as [|c piece IH]; [reflexivity|].
  intros H. cbn [ends_bsl_lf]. rewrite IH by (intros Hin; apply H; right; exact Hin).
  rewrite orb_false_r. destruct piece as [|l [|x piece]]; try reflexivity.
  destruct (Z.eqb_spec l LF) as [->|_]; [|apply andb_false_r].
  exfalso. apply H. right. left. reflexivity.
Qed.

Section SplitEscaped.

Variable sep : char.
Hypothesis sep_not_bsl : sep <> BSL.

Lemma clean_piece piece s : clean sep piece (sep :: s) -> ends_bsl_lf piece = false.
Proof.
  unfold clean. intros [[_ H]|[_ H]]; [apply no_lf_ends, H|].
  destruct (ends_bsl_lf piece) eqn:E; [|reflexivity].
  rewrite (ends_bsl_lf_occurs sep piece s E) in H. discriminate.
Qed.

Lemma clean_next piece s : clean sep piece (sep :: s) -> clean sep [] s.
Proof.
  unfold clean. intros [[H _]|[Hs H]]; [left; split; [exact H|intros []]|].
  right. split; [exact Hs|].
  apply (occurs_suffix _ (piece ++ [sep]) s).
  rewrite <- app_assoc. exact H.
Qed.

Lemma clean_snoc piece c s : c <> sep -> clean sep piece (c :: s) -> clean sep (piece ++ [c]) s.
Proof.
  unfold clean. intros Hc [[Hs H]|[Hs H]].
  - left. split; [exact Hs|]. intros Hin. apply in_app_or in Hin.
    destruct Hin as [Hin|[E|[]]]; [exact (H Hin)|]. apply Hc. congruence.
  - right. split; [exact Hs|]. rewrite <- app_assoc. exact H.
Qed.

Lemma join_escaped_unescaped : forall s piece front held,
  clean sep piece s ->
  join_escaped [sep] (parts_of front held) (is_held held)
               (split_from [sep] s 0 piece) =
  Ok (front ++ split_unescaped sep s (current sep held piece) (parity piece)).
Proof.
  induction s as [|c s IH]; intros piece front held Hclean.
  - cbn [split_from join_escaped split_unescaped].
    destruct held as [p|]; cbn [is_held parts_of current].
    + rewrite extend_last_snoc. reflexivity.
    + reflexivity.
  - cbn [split_from]. rewrite startswith_cons, startswith_nil_pat, andb_true_r.
    cbn [split_unescaped]. rewrite (Z.eqb_sym sep c).
    destruct (Z.eqb_spec c sep) as [->|Hc].
    + cbn [length Nat.sub join_escaped].
      rewrite (flag_parity piece (clean_piece piece s Hclean)).
      assert (Hparts : (if is_held held
                        then extend_last (parts_of front held) ([sep] ++ piece)
                        else Ok (parts_of front held ++ [piece])) =
                       Ok (front ++ [current sep held piece])).
      { destruct held as [p|]; cbn [is_held parts_of current];
          [apply extend_last_snoc|reflexivity]. }
      rewrite Hparts. cbn [bind].
      destruct (parity piece) eqn:Epar; cbn [andb negb].
      * pose proof (IH [] front (Some (current sep held piece))
                        (clean_next piece s Hclean)) as IH1.
        cbn [parts_of is_held] in IH1. rewrite IH1.
        cbn [current parity fold_left app].
        rewrite (proj2 (Z.eqb_neq _ _) sep_not_bsl). cbn [andb].
        reflexivity.
      * pose proof (IH [] (front ++ [current sep held piece]) None
                        (clean_next piece s Hclean)) as IH1.
        cbn [parts_of is_held] in IH1. rewrite IH1.
        cbn [current parity fold_left]. rewrite <- app_assoc. reflexivity.
    + cbn [andb].
      rewrite (IH (piece ++ [c]) front held (clean_snoc piece c s Hc Hclean)).
      f_equal. f_equal. f_equal.
      * destruct held as [p|]; cbn [current]; [|reflexivity].
        rewrite <- !app_assoc. reflexivity.
      * unfold parity. rewrite fold_left_app. reflexivity.
Qed.

End SplitEscaped.

(** X5.  Outside the reach of the newline slip, [split_escaped_string]
    splits at the separators that follow an even number of backslashes:
    for a separator of one character other than the backslash, and a
    text in which no backslash and newline come right before a
    separator, the result is [split_unescaped]. *)
Theorem split_escaped_string_unescaped (text : str) (sep : char) :
  sep <> BSL ->
  (sep <> LF -> occurs [BSL; LF; sep] text = false) ->
  split_escaped_string text [sep] = Ok (split_unescaped sep text [] false).
Proof.
  intros Hsep Hclean. unfold split_escaped_string, split. cbn [bind].
  apply (join_escaped_unescaped sep Hsep text [] [] None).
  destruct (Z.eq_dec sep LF) as [E|E].
  - left. split; [exact E|intros []].
  - right. split; [exact E|apply Hclean, E].
Qed.

Lemma split_escaped_string_unescaped_witness :
  split_escaped_string (py "a\,b\\,c,,\\\,d\") (py ",") =
  Ok (split_unescaped 44 (py "a\,b\\,c,,\\\,d\") [] false).
Proof.
  apply (split_escaped_string_unescaped (py "a\,b\\,c,,\\\,d\") 44).
  - vm_compute. discriminate.
  - intros _. vm_compute. reflexivity.
Defined.

(** C6.  A separator that follows a newline follows no backslash and is
    a place to split.  [split_escaped_string] joins across it when the
    newline itself follows an odd number of backslashes: [$] in the
    pattern of the trailing backslashes also matches before a newline
    that ends the piece. *)
Theorem split_escaped_string_newline_slip :
  split_escaped_string (py "a\" ++ [LF] ++ py ",b") (py ",") =
    Ok [py "a\" ++ [LF] ++ py ",b"] /\
  split_unescaped 44 (py "a\" ++ [LF] ++ py ",b") [] false =
    [py "a\" ++ [LF]; py "b"].
Proof. split; vm_compute; reflexivity. Qed.

(** * Further properties *)

(** ** [url_encode] in all its modes *)

Lemma join_cls_try (p : char -> bool) (repl : rmatch -> result str)
  (g : char -> result str) : forall rest pre,
  (forall m c, group0 m = [c] -> repl m = g c) ->
  join_pieces repl (scan (Cls p) (pre ++ rest) (length pre) rest 0) =
  try_chars (fun c => if p c then g c else Ok [c]) rest.
Proof.
  induction rest as [|c rest IH]; intros pre Hrepl; [reflexivity|].
  cbn [try_chars]. destruct (p c) eqn:Hp.
  - rewrite (scan_found _ _ _ _ _ (RMatch (pre ++ c :: rest) 0 (length pre)
                                      (S (length pre)) [])).
    + cbn [mt_end].
      replace (S (length pre) - length pre - 1)%nat with 0%nat by lia.
      cbn [join_pieces]. rewrite (Hrepl _ c) by apply slice_one.
      rewrite (snoc_assoc pre c rest), <- (length_snoc pre c), IH by assumption.
      reflexivity.
    + unfold match_here, start_state; cbn [ms m_rest]. rewrite Hp. reflexivity.
    + cbn [mt_end]. lia.
  - rewrite scan_copy.
    + cbn [join_pieces bind].
      rewrite (snoc_assoc pre c rest), <- (length_snoc pre c), IH by assumption.
      destruct (try_chars _ rest); reflexivity.
    + unfold match_here, start_state; cbn [ms m_rest]. rewrite Hp. reflexivity.
Qed.

Lemma try_chars_ext (f g : char -> result str) (s : str) :
  (forall c, f c = g c) -> try_chars f s = try_chars g s.
Proof.
  intros H. induction s as [|c s IH]; [reflexivity|].
  cbn [try_chars]. rewrite H, IH. reflexivity.
Qed.

Lemma url_encode_match_try (m : rmatch) (c : char) :
  group0 m = [c] ->
  _url_encode m =
  bind (utf8_encode_char c) (fun b => Ok (flat_map percent_byte b)).
Proof.
  intros Hm. unfold _url_encode. rewrite Hm. cbn [utf8_encode].
  destruct (utf8_encode_char c) as [b|e]; [|reflexivity].
  cbn [bind]. rewrite app_nil_r. reflexivity.
Qed.

Lemma url_encode_readable_match (m : rmatch) (c : char) :
  group0 m = [c] ->
  _url_encode_readable m =
  if (c =? 32) || (127 <? c)
  then bind (utf8_encode_char c) (fun b => Ok (flat_map percent_byte b))
  else Ok [c].
Proof.
  intros Hm. unfold _url_encode_readable. rewrite Hm.
  destruct ((c =? 32) || (127 <? c)); [|reflexivity].
  apply url_encode_match_try, Hm.
Qed.

(** [url_encode], one character at a time, in each of its modes. *)
Lemma url_encode_try (url : str) (mode : Z) :
  known_mode mode ->
  url_encode url mode = try_chars (encode_char (keep_of_mode mode)) url.
Proof.
  intros [-> | [-> | ->]]; unfold url_encode, keep_of_mode, re_sub_try;
    cbn [Z.eqb URL_ENCODE_DATA URL_ENCODE_PATH URL_ENCODE_READABLE Pos.eqb].
  - pose proof (join_cls_try (fun c => negb (unreserved c)) _url_encode
               (fun c => bind (utf8_encode_char c)
                              (fun b => Ok (flat_map percent_byte b))) url []
               url_encode_match_try) as H.
    cbn [app length] in H. unfold _url_encode_re. rewrite H.
    apply try_chars_ext. intros c. unfold encode_char.
    destruct (unreserved c); reflexivity.
  - pose proof (join_cls_try (fun c => negb (unreserved c || (c =? 47)))
               _url_encode
               (fun c => bind (utf8_encode_char c)
                              (fun b => Ok (flat_map percent_byte b))) url []
               url_encode_match_try) as H.
    cbn [app length] in H. unfold _url_encode_path_re. rewrite H.
    apply try_chars_ext. intros c. unfold encode_char, keep_path.
    destruct (unreserved c || (c =? 47)); reflexivity.
  - pose proof (join_cls_try (fun c => negb (unreserved c))
               _url_encode_readable
               (fun c => if (c =? 32) || (127 <? c)
                         then bind (utf8_encode_char c)
                                   (fun b => Ok (flat_map percent_byte b))
                         else Ok [c]) url []
               url_encode_readable_match) as H.
    cbn [app length] in H. unfold _url_encode_re. rewrite H.
    apply try_chars_ext. intros c. unfold encode_char, keep_readable.
    destruct (unreserved c); [reflexivity|].
    destruct ((c =? 32) || (127 <? c)); reflexivity.
Qed.

Lemma try_chars_scalar (keep : char -> bool) (s : str) :
  Forall scalar s -> try_chars (encode_char keep) s = Ok (pct_encode keep s).
Proof.
  induction 1 as [|c s [_ Hc] _ IH]; [reflexivity|].
  cbn [try_chars]. unfold pct_encode in *. cbn [flat_map]. rewrite IH.
  unfold encode_char, utf8_encode_char. rewrite Hc.
  destruct (keep c); reflexivity.
Qed.

Lemma url_encode_chars (url : str) (mode : Z) :
  known_mode mode -> Forall scalar url ->
  url_encode url mode = Ok (pct_encode (keep_of_mode mode) url).
Proof.
  intros Hm Hs. rewrite url_encode_try by assumption.
  apply try_chars_scalar, Hs.
Qed.

Lemma try_chars_surrogate (keep : char -> bool) (s : str) :
  (forall c, is_surrogate c = true -> keep c = false) ->
  Exists (fun c => is_surrogate c = true) s ->
  try_chars (encode_char keep) s = Raise UnicodeEncodeError.
Proof.
  intros Hk. induction 1 as [c s Hc|c s _ IH]; cbn [try_chars].
  - unfold encode_char, utf8_encode_char. rewrite (Hk c Hc), Hc. reflexivity.
  - rewrite IH. unfold encode_char, utf8_encode_char.
    destruct (keep c); [reflexivity|].
    destruct (is_surrogate c); reflexivity.
Qed.

Lemma try_chars_no_surrogate (keep : char -> bool) (s : str) :
  Forall (fun c => is_surrogate c = false) s ->
  try_chars (encode_char keep) s = Ok (pct_encode keep s).
Proof.
  induction 1 as [|c s Hc _ IH]; [reflexivity|].
  cbn [try_chars]. unfold pct_encode in *. cbn [flat_map]. rewrite IH.
  unfold encode_char, utf8_encode_char. rewrite Hc.
  destruct (keep c); reflexivity.
Qed.

Lemma surrogate_not_kept (mode : Z) (c : char) :
  is_surrogate c = true -> keep_of_mode mode c = false.
Proof.
  unfold is_surrogate. intros H. bool_to_prop.
  assert (Hu : unreserved c = false).
  { unfold unreserved, is_upper, is_lower, is_digit, in_range. zbool. }
  unfold keep_of_mode.
  destruct (mode =? URL_ENCODE_DATA); [exact Hu|].
  destruct (mode =? URL_ENCODE_PATH); unfold keep_path, keep_readable;
    rewrite Hu; zbool.
Qed.

Lemma surrogate_or_not (s : str) :
  Exists (fun c => is_surrogate c = true) s \/
  Forall (fun c => is_surrogate c = false) s.
Proof.
  induction s as [|c s [IH|IH]].
  - right. constructor.
  - left. apply Exists_cons_tl, IH.
  - destruct (is_surrogate c) eqn:Hc.
    + left. apply Exists_cons_hd, Hc.
    + right. constructor; assumption.
Qed.

Lemma unreserved_kept (mode : Z) (c : char) :
  unreserved c = true -> keep_of_mode mode c = true.
Proof.
  intros H. unfold keep_of_mode.
  destruct (mode =? URL_ENCODE_DATA); [exact H|].
  destruct (mode =? URL_ENCODE_PATH); unfold keep_path, keep_readable;
    rewrite H; reflexivity.
Qed.

Lemma hex_digit_unreserved n : 0 <= n < 16 -> unreserved (hex_digit n) = true.
Proof.
  intros H.
  unfold hex_digit, unreserved, is_upper, is_lower, is_digit, in_range.
  zbool.
Qed.

Lemma keep_of_mode_ascii (mode : Z) (c : char) :
  0 <= c -> keep_of_mode mode c = true -> ascii_char c.
Proof.
  unfold keep_of_mode, keep_path, keep_readable, ascii_char. intros H0.
  assert (Hu : unreserved c = true -> 0 <= c < 0x80)
    by (intros H; apply unreserved_ascii in H; lia).
  destruct (mode =? URL_ENCODE_DATA); [exact Hu|].
  destruct (mode =? URL_ENCODE_PATH); intros H;
    apply orb_true_iff in H; destruct H as [H|H]; auto.
  - apply Z.eqb_eq in H. lia.
  - apply negb_true_iff, orb_false_iff in H. destruct H as [_ H].
    apply Z.ltb_ge in H. lia.
Qed.

(** The characters of an encoded string. *)
Lemma pct_encode_safe (mode : Z) (s : str) :
  Forall scalar s ->
  Forall (fun c => ascii_char c /\ (keep_of_mode mode c = true \/ c = PCT))
         (pct_encode (keep_of_mode mode) s).
Proof.
  induction 1 as [|c s Hc _ IH]; [constructor|].
  unfold pct_encode in *. cbn [flat_map]. apply Forall_app. split; [|exact IH].
  destruct (keep_of_mode mode c) eqn:Hk.
  - constructor; [|constructor]. split; [|left; exact Hk].
    destruct Hc as [[Hlo _] _]. apply (keep_of_mode_ascii mode); assumption.
  - apply Forall_flat_map.
    eapply Forall_impl; [|apply (utf8_char_bytes_octets c Hc)].
    intros b Hb. destruct (octet_split b Hb) as [Hq [Hr _]].
    unfold percent_byte.
    constructor; [|constructor; [|constructor; [|constructor]]]; split.
    + unfold ascii_char, PCT. lia.
    + right. reflexivity.
    + apply hex_digit_ascii, Hq.
    + left. apply unreserved_kept, hex_digit_unreserved, Hq.
    + apply hex_digit_ascii, Hr.
    + left. apply unreserved_kept, hex_digit_unreserved, Hr.
Qed.

(** X7.  [url_encode]: the encoded URL holds only ASCII characters, and each
    of them is a character that the mode leaves alone or the percent
    sign of an escape.  So no space and no [/] comes out of the DATA
    mode, and no space out of any mode. *)
Theorem url_encode_safe (url : str) (mode : Z) :
  known_mode mode -> Forall scalar url ->
  exists out,
    url_encode url mode = Ok out /\
    Forall (fun c => ascii_char c /\ (keep_of_mode mode c = true \/ c = PCT))
           out.
Proof.
  intros Hm Hs. exists (pct_encode (keep_of_mode mode) url). split.
  - apply url_encode_chars; assumption.
  - apply pct_encode_safe, Hs.
Qed.

Lemma url_encode_safe_witness :
  exists out,
    url_encode (py "a b/c%7e" ++ [233]) URL_ENCODE_PATH = Ok out /\
    Forall (fun c => ascii_char c /\
                     (keep_of_mode URL_ENCODE_PATH c = true \/ c = PCT)) out.
Proof.
  apply url_encode_safe; [right; left; reflexivity|all_scalar].
Defined.

Example url_encode_modes_demo :
  url_encode (py "a b/c%7e~" ++ [233]) URL_ENCODE_DATA
    = Ok (py "a%20b%2Fc%257e~%C3%A9") /\
  url_encode (py "a b/c%7e~" ++ [233]) URL_ENCODE_PATH
    = Ok (py "a%20b/c%257e~%C3%A9") /\
  url_encode (py "a b/c%7e~" ++ [233]) URL_ENCODE_READABLE
    = Ok (py "a%20b/c%7e~%C3%A9").
Proof. vm_compute. repeat split. Qed.

(** X8.  [url_encode] raises exactly when the string holds a lone surrogate,
    and then it raises [UnicodeEncodeError]: such a character is outside
    every class of kept characters and has no UTF-8 form. *)
Theorem url_encode_surrogate (url : str) (mode : Z) :
  known_mode mode ->
  (Exists (fun c => is_surrogate c = true) url ->
   url_encode url mode = Raise UnicodeEncodeError) /\
  (Forall (fun c => is_surrogate c = false) url ->
   exists out, url_encode url mode = Ok out).
Proof.
  intros Hm. rewrite url_encode_try by assumption. split; intros H.
  - apply try_chars_surrogate; [|exact H].
    intros c. apply surrogate_not_kept.
  - eexists. apply try_chars_no_surrogate, H.
Qed.

Lemma url_encode_surrogate_witness :
  url_encode (py "a/" ++ [0xD800]) URL_ENCODE_READABLE =
  Raise UnicodeEncodeError.
Proof.
  apply (url_encode_surrogate (py "a/" ++ [0xD800]) URL_ENCODE_READABLE).
  - right. right. reflexivity.
  - apply Exists_cons_tl, Exists_cons_tl, Exists_cons_hd. reflexivity.
Defined.

Lemma pct_encode_kept (keep : char -> bool) (s : str) :
  Forall (fun c => keep c = true) s -> pct_encode keep s = s.
Proof.
  induction 1 as [|c s Hc _ IH]; [reflexivity|].
  unfold pct_encode in *. cbn [flat_map]. rewrite Hc, IH. reflexivity.
Qed.

(** X9.  [url_encode] in the READABLE mode can be applied to a URL that is
    encoded already: encoding twice is encoding once. *)
Theorem url_encode_readable_twice (url : str) :
  Forall scalar url ->
  bind (url_encode url URL_ENCODE_READABLE)
       (fun e => url_encode e URL_ENCODE_READABLE) =
  url_encode url URL_ENCODE_READABLE.
Proof.
  intros Hs.
  assert (Hm : known_mode URL_ENCODE_READABLE) by (right; right; reflexivity).
  rewrite (url_encode_chars url) by assumption. cbn [bind].
  pose proof (pct_encode_safe URL_ENCODE_READABLE url Hs) as Hout.
  set (out := pct_encode (keep_of_mode URL_ENCODE_READABLE) url) in *.
  rewrite url_encode_try by assumption.
  rewrite try_chars_no_surrogate.
  - f_equal. apply pct_encode_kept.
    eapply Forall_impl; [|exact Hout]. cbv beta.
    intros c [_ [H|H]]; [exact H|]. subst c. reflexivity.
  - eapply Forall_impl; [|exact Hout]. cbv beta.
    intros c [[H1 H2] _]. unfold is_surrogate. zbool.
Qed.

Lemma url_encode_readable_twice_witness :
  bind (url_encode (py "a b%20c%7e" ++ [233]) URL_ENCODE_READABLE)
       (fun e => url_encode e URL_ENCODE_READABLE) =
  url_encode (py "a b%20c%7e" ++ [233]) URL_ENCODE_READABLE.
Proof.
  apply url_encode_readable_twice. all_scalar.
Defined.

(** ** Decoding what [url_encode] gave *)

Lemma decode_low_encoded_keep (keep : char -> bool) (s : str) :
  (forall c, keep c = true -> c < 0x80 /\ c <> PCT) ->
  Forall scalar s ->
  pct_decode is_low (pct_encode keep s) = pct_encode is_ascii s.
Proof.
  intros Hkeep. induction 1 as [|c s Hc _ IH]; [reflexivity|].
  unfold pct_encode in *. cbn [flat_map].
  destruct (keep c) eqn:Hu.
  - destruct (Hkeep c Hu) as [Hr Hp].
    unfold is_ascii at 1. rewrite (proj2 (Z.ltb_lt _ _)) by lia.
    cbn [app]. rewrite pct_decode_copy by (apply starts_escape_not_pct, Hp).
    rewrite IH. reflexivity.
  - unfold is_ascii at 1. destruct (Z.ltb_spec c 0x80).
    + rewrite utf8_char_bytes_ascii by assumption. cbn [flat_map].
      rewrite app_nil_r. destruct Hc as [[Hlo _] _].
      rewrite pct_decode_byte, IH; [reflexivity|unfold octet; lia|].
      apply is_low_digit. Z.div_mod_to_equations. lia.
    + rewrite pct_decode_keep_bytes, IH; [reflexivity|].
      eapply Forall_impl; [|apply (high_octets c Hc); lia].
      cbv beta. intros b [Hb Hq]. split; [exact Hb|].
      apply is_low_digit_high, Hq.
Qed.

Lemma keep_path_ascii (c : char) :
  keep_path c = true -> c < 0x80 /\ c <> PCT.
Proof.
  unfold keep_path. intros H. apply orb_true_iff in H. destruct H as [H|H].
  - apply unreserved_ascii in H. lia.
  - apply Z.eqb_eq in H. subst c. unfold PCT. lia.
Qed.

(** Decoding an encoding, whatever the kept characters, in the modes
    other than READABLE. *)
Lemma url_decode_encoded (keep : char -> bool) (s : str) (mode : Z) :
  (forall c, keep c = true -> c < 0x80 /\ c <> PCT) ->
  (mode =? URL_ENCODE_READABLE) = false ->
  Forall scalar s ->
  has_escape is_high s = false ->
  url_decode (pct_encode keep s) mode = Ok s.
Proof.
  intros Hkeep Hmode Hs Hesc.
  rewrite url_decode_chars, Hmode. cbv beta iota zeta.
  rewrite (decode_low_encoded_keep keep) by assumption.
  rewrite utf8_encode_ascii by (apply encoded_ascii, Hs). cbn [bind].
  rewrite decode_high_encoded by assumption.
  rewrite utf8_decode_bytes_of by assumption. reflexivity.
Qed.

(** X10.  The PATH mode, the default of both functions: for every string of
    Unicode scalar values that holds no text shaped like the escape of a
    high octet, [url_decode] gives back what [url_encode] was given. *)
Theorem url_decode_encode_path (s : str) :
  Forall scalar s ->
  has_escape is_high s = false ->
  bind (url_encode s URL_ENCODE_PATH)
       (fun e => url_decode e URL_ENCODE_PATH) = Ok s.
Proof.
  intros Hs Hesc.
  rewrite url_encode_chars by (try assumption; right; left; reflexivity).
  cbn [bind]. change (keep_of_mode URL_ENCODE_PATH) with keep_path.
  apply url_decode_encoded; try assumption; [apply keep_path_ascii|reflexivity].
Qed.

Lemma url_decode_encode_path_witness :
  bind (url_encode (py "/home/me/50% of a b%41%zz%" ++ [233; 8364])
                   URL_ENCODE_PATH)
       (fun e => url_decode e URL_ENCODE_PATH) =
  Ok (py "/home/me/50% of a b%41%zz%" ++ [233; 8364]).
Proof.
  apply url_decode_encode_path; [all_scalar|vm_compute; reflexivity].
Defined.

Lemma startswith_pct20_inv a s :
  startswith (a :: s) (py "%20") = true ->
  a = PCT /\ exists t, s = 50 :: 48 :: t.
Proof.
  intros H. destruct (startswith_pct20 _ H) as [t Ht].
  change (py "%20" ++ t) with (37 :: 50 :: 48 :: t) in Ht.
  split; [unfold PCT; congruence|]. exists t. congruence.
Qed.

Lemma replace_copy a s :
  a <> PCT ->
  replace (a :: s) (py "%20") (py " ") = a :: replace s (py "%20") (py " ").
Proof.
  intros Ha. rewrite replace_pct20_cons.
  destruct (startswith (a :: s) (py "%20")) eqn:E; [|reflexivity].
  apply startswith_pct20_inv in E. tauto.
Qed.

Lemma replace_copy_pct x s :
  x <> 50 ->
  replace (PCT :: x :: s) (py "%20") (py " ") =
  PCT :: replace (x :: s) (py "%20") (py " ").
Proof.
  intros Hx. rewrite replace_pct20_cons.
  destruct (startswith (PCT :: x :: s) (py "%20")) eqn:E; [|reflexivity].
  apply startswith_pct20_inv in E. destruct E as [_ [t E]]. congruence.
Qed.

Lemma replace_pct20_head rest :
  replace (py "%20" ++ rest) (py "%20") (py " ") =
  SPC :: replace rest (py "%20") (py " ").
Proof.
  change (py "%20" ++ rest) with (37 :: 50 :: 48 :: rest).
  rewrite replace_pct20_cons. destruct rest; reflexivity.
Qed.

Lemma replace_high_byte b rest :
  octet b -> 8 <= b / 16 < 16 ->
  replace (percent_byte b ++ rest) (py "%20") (py " ") =
  percent_byte b ++ replace rest (py "%20") (py " ").
Proof.
  intros Hb Hq. destruct (octet_split b Hb) as [_ [Hr _]].
  unfold percent_byte. cbn [app].
  rewrite replace_copy_pct by (unfold hex_digit; zbool).
  rewrite replace_copy by (apply hex_digit_not_pct; lia).
  rewrite replace_copy by (apply hex_digit_not_pct; lia).
  reflexivity.
Qed.

Lemma replace_high_bytes bs rest :
  Forall (fun b => octet b /\ 8 <= b / 16 < 16) bs ->
  replace (flat_map percent_byte bs ++ rest) (py "%20") (py " ") =
  flat_map percent_byte bs ++ replace rest (py "%20") (py " ").
Proof.
  induction 1 as [|b bs [Hb Hq] _ IH]; [reflexivity|].
  cbn [flat_map]. rewrite <- !app_assoc.
  rewrite replace_high_byte, IH by assumption. reflexivity.
Qed.

Lemma keep_readable_spec (c : char) :
  0 <= c ->
  keep_readable c = negb ((c =? 32) || (127 <? c)).
Proof.
  intros H. unfold keep_readable.
  destruct (unreserved c) eqn:Hu; [|reflexivity].
  pose proof (unreserved_ascii c Hu) as [Hr _].
  assert (c <> 32).
  { intros ->. discriminate Hu. }
  cbn [orb]. zbool.
Qed.

(** The head of an encoding: a kept character or a percent sign. *)
Lemma encoded_head (keep : char -> bool) (c : char) (s : str) :
  exists t,
    pct_encode keep (c :: s) = (if keep c then c else PCT) :: t.
Proof.
  unfold pct_encode. cbn [flat_map]. destruct (keep c).
  - eexists. reflexivity.
  - unfold utf8_char_bytes.
    destruct (c <? 0x80), (c <? 0x800), (c <? 0x10000);
      eexists; reflexivity.
Qed.

Lemma occurs_tail pat c s :
  occurs pat (c :: s) = false ->
  startswith (c :: s) pat = false /\ occurs pat s = false.
Proof. cbn [occurs]. apply orb_false_iff. Qed.

Lemma encoded_one (keep : char -> bool) (s : str) (x : char) (t : str) :
  pct_encode keep s = x :: t -> x <> PCT ->
  exists s', s = x :: s' /\ t = pct_encode keep s'.
Proof.
  destruct s as [|c s]; [discriminate|]. intros H Hx.
  destruct (encoded_head keep c s) as [t' Ht]. pose proof H as H'.
  rewrite Ht in H'. destruct (keep c) eqn:Hk; [|congruence].
  unfold pct_encode in H. cbn [flat_map] in H. rewrite Hk in H.
  cbn [app] in H. injection H as H1 H2. subst x t.
  exists s. split; reflexivity.
Qed.

(** A percent sign that is not followed by [20] is not followed by it
    after encoding. *)
Lemma encoded_pct20 (keep : char -> bool) (s : str) :
  startswith (PCT :: s) (py "%20") = false ->
  startswith (PCT :: pct_encode keep s) (py "%20") = false.
Proof.
  intros H. destruct (startswith (PCT :: pct_encode keep s) (py "%20")) eqn:E;
    [|reflexivity].
  apply startswith_pct20_inv in E. destruct E as [_ [t E]].
  apply encoded_one in E; [|unfold PCT; lia]. destruct E as [s' [-> E]].
  symmetry in E. apply encoded_one in E; [|unfold PCT; lia].
  destruct E as [s'' [-> _]].
  rewrite <- H. destruct s''; reflexivity.
Qed.

(** Replacing [%20] in a READABLE encoding undoes the escapes of the
    spaces and nothing else. *)
Lemma replace_encoded (s : str) :
  Forall scalar s ->
  occurs (py "%20") s = false ->
  replace (pct_encode keep_readable s) (py "%20") (py " ") =
  pct_encode is_ascii s.
Proof.
  induction 1 as [|c s Hc Hs IH]; intros Hocc; [reflexivity|].
  apply occurs_tail in Hocc. destruct Hocc as [Hhead Hocc].
  specialize (IH Hocc).
  pose proof Hc as [[Hlo _] _].
  unfold pct_encode in *. cbn [flat_map].
  rewrite (keep_readable_spec c Hlo). unfold is_ascii at 1.
  destruct (Z.eqb_spec c 32) as [->|Hsp].
  - cbn [orb negb flat_map utf8_char_bytes Z.ltb Z.compare Pos.compare
         Pos.compare_cont app].
    change (percent_byte 32 ++ []) with (py "%20").
    rewrite replace_pct20_head, IH. reflexivity.
  - cbn [orb]. destruct (Z.ltb_spec 127 c) as [Hhi|Hasc].
    + cbn [negb]. rewrite (proj2 (Z.ltb_ge _ _)) by lia.
      rewrite replace_high_bytes, IH; [reflexivity|].
      apply high_octets; [exact Hc|lia].
    + cbn [negb]. rewrite (proj2 (Z.ltb_lt _ _)) by lia. cbn [app].
      destruct (Z.eq_dec c PCT) as [->|Hp].
      * rewrite replace_pct20_cons.
        pose proof (encoded_pct20 keep_readable s Hhead) as Hp.
        unfold pct_encode in Hp. rewrite Hp, IH. reflexivity.
      * rewrite replace_copy, IH by assumption. reflexivity.
Qed.

(** X11.  The READABLE mode: for every string of Unicode scalar values that
    holds neither the text [%20] nor text shaped like the escape of a
    high octet, [url_decode] gives back what [url_encode] was given. *)
Theorem url_decode_encode_readable (s : str) :
  Forall scalar s ->
  has_escape is_high s = false ->
  occurs (py "%20") s = false ->
  bind (url_encode s URL_ENCODE_READABLE)
       (fun e => url_decode e URL_ENCODE_READABLE) = Ok s.
Proof.
  intros Hs Hesc Hocc.
  rewrite url_encode_chars by (try assumption; right; right; reflexivity).
  cbn [bind]. rewrite url_decode_chars.
  change (URL_ENCODE_READABLE =? URL_ENCODE_READABLE) with true.
  cbv beta iota zeta.
  change (keep_of_mode URL_ENCODE_READABLE) with keep_readable.
  rewrite replace_encoded by assumption.
  rewrite utf8_encode_ascii by (apply encoded_ascii, Hs). cbn [bind].
  rewrite decode_high_encoded by assumption.
  rewrite utf8_decode_bytes_of by assumption. reflexivity.
Qed.

Lemma url_decode_encode_readable_witness :
  bind (url_encode (py "http://a.b/50% of a b%41%zz%" ++ [233; 8364])
                   URL_ENCODE_READABLE)
       (fun e => url_decode e URL_ENCODE_READABLE) =
  Ok (py "http://a.b/50% of a b%41%zz%" ++ [233; 8364]).
Proof.
  apply url_decode_encode_readable;
    [all_scalar|vm_compute; reflexivity|vm_compute; reflexivity].
Defined.

(** Without the condition on [%20] the round trip fails: the text [%20]
    is kept by [url_encode] and read as a space by [url_decode]. *)
Example url_decode_encode_readable_pct20 :
  bind (url_encode (py "a%20b") URL_ENCODE_READABLE)
       (fun e => url_decode e URL_ENCODE_READABLE) = Ok (py "a b").
Proof. vm_compute. reflexivity. Qed.

(** ** [url_decode] of text without escapes *)

Lemma has_escape_weaken (first first' : char -> bool) (s : str) :
  (forall x, first x = true -> first' x = true) ->
  has_escape first' s = false -> has_escape first s = false.
Proof.
  intros Hsub. induction s as [|c s IH]; [reflexivity|].
  cbn [has_escape]. intros H. apply orb_false_iff in H. destruct H as [H1 H2].
  rewrite (IH H2), orb_false_r.
  destruct s as [|x [|y s]]; try reflexivity.
  cbn [starts_escape] in *.
  destruct (c =? PCT); [|reflexivity].
  destruct (is_hex y); [|apply andb_false_r].
  cbn [andb] in *. rewrite andb_true_r in *.
  destruct (first x) eqn:E; [|reflexivity].
  rewrite (Hsub x E) in H1. exact H1.
Qed.

Lemma is_low_is_hex c : is_low c = true -> is_hex c = true.
Proof. unfold is_low, is_hex, is_digit, in_range. zbool. Qed.

Lemma pct_decode_none (first : char -> bool) (s : str) :
  has_escape first s = false -> pct_decode first s = s.
Proof.
  induction s as [|c s IH]; [reflexivity|].
  cbn [has_escape]. intros H. apply orb_false_iff in H. destruct H as [H1 H2].
  rewrite pct_decode_copy, IH by assumption. reflexivity.
Qed.

Lemma replace_none (s : str) :
  has_escape is_hex s = false -> replace s (py "%20") (py " ") = s.
Proof.
  induction s as [|c s IH]; [reflexivity|].
  cbn [has_escape]. intros H. apply orb_false_iff in H. destruct H as [H1 H2].
  rewrite replace_pct20_cons.
  destruct (startswith (c :: s) (py "%20")) eqn:E.
  - apply startswith_pct20_inv in E. destruct E as [-> [t ->]].
    discriminate H1.
  - rewrite IH by assumption. reflexivity.
Qed.

(** X12.  A string of Unicode scalar values in which no percent sign is
    followed by two hexadecimal digits comes out of [url_decode] as it
    went in, whatever the mode. *)
Theorem url_decode_plain (url : str) (mode : Z) :
  Forall scalar url ->
  has_escape is_hex url = false ->
  url_decode url mode = Ok url.
Proof.
  intros Hs Hesc.
  assert (Hhigh : has_escape is_high url = false)
    by (apply (has_escape_weaken _ is_hex); [apply is_high_is_hex|exact Hesc]).
  assert (Hlow : has_escape is_low url = false)
    by (apply (has_escape_weaken _ is_hex); [apply is_low_is_hex|exact Hesc]).
  rewrite url_decode_chars.
  assert (E : (if mode =? URL_ENCODE_READABLE
               then replace url (py "%20") (py " ")
               else pct_decode is_low url) = url).
  { destruct (mode =? URL_ENCODE_READABLE);
      [apply replace_none|apply pct_decode_none]; assumption. }
  rewrite E. cbv zeta.
  rewrite utf8_encode_scalar by assumption. cbn [bind].
  rewrite decode_high_plain by assumption.
  rewrite utf8_decode_bytes_of by assumption. reflexivity.
Qed.

Lemma url_decode_plain_witness :
  url_decode (py "100% sure %4 %zz" ++ [233; 8364]) URL_ENCODE_READABLE =
  Ok (py "100% sure %4 %zz" ++ [233; 8364]).
Proof.
  apply url_decode_plain; [all_scalar|vm_compute; reflexivity].
Defined.

(** ** Backslash escapes, further *)

Lemma match_unesc_newline subject pos rest :
  match_here (Cat (Chr BSL) (Cls dot)) subject pos (BSL :: LF :: rest) = None.
Proof.
  unfold match_here, start_state, dot.
  cbn [ms m_rest flat_map]. rewrite Z.eqb_refl.
  cbn [flat_map advance m_rest app]. reflexivity.
Qed.

Lemma match_unesc_last subject pos :
  match_here (Cat (Chr BSL) (Cls dot)) subject pos [BSL] = None.
Proof. reflexivity. Qed.

Lemma unescape_chars_copy (c : char) (s : str) :
  c <> BSL -> unescape_chars (c :: s) = c :: unescape_chars s.
Proof.
  intros Hc. cbn [unescape_chars].
  rewrite (proj2 (Z.eqb_neq c BSL) Hc). destruct s; reflexivity.
Qed.

Lemma unescape_scan_chars (n : nat) : forall rest pre,
  (length rest <= n)%nat ->
  render _unescape (scan (Cat (Chr BSL) (Cls dot)) (pre ++ rest) (length pre)
                         rest 0) =
  unescape_chars rest.
Proof.
  induction n as [|n IH]; intros rest pre Hn.
  - destruct rest; [reflexivity|cbn [length] in Hn; lia].
  - destruct rest as [|c rest]; [reflexivity|]. cbn [length] in Hn.
    destruct (Z.eq_dec c BSL) as [->|Hc].
    + destruct rest as [|d rest].
      * rewrite scan_copy by apply match_unesc_last. reflexivity.
      * cbn [length] in Hn. destruct (Z.eq_dec d LF) as [->|Hd].
        -- rewrite scan_copy by apply match_unesc_newline.
           rewrite render_copy, (snoc_assoc pre BSL), <- (length_snoc pre BSL).
           rewrite IH by (cbn [length]; lia). reflexivity.
        -- rewrite unescape_pair by assumption.
           rewrite IH by lia. cbn [unescape_chars]. unfold dot.
           rewrite Z.eqb_refl, (proj2 (Z.eqb_neq d LF) Hd). reflexivity.
    + rewrite unescape_plain by assumption.
      rewrite IH by lia. rewrite unescape_chars_copy by assumption.
      reflexivity.
Qed.

(** X3.  [unescape_string] reads the text from left to right: a backslash
    and the character after it, unless that is a newline, give that
    character, or a newline for [n] and a tab for [t]; every other
    character stays, and so does a backslash before a newline or at the
    end of the text. *)
Theorem unescape_string_chars (string : str) :
  unescape_string string = unescape_chars string.
Proof.
  unfold unescape_string, re_sub.
  exact (unescape_scan_chars (length string) string [] (le_n _)).
Qed.

Lemma escape_class_member (chars : str) (c : char) :
  escape_class chars c = true ->
  c = LF \/ c = CR \/ c = TAB \/ c = BSL \/ In c chars.
Proof.
  unfold escape_class, contains. rewrite existsb_exists.
  intros [x [Hin Heq]]. apply Z.eqb_eq in Heq. subst x.
  cbn [app In] in Hin.
  destruct Hin as [H|[H|[H|[H|H]]]]; subst; auto.
Qed.

Lemma escape_class_control (chars : str) (c : char) :
  c = LF \/ c = CR \/ c = TAB \/ c = BSL -> escape_class chars c = true.
Proof.
  unfold escape_class, contains. rewrite existsb_exists. intros H.
  exists c. split; [|apply Z.eqb_refl].
  apply in_or_app. left. cbn [In]. intuition.
Qed.

(** The second character of an escape: never a newline, a carriage
    return or a tab, and [n], [r], [t] only for these three. *)
Lemma escape_char_shape (chars : str) (c : char) :
  (escape_class chars c = false /\ escape_char chars c = [c] /\
   c <> LF /\ c <> CR /\ c <> TAB /\ c <> BSL) \/
  (exists d, escape_class chars c = true /\ escape_char chars c = [BSL; d] /\
             d <> LF /\ d <> CR /\ d <> TAB /\
             (c = LF /\ d = 110 \/ c = CR /\ d = 114 \/ c = TAB /\ d = 116 \/
              c <> LF /\ c <> CR /\ c <> TAB /\ d = c /\
              (c = BSL \/ In c chars))).
Proof.
  unfold escape_char. destruct (escape_class chars c) eqn:Hcls.
  - right.
    destruct (Z.eqb_spec c LF) as [->|Hlf].
    { exists 110. unfold LF, CR, TAB. repeat split; lia. }
    destruct (Z.eqb_spec c CR) as [->|Hcr].
    { exists 114. unfold LF, CR, TAB. repeat split; lia. }
    destruct (Z.eqb_spec c TAB) as [->|Htab].
    { exists 116. unfold LF, CR, TAB. repeat split; lia. }
    exists c. repeat split; try assumption.
    right; right; right. repeat split; try assumption.
    apply escape_class_member in Hcls. tauto.
  - left. repeat split; intros ->;
      rewrite escape_class_control in Hcls by auto; discriminate Hcls.
Qed.

Lemma unescape_chars_pair (d : char) (s : str) :
  d <> LF -> unescape_chars (BSL :: d :: s) = unescaped d :: unescape_chars s.
Proof.
  intros Hd. cbn [unescape_chars]. unfold dot.
  rewrite Z.eqb_refl, (proj2 (Z.eqb_neq d LF) Hd). reflexivity.
Qed.

(** X4.  Escaping and unescaping restores every character but the carriage
    return, which comes back as the letter [r]: [_escape] writes it as
    backslash and [r], and [_unescape] knows only [n] and [t]. *)
Theorem unescape_escape_string (T C : str) :
  plain_chars C -> ~ In 110 C -> ~ In 116 C ->
  unescape_string (escape_string T C) = map cr_as_letter T.
Proof.
  intros _ Hn Ht. rewrite unescape_string_chars, escape_string_chars.
  induction T as [|c T IH]; [reflexivity|].
  cbn [flat_map map].
  destruct (escape_char_shape C c)
    as [[_ [-> [_ [Hcr [_ Hb]]]]]|[d [_ [-> [Hlf [_ [_ Hd]]]]]]]; cbn [app].
  - rewrite unescape_chars_copy, IH by assumption.
    unfold cr_as_letter. rewrite (proj2 (Z.eqb_neq c CR) Hcr). reflexivity.
  - rewrite unescape_chars_pair, IH by assumption. f_equal.
    unfold unescaped, cr_as_letter.
    destruct Hd as [[-> ->]|[[-> ->]|[[-> ->]|[_ [Hcr [_ [-> Hin]]]]]]];
      try reflexivity.
    rewrite (proj2 (Z.eqb_neq c CR) Hcr).
    destruct (Z.eqb_spec c 110) as [->|_].
    { destruct Hin as [H|H]; [discriminate H|contradiction]. }
    destruct (Z.eqb_spec c 116) as [->|_].
    { destruct Hin as [H|H]; [discriminate H|contradiction]. }
    reflexivity.
Qed.

Lemma unescape_escape_string_witness :
  unescape_string (escape_string (py "a,b\c" ++ [LF; CR; TAB]) (py ",;")) =
  map cr_as_letter (py "a,b\c" ++ [LF; CR; TAB]).
Proof.
  apply unescape_escape_string; not_in.
Defined.

(** X1.  The escaped text holds no newline, no carriage return and no tab:
    it stays on one line. *)
Theorem escape_string_one_line (T C : str) :
  plain_chars C ->
  Forall (fun c => c <> LF /\ c <> CR /\ c <> TAB) (escape_string T C).
Proof.
  intros _. rewrite escape_string_chars. apply Forall_flat_map.
  apply Forall_forall. intros c _.
  destruct (escape_char_shape C c)
    as [[_ [-> [Hlf [Hcr [Htab _]]]]]|[d [_ [-> [Hlf [Hcr [Htab _]]]]]]].
  - constructor; [tauto|constructor].
  - constructor; [unfold BSL, LF, CR, TAB; lia|].
    constructor; [tauto|constructor].
Qed.

Lemma escape_string_one_line_witness :
  Forall (fun c => c <> LF /\ c <> CR /\ c <> TAB)
         (escape_string (py "a,b" ++ [LF; CR; TAB]) (py ",")).
Proof.
  apply escape_string_one_line. not_in.
Defined.

Lemma escape_inverse_copy (c : char) (s : str) :
  c <> BSL -> escape_inverse (c :: s) = c :: escape_inverse s.
Proof.
  intros Hc. cbn [escape_inverse].
  rewrite (proj2 (Z.eqb_neq c BSL) Hc). destruct s; reflexivity.
Qed.

Lemma escape_inverse_escaped (T C : str) :
  ~ In 110 C -> ~ In 114 C -> ~ In 116 C ->
  escape_inverse (flat_map (escape_char C) T) = T.
Proof.
  intros Hn Hr Ht. induction T as [|c T IH]; [reflexivity|].
  cbn [flat_map].
  destruct (escape_char_shape C c)
    as [[_ [-> [_ [_ [_ Hb]]]]]|[d [_ [-> [_ [_ [_ Hd]]]]]]]; cbn [app].
  - rewrite escape_inverse_copy, IH by assumption. reflexivity.
  - cbn [escape_inverse]. rewrite Z.eqb_refl, IH. f_equal.
    destruct Hd as [[-> ->]|[[-> ->]|[[-> ->]|[_ [_ [_ [-> Hin]]]]]]];
      try reflexivity.
    destruct (Z.eqb_spec c 110) as [->|_].
    { destruct Hin as [H|H]; [discriminate H|contradiction]. }
    destruct (Z.eqb_spec c 114) as [->|_].
    { destruct Hin as [H|H]; [discriminate H|contradiction]. }
    destruct (Z.eqb_spec c 116) as [->|_].
    { destruct Hin as [H|H]; [discriminate H|contradiction]. }
    reflexivity.
Qed.

(** X2.  Escaping loses nothing: as long as the extra characters hold none of
    the letters [n], [r] and [t], two texts with the same escaped form
    are the same text. *)
Theorem escape_string_injective (T T' C : str) :
  plain_chars C -> ~ In 110 C -> ~ In 114 C -> ~ In 116 C ->
  escape_string T C = escape_string T' C -> T = T'.
Proof.
  intros _ Hn Hr Ht H. rewrite !escape_string_chars in H.
  rewrite <- (escape_inverse_escaped T C Hn Hr Ht).
  rewrite <- (escape_inverse_escaped T' C Hn Hr Ht).
  rewrite H. reflexivity.
Qed.

Lemma escape_string_injective_witness :
  py "a\n" ++ [LF] = [97; BSL; 110; LF].
Proof.
  apply (escape_string_injective _ _ (py ",")); not_in.
Defined.

(** ** [split_escaped_string] loses nothing *)

Section Joining.

Variable sep : str.
Hypothesis sep_not_empty : sep <> [].

Lemma join_with_cons (p : str) (rest : list str) :
  rest <> [] -> join_with sep (p :: rest) = p ++ sep ++ join_with sep rest.
Proof. destruct rest; [congruence|reflexivity]. Qed.

Lemma split_from_not_empty : forall s k piece, split_from sep s k piece <> [].
Proof.
  induction s as [|c s IH]; intros k piece; cbn [split_from]; [discriminate|].
  destruct k; [|apply IH].
  destruct (startswith (c :: s) sep); [discriminate|apply IH].
Qed.

(** [str.split] and [str.join] are inverse to one another. *)
Lemma split_from_join : forall s k piece,
  (k <= length s)%nat ->
  join_with sep (split_from sep s k piece) = piece ++ skipn k s.
Proof.
  induction s as [|c s IH]; intros k piece Hk.
  - cbn [split_from join_with]. destruct k; cbn [skipn]; rewrite app_nil_r;
      reflexivity.
  - cbn [split_from]. destruct k as [|k].
    + destruct (startswith (c :: s) sep) eqn:E.
      * apply startswith_app in E.
        assert (Hsep : exists x sep', sep = x :: sep')
          by (destruct sep as [|x sep']; [congruence|eauto]).
        destruct Hsep as [x [sep' Hsep]].
        assert (Hskip : skipn (length sep) (c :: s) = skipn (length sep') s)
          by (rewrite Hsep; reflexivity).
        assert (Hlen : (length sep' <= length s)%nat).
        { apply (f_equal (@length char)) in E.
          rewrite length_app, Hsep in E. cbn [length] in E. lia. }
        rewrite join_with_cons by apply split_from_not_empty.
        replace (length sep - 1)%nat with (length sep')
          by (rewrite Hsep; cbn [length]; lia).
        rewrite IH by exact Hlen. cbn [app skipn]. f_equal.
        rewrite <- Hskip. symmetry. exact E.
      * rewrite IH by lia. cbn [skipn]. rewrite <- app_assoc. reflexivity.
    + cbn [length] in Hk. rewrite IH by lia. reflexivity.
Qed.

Lemma join_with_merge : forall front p q rest,
  join_with sep (front ++ (p ++ sep ++ q) :: rest) =
  join_with sep (front ++ p :: q :: rest).
Proof.
  induction front as [|f front IH]; intros p q rest.
  - cbn [app]. rewrite (join_with_cons p) by discriminate.
    destruct rest as [|r rest]; [reflexivity|].
    rewrite !join_with_cons by discriminate.
    rewrite <- !app_assoc. reflexivity.
  - cbn [app]. rewrite !join_with_cons by (destruct front; discriminate).
    rewrite IH. reflexivity.
Qed.

(** The loop keeps the text that its parts and pieces spell. *)
Lemma join_escaped_join : forall pieces parts trailing_backslash,
  (trailing_backslash = true -> parts <> []) ->
  exists out,
    join_escaped sep parts trailing_backslash pieces = Ok out /\
    join_with sep out = join_with sep (parts ++ pieces) /\
    (parts <> [] \/ pieces <> [] -> out <> []).
Proof.
  induction pieces as [|piece pieces IH]; intros parts tb Htb.
  - exists parts. rewrite app_nil_r. repeat split. intros [H|H]; congruence.
  - cbn [join_escaped]. destruct tb.
    + destruct (exists_last (Htb eq_refl)) as [front [p ->]].
      rewrite extend_last_snoc. cbn [bind].
      edestruct (IH (front ++ [p ++ sep ++ piece])) as [out [-> [Hj Hne]]].
      { intros _. destruct front; discriminate. }
      exists out. split; [reflexivity|]. split.
      * rewrite Hj, <- !app_assoc. cbn [app]. apply join_with_merge.
      * intros _. apply Hne. left. destruct front; discriminate.
    + cbn [bind].
      edestruct (IH (parts ++ [piece])) as [out [-> [Hj Hne]]].
      { intros _. destruct parts; discriminate. }
      exists out. split; [reflexivity|]. split.
      * rewrite Hj, <- app_assoc. reflexivity.
      * intros _. apply Hne. left. destruct parts; discriminate.
Qed.

End Joining.

(** X6.  For every separator that is not empty and every text,
    [split_escaped_string] returns a list of parts (the update of the
    last part never fails), the list is not empty, and the parts joined
    with the separator spell the text: nothing is dropped, and no
    backslash is taken out. *)
Theorem split_escaped_string_join (text sep : str) :
  sep <> [] ->
  exists parts,
    split_escaped_string text sep = Ok parts /\
    parts <> [] /\
    join_with sep parts = text.
Proof.
  intros Hsep. unfold split_escaped_string, split.
  destruct sep as [|x sep'] eqn:E; [congruence|]. rewrite <- E in *.
  cbn [bind].
  destruct (join_escaped_join sep (split_from sep text 0 []) [] false)
    as [out [Hout [Hj Hne]]]; [discriminate|].
  exists out. split; [exact Hout|]. split.
  - apply Hne. right. apply split_from_not_empty.
  - rewrite Hj. cbn [app]. rewrite split_from_join by (try assumption; lia).
    reflexivity.
Qed.

Lemma split_escaped_string_join_witness :
  exists parts,
    split_escaped_string (py "a\, b, c\\, d") (py ", ") = Ok parts /\
    parts <> [] /\
    join_with (py ", ") parts = py "a\, b, c\\, d".
Proof.
  apply split_escaped_string_join. discriminate.
Defined.

(** The empty separator is refused, as by [str.split]. *)
Example split_escaped_string_empty_sep :
  split_escaped_string (py "a,b") [] = Raise ValueError.
Proof. reflexivity. Qed.

(** ** [parse_date], further *)

Section MoreDates.

Variable U : unicode.
Variables today_year today_month : Z.

(** What [parse_date] makes of the groups of a match. *)
Lemma parse_date_groups (string : str) (m : rmatch) :
  re_search (_parse_date_re U) string = Some m ->
  exists g1 g2 og3 v1 v2,
    groups m = [Some g1; Some g2; og3] /\
    int U (Some g1) = Ok v1 /\ falsy (Some g1) = false /\
    int U (Some g2) = Ok v2 /\
    (forall g3, og3 = Some g3 ->
       exists v3, int U (Some g3) = Ok v3 /\ falsy (Some g3) = false).
Proof.
  intros Hm. unfold re_search in Hm.
  apply (search_from_here _ string string []) in Hm; [|reflexivity].
  destruct Hm as [pre [rest [Hs Hm]]].
  destruct (date_groups U string pre rest m Hs Hm)
    as [g1 [g2 [og3 [Hg [D1 [D2 D3]]]]]].
  destruct (int_ok U g1 D1) as [v1 [I1 F1]].
  destruct (int_ok U g2 D2) as [v2 [I2 _]].
  exists g1, g2, og3, v1, v2. repeat split; try assumption.
  intros g3 H3. apply int_ok, D3, H3.
Qed.

End MoreDates.

(** X13.  [parse_date] never raises: the groups that it hands to [int] are
    strings of decimal digits, and the day is tested before it is
    used. *)
Theorem parse_date_returns (U : unicode) (today_year today_month : Z)
  (string : str) :
  exists r, parse_date U today_year today_month string = Ok r.
Proof.
  unfold parse_date.
  destruct (re_search (_parse_date_re U) string) as [m|] eqn:Hm;
    [|eexists; reflexivity].
  destruct (parse_date_groups U string m Hm)
    as [g1 [g2 [og3 [v1 [v2 [Hg [I1 [F1 [I2 H3]]]]]]]]].
  rewrite Hg. cbn [len bind].
  destruct (Nat.eqb (length g1) 4).
  - destruct og3 as [g3|]; [|eexists; reflexivity].
    destruct (H3 g3 eq_refl) as [v3 [I3 F3]].
    rewrite F3, F1, I1. cbn [bind].
    destruct (v1 <? 50); [|destruct (v1 <? 1000)];
      cbn [bind]; rewrite I2, I3; eexists; reflexivity.
  - rewrite F1. destruct og3 as [g3|].
    + destruct (H3 g3 eq_refl) as [v3 [I3 F3]].
      rewrite F3, I3. cbn [bind].
      destruct (v3 <? 50); [|destruct (v3 <? 1000)];
        cbn [bind]; rewrite I2, I1; eexists; reflexivity.
    + cbn [falsy]. rewrite I2. cbn [bind].
      destruct (today_month - v2 >=? 6);
        cbn [bind]; rewrite I1; eexists; reflexivity.
Qed.

(** X14.  A date of two numbers.  When the first has four digits the answer is
    [None]: a year and a month are not a date.  Otherwise the numbers
    are the day and the month, and the year is guessed: next year when
    the month lies six months or more before the month of today, this
    year otherwise. *)
Theorem parse_date_guessed_year (U : unicode) (today_year today_month : Z)
  (string : str) (m : rmatch) (g1 g2 : str) :
  re_search (_parse_date_re U) string = Some m ->
  groups m = [Some g1; Some g2; None] ->
  (length g1 = 4%nat ->
   parse_date U today_year today_month string = Ok None) /\
  (length g1 <> 4%nat ->
   exists mo d,
     int U (Some g2) = Ok mo /\ int U (Some g1) = Ok d /\
     parse_date U today_year today_month string =
     Ok (Some (if today_month - mo >=? 6 then today_year + 1 else today_year,
               mo, d))).
Proof.
  intros Hm Hg.
  destruct (parse_date_groups U string m Hm)
    as [g1' [g2' [og3 [v1 [v2 [Hg' [I1 [F1 [I2 _]]]]]]]]].
  rewrite Hg in Hg'. injection Hg' as <- <- <-.
  unfold parse_date. rewrite Hm, Hg. cbn [len bind]. split; intros Hlen.
  - rewrite Hlen. reflexivity.
  - rewrite (proj2 (Nat.eqb_neq _ _) Hlen), F1. cbn [falsy].
    exists v2, v1. split; [exact I2|]. split; [exact I1|].
    rewrite I2. cbn [bind].
    destruct (today_month - v2 >=? 6); cbn [bind]; rewrite I1; reflexivity.
Qed.

Lemma parse_date_guessed_year_witness :
  exists mo d,
    int ascii_only (Some (py "03")) = Ok mo /\
    int ascii_only (Some (py "15")) = Ok d /\
    parse_date ascii_only 2024 11 (py "Journal 15-03") =
    Ok (Some (if 11 - mo >=? 6 then 2024 + 1 else 2024, mo, d)).
Proof.
  destruct (parse_date_guessed_year ascii_only 2024 11 (py "Journal 15-03")
              (RMatch (py "Journal 15-03") 3 8 13
                      [(2, (11, 13)); (1, (8, 10))]%nat)
              (py "15") (py "03")) as [_ H].
  - vm_compute. reflexivity.
  - vm_compute. reflexivity.
  - apply H. vm_compute. discriminate.
Defined.

Example parse_date_guess_demo :
  parse_date ascii_only 2024 11 (py "Journal 15-03")
    = Ok (Some (2025, 3, 15)) /\
  parse_date ascii_only 2024 5 (py "Journal 15-03") = Ok (Some (2024, 3, 15)) /\
  parse_date ascii_only 2024 5 (py "2024-03") = Ok None /\
  parse_date ascii_only 2024 5 (py "no date") = Ok None.
Proof. vm_compute. repeat split. Qed.

(** ** [valid_interwiki_key] and the keyword pattern *)

Section Keywords.

Variable U : unicode.

Let fix_char (c : char) : char := if is_scheme_char U c then c else 95.

Lemma fix_char_scheme (c : char) : is_scheme_char U (fix_char c) = true.
Proof.
  unfold fix_char. destruct (is_scheme_char U c) eqn:E; [exact E|reflexivity].
Qed.

Lemma fix_char_twice (s : str) : map fix_char (map fix_char s) = map fix_char s.
Proof.
  rewrite map_map. apply map_ext. intros c. unfold fix_char at 1.
  rewrite fix_char_scheme. reflexivity.
Qed.

Lemma fix_char_kept (s : str) :
  Forall (fun c => is_scheme_char U c = true) s -> map fix_char s = s.
Proof.
  induction 1 as [|c s Hc _ IH]; [reflexivity|].
  cbn [map]. unfold fix_char at 1. rewrite Hc, IH. reflexivity.
Qed.

(** The key is made of the characters that the substitution keeps. *)
Lemma valid_interwiki_key_chars (name key : str) :
  valid_interwiki_key U name = Ok key ->
  exists k0 rest,
    key = k0 :: rest /\
    Forall (fun c => is_scheme_char U c = true) key /\
    k0 <> 45 /\ k0 <> 46 /\
    (forall n0 name', name = n0 :: name' ->
       k0 = (if (fix_char n0 =? 45) || (fix_char n0 =? 46)
             then 95 else fix_char n0)).
Proof.
  unfold valid_interwiki_key. rewrite interwiki_sub_chars.
  fold fix_char.
  destruct name as [|n0 name]; [discriminate|]. cbn [map].
  assert (Hall : Forall (fun c => is_scheme_char U c = true)
                        (map fix_char name)).
  { apply Forall_forall. intros c Hc. apply in_map_iff in Hc.
    destruct Hc as [x [<- _]]. apply fix_char_scheme. }
  destruct ((fix_char n0 =? 45) || (fix_char n0 =? 46)) eqn:E; intros H;
    injection H as <-.
  - exists 95, (map fix_char name). cbn [py app skipn].
    change (Z.of_nat (nat_of_ascii "_")) with 95.
    repeat split; try discriminate.
    + constructor; [reflexivity|exact Hall].
    + intros n0' name' H. injection H as <- _. rewrite E. reflexivity.
  - exists (fix_char n0), (map fix_char name).
    apply orb_false_iff in E. destruct E as [E1 E2].
    repeat split.
    + constructor; [apply fix_char_scheme|exact Hall].
    + apply Z.eqb_neq, E1.
    + apply Z.eqb_neq, E2.
    + intros n0' name' H. injection H as <- _. rewrite E1, E2. reflexivity.
Qed.

(** Greedy iteration of a class over text that is all in the class: the
    first way to match takes it all. *)
Lemma star_cls_all (p : char -> bool) : forall s pos caps,
  Forall (fun c => p c = true) s ->
  exists others,
    star_iter (ms (Cls p)) (length s) (MState pos s caps) =
    MState (pos + length s) [] caps :: others.
Proof.
  induction s as [|c s IH]; intros pos caps Hall.
  - exists []. cbn [star_iter length]. rewrite Nat.add_0_r. reflexivity.
  - inversion Hall as [|? ? Hc Hs]; subst.
    destruct (IH (S pos) caps Hs) as [others IH'].
    cbn [length]. rewrite star_iter_S.
    change (ms (Cls p) (MState pos (c :: s) caps))
      with (if p c then [MState (S pos) s caps] else []).
    rewrite Hc. cbn [flat_map m_pos].
    rewrite (proj2 (Nat.ltb_lt pos (S pos))) by lia.
    rewrite IH'. eexists. cbn [app].
    replace (S pos + length s)%nat with (pos + S (length s))%nat by lia.
    reflexivity.
Qed.

Lemma scheme_char_word (c : char) :
  is_scheme_char U c = true -> c <> 43 -> c <> 45 -> c <> 46 ->
  is_word U c = true.
Proof.
  unfold is_scheme_char. intros H H1 H2 H3.
  repeat match type of H with
  | _ || _ = true => apply orb_true_iff in H; destruct H as [H|H]
  end; try exact H; apply Z.eqb_eq in H; contradiction.
Qed.

Lemma keyword_match (k0 : char) (rest : str) :
  Forall (fun c => is_scheme_char U c = true) rest ->
  found (re_match (is_interwiki_keyword_re U) (k0 :: rest)) = is_word U k0.
Proof.
  intros Hall. unfold re_match, match_here, is_interwiki_keyword_re.
  change (ms (Cat Bol ?r) (start_state 0 ?s))
    with (flat_map (ms r) [start_state 0 s]).
  cbn [flat_map]. rewrite app_nil_r.
  change (ms (Cat (Cls (is_word U)) ?r) (start_state 0 (k0 :: rest)))
    with (flat_map (ms r) (if is_word U k0 then [MState 1 rest []] else [])).
  destruct (is_word U k0); [|reflexivity].
  cbn [flat_map]. rewrite app_nil_r.
  change (ms (Cat (Star (Cls (is_scheme_char U))) Eol) (MState 1 rest []))
    with (flat_map (ms Eol)
            (star_iter (ms (Cls (is_scheme_char U))) (length rest)
                       (MState 1 rest []))).
  destruct (star_cls_all (is_scheme_char U) rest 1 [] Hall) as [others ->].
  cbn [flat_map]. rewrite ms_Eol. reflexivity.
Qed.

End Keywords.

(** X18.  A key that [valid_interwiki_key] has made is left as it is when it
    is handed to the function again. *)
Theorem valid_interwiki_key_twice (U : unicode) (name key : str) :
  valid_interwiki_key U name = Ok key ->
  valid_interwiki_key U key = Ok key.
Proof.
  intros H.
  destruct (valid_interwiki_key_chars U name key H)
    as [k0 [rest [-> [Hall [H45 [H46 _]]]]]].
  unfold valid_interwiki_key. rewrite interwiki_sub_chars.
  rewrite (fix_char_kept U _ Hall).
  rewrite (proj2 (Z.eqb_neq _ _) H45), (proj2 (Z.eqb_neq _ _) H46).
  reflexivity.
Qed.

Lemma valid_interwiki_key_twice_witness :
  valid_interwiki_key ascii_only (py "_my.key+1") = Ok (py "_my.key+1").
Proof.
  apply (valid_interwiki_key_twice ascii_only (py "-my.key+1")).
  vm_compute. reflexivity.
Defined.

(** X19.  The key matches the pattern of interwiki keywords,
    [is_interwiki_keyword_re], unless the name starts with [+]: the
    plus sign is kept by the substitution, and the pattern wants a word
    character first. *)
Theorem valid_interwiki_key_keyword (U : unicode) (name key : str) :
  valid_interwiki_key U name = Ok key ->
  found (re_match (is_interwiki_keyword_re U) key) =
  negb (startswith name (py "+")).
Proof.
  intros H.
  destruct (valid_interwiki_key_chars U name key H)
    as [k0 [rest [-> [Hall [H45 [H46 Hk]]]]]].
  inversion Hall as [|? ? Hk0 Hrest]; subst.
  rewrite keyword_match by exact Hrest.
  destruct name as [|n0 name]; [discriminate H|].
  specialize (Hk n0 name eq_refl).
  change (py "+") with [43]. rewrite startswith_cons, startswith_nil_pat.
  rewrite andb_true_r.
  destruct (Z.eqb_spec 43 n0) as [<-|Hn].
  - subst k0. reflexivity.
  - cbn [negb]. apply scheme_char_word; try assumption.
    subst k0. intros E.
    destruct (is_scheme_char U n0) eqn:Es;
      [|discriminate E].
    destruct ((n0 =? 45) || (n0 =? 46)); [discriminate E|]. congruence.
Qed.

Lemma valid_interwiki_key_keyword_witness :
  found (re_match (is_interwiki_keyword_re ascii_only) (py "+1")) =
  negb (startswith (py "+1") (py "+")).
Proof.
  apply valid_interwiki_key_keyword. vm_compute. reflexivity.
Defined.

Example valid_interwiki_key_plus :
  valid_interwiki_key ascii_only (py "+1") = Ok (py "+1") /\
  re_match (is_interwiki_keyword_re ascii_only) (py "+1") = None /\
  found (re_match (is_interwiki_keyword_re ascii_only) (py "_my.key")) = true.
Proof. vm_compute. repeat split. Qed.

(** ** [normalize_win32_share] *)

(** [str.replace] of one character by another. *)
Lemma replace_char (a b : char) (s : str) :
  replace s [a] [b] = map (fun c => if c =? a then b else c) s.
Proof.
  unfold replace. induction s as [|c s IH]; [reflexivity|].
  cbn [replace_from map]. rewrite startswith_cons, startswith_nil_pat.
  rewrite andb_true_r, (Z.eqb_sym a c). cbn [length Nat.sub].
  rewrite IH. destruct (c =? a); reflexivity.
Qed.

Section Shares.

Let to_slash (c : char) : char := if c =? BSL then 47 else c.
Let to_backslash (c : char) : char := if c =? 47 then BSL else c.

Lemma to_slash_scalar (s : str) :
  Forall scalar s -> Forall scalar (map to_slash s).
Proof.
  induction 1 as [|c s Hc _ IH]; [constructor|].
  cbn [map]. constructor; [|exact IH].
  unfold to_slash. destruct (c =? BSL); [|exact Hc].
  split; [lia|reflexivity].
Qed.

Lemma to_backslash_other (s : str) :
  Forall (fun c => c <> 47) s -> map to_backslash s = s.
Proof.
  induction 1 as [|c s Hc _ IH]; [reflexivity|].
  cbn [map]. rewrite IH. unfold to_backslash.
  rewrite (proj2 (Z.eqb_neq _ _) Hc). reflexivity.
Qed.

Lemma escapes_no_slash (c : char) :
  scalar c ->
  Forall (fun x => x <> 47) (flat_map percent_byte (utf8_char_bytes c)).
Proof.
  intros Hc. apply Forall_flat_map.
  eapply Forall_impl; [|apply (utf8_char_bytes_octets c Hc)].
  intros b Hb. destruct (octet_split b Hb) as [Hq [Hr _]].
  unfold percent_byte.
  constructor; [unfold PCT; lia|].
  constructor; [unfold hex_digit; zbool|].
  constructor; [unfold hex_digit; zbool|constructor].
Qed.

(** A share path that went to a URL: turning the slashes back gives the
    encoding that keeps the backslash. *)
Lemma encode_share (path : str) :
  Forall scalar path -> ~ In 47 path ->
  map to_backslash (pct_encode keep_path (map to_slash path)) =
  pct_encode keep_share path.
Proof.
  induction 1 as [|c s Hc _ IH]; intros Hno; [reflexivity|].
  assert (Hc47 : c <> 47) by (intros ->; apply Hno; left; reflexivity).
  assert (Hs : ~ In 47 s) by (intros H; apply Hno; right; exact H).
  unfold pct_encode in *. cbn [map flat_map]. rewrite map_app, (IH Hs).
  f_equal. destruct (Z.eq_dec c BSL) as [->|Hb]; [reflexivity|].
  assert (E : to_slash c = c)
    by (unfold to_slash; rewrite (proj2 (Z.eqb_neq _ _) Hb); reflexivity).
  rewrite E. unfold keep_share, keep_path.
  rewrite (proj2 (Z.eqb_neq _ _) Hc47), (proj2 (Z.eqb_neq _ _) Hb), orb_false_r.
  cbn [orb]. destruct (unreserved c).
  - cbn [map]. unfold to_backslash.
    rewrite (proj2 (Z.eqb_neq _ _) Hc47). reflexivity.
  - apply to_backslash_other, escapes_no_slash, Hc.
Qed.

Lemma keep_share_ascii (c : char) :
  keep_share c = true -> c < 0x80 /\ c <> PCT.
Proof.
  unfold keep_share. intros H. apply orb_true_iff in H. destruct H as [H|H].
  - apply Z.eqb_eq in H. subst c. unfold BSL, PCT. lia.
  - apply unreserved_ascii in H. lia.
Qed.

(** What the function gives for a share path where [os.name] is not
    ['nt']. *)
Lemma normalize_share_posix (path : str) :
  Forall scalar path ->
  startswith path [BSL; BSL] = true ->
  exists rest,
    path = BSL :: BSL :: rest /\
    normalize_win32_share false path =
    Ok (py "smb://" ++ pct_encode keep_path (map to_slash rest)) /\
    pct_encode keep_path (map to_slash path) =
    47 :: 47 :: pct_encode keep_path (map to_slash rest).
Proof.
  intros Hs Hstart. pose proof Hstart as Hp.
  destruct path as [|a path]; [discriminate Hstart|].
  rewrite startswith_cons in Hp.
  apply andb_true_iff in Hp. destruct Hp as [Ha Hp].
  destruct path as [|b rest]; [discriminate Hp|].
  rewrite startswith_cons in Hp.
  apply andb_true_iff in Hp. destruct Hp as [Hb _].
  apply Z.eqb_eq in Ha, Hb. subst a b.
  exists rest. split; [reflexivity|].
  unfold normalize_win32_share. rewrite Hstart.
  change (py "/") with [47]. rewrite replace_char.
  fold to_slash.
  rewrite url_encode_chars
    by (try (right; left; reflexivity); apply to_slash_scalar, Hs).
  cbn [bind]. split; reflexivity.
Qed.

End Shares.

(** X22.  Where [os.name] is not ['nt'] a share path, one that starts with two
    backslashes, becomes a URL that starts with [smb://]; the URL holds
    only ASCII characters and no backslash, and the function leaves it
    as it is when it gets it again. *)
Theorem normalize_win32_share_url (path : str) :
  Forall scalar path ->
  startswith path [BSL; BSL] = true ->
  exists out,
    normalize_win32_share false path = Ok (py "smb://" ++ out) /\
    Forall ascii_char out /\ ~ In BSL out /\
    normalize_win32_share false (py "smb://" ++ out) = Ok (py "smb://" ++ out).
Proof.
  intros Hs Hstart.
  destruct (normalize_share_posix path Hs Hstart) as [rest [-> [Hn _]]].
  eexists. split; [exact Hn|].
  inversion Hs as [|? ? _ Hs1]; subst. inversion Hs1 as [|? ? _ Hs2]; subst.
  pose proof (pct_encode_safe URL_ENCODE_PATH _ (to_slash_scalar rest Hs2))
    as Hout.
  change (keep_of_mode URL_ENCODE_PATH) with keep_path in Hout.
  split; [|split; [|reflexivity]].
  - eapply Forall_impl; [|exact Hout]. cbv beta. tauto.
  - rewrite Forall_forall in Hout. intros Hin.
    destruct (Hout _ Hin) as [_ [H|H]]; discriminate H.
Qed.

Lemma normalize_win32_share_url_witness :
  exists out,
    normalize_win32_share false (py "\\host\my share") =
    Ok (py "smb://" ++ out) /\
    Forall ascii_char out /\ ~ In BSL out /\
    normalize_win32_share false (py "smb://" ++ out) = Ok (py "smb://" ++ out).
Proof.
  apply normalize_win32_share_url; [all_scalar|vm_compute; reflexivity].
Defined.

(** X23.  A share path that was turned into a URL where [os.name] is not
    ['nt'] comes back where it is ['nt']: for every path of Unicode
    scalar values that starts with two backslashes and holds neither a
    slash nor text shaped like the escape of a high octet. *)
Theorem normalize_win32_share_round_trip (path : str) :
  Forall scalar path ->
  startswith path [BSL; BSL] = true ->
  ~ In 47 path ->
  has_escape is_high path = false ->
  bind (normalize_win32_share false path) (normalize_win32_share true) =
  Ok path.
Proof.
  intros Hs Hstart Hno Hesc.
  destruct (normalize_share_posix path Hs Hstart) as [rest [Hpath [Hn He]]].
  rewrite Hn. cbn [bind]. unfold normalize_win32_share.
  change (startswith (py "smb://" ++ ?x) (py "smb://")) with (startswith x []).
  rewrite startswith_nil_pat.
  change (skipn 4 (py "smb://" ++ ?x)) with (47 :: 47 :: x).
  rewrite <- He. change (py "/") with [47]. rewrite replace_char.
  rewrite encode_share by assumption.
  apply url_decode_encoded; try assumption;
    [apply keep_share_ascii|reflexivity].
Qed.

Lemma normalize_win32_share_round_trip_witness :
  bind (normalize_win32_share false (py "\\host\my share 50%" ++ [233]))
       (normalize_win32_share true) =
  Ok (py "\\host\my share 50%" ++ [233]).
Proof.
  apply normalize_win32_share_round_trip;
    [all_scalar|vm_compute; reflexivity|not_in|vm_compute; reflexivity].
Defined.

Example normalize_win32_share_demo :
  normalize_win32_share false (py "\\host\my share") =
    Ok (py "smb://host/my%20share") /\
  normalize_win32_share true (py "smb://host/my%20share") =
    Ok (py "\\host\my share") /\
  normalize_win32_share false (py "/home/me") = Ok (py "/home/me") /\
  normalize_win32_share true (py "C:\Users") = Ok (py "C:\Users").
Proof. vm_compute. repeat split. Qed.

(** ** [TextBuffer] *)

Example get_lines_demo :
  get_lines [py "ab"; [LF]; py "c"; [CR; LF]; py "d"] true =
    [py "ab" ++ [LF]; py "c" ++ [CR; LF]; py "d" ++ [LF]] /\
  get_lines [py "ab"; [LF]; py "c"; [CR; LF]; py "d"] false =
    [py "ab" ++ [LF]; py "c" ++ [CR; LF]; py "d"] /\
  get_lines [py "a"; [CR]] true = [py "a" ++ [CR; LF]] /\
  get_lines [[]; []] true = [] /\
  prefix_lines [py "ab"; [LF]; py "c"] (py "> ") =
    [py "> ab" ++ [LF]; py "> c"].
Proof. vm_compute. repeat split. Qed.

(** [splitlines] loses nothing. *)
Lemma splitlines_from_concat (n : nat) : forall s line,
  (length s <= n)%nat ->
  concat (splitlines_from s line) = line ++ s.
Proof.
  induction n as [|n IH]; intros s line Hn.
  - destruct s; [|cbn [length] in Hn; lia].
    destruct line; cbn [splitlines_from concat]; rewrite ?app_nil_r;
      reflexivity.
  - destruct s as [|c s].
    { destruct line; cbn [splitlines_from concat]; rewrite ?app_nil_r;
        reflexivity. }
    cbn [length] in Hn. cbn [splitlines_from].
    destruct (c =? CR) eqn:Ecr.
    + apply Z.eqb_eq in Ecr. subst c. destruct s as [|d s].
      * cbn [concat]. rewrite app_nil_r. reflexivity.
      * cbn [length] in Hn. destruct (d =? LF) eqn:Elf.
        -- apply Z.eqb_eq in Elf. subst d. cbn [concat].
           rewrite IH by lia. rewrite <- app_assoc. reflexivity.
        -- cbn [concat]. rewrite IH by (cbn [length]; lia).
           rewrite <- app_assoc. reflexivity.
    + destruct (is_line_boundary c).
      * cbn [concat]. rewrite IH by lia. rewrite <- app_assoc. reflexivity.
      * rewrite IH by lia. rewrite <- app_assoc. reflexivity.
Qed.

Lemma splitlines_concat (s : str) : concat (splitlines s) = s.
Proof. apply (splitlines_from_concat (length s)), le_n. Qed.

Lemma in_removelast (A : Type) (x : A) (l : list A) :
  In x (removelast l) -> In x l.
Proof.
  induction l as [|a l IH]; [intros []|].
  cbn [removelast]. destruct l as [|b l]; [intros []|].
  intros [H|H]; [left; exact H|right; apply IH, H].
Qed.

(** The lines of [splitlines]: none is empty, and none holds a newline
    before its last character. *)
Lemma splitlines_from_lines (n : nat) : forall s line,
  (length s <= n)%nat ->
  ~ In LF line ->
  Forall (fun l => l <> [] /\ ~ In LF (removelast l)) (splitlines_from s line).
Proof.
  induction n as [|n IH]; intros s line Hn Hline.
  - destruct s; [|cbn [length] in Hn; lia].
    destruct line as [|x line]; cbn [splitlines_from]; constructor;
      [|constructor].
    split; [discriminate|]. intros H. apply Hline, in_removelast, H.
  - destruct s as [|c s].
    { destruct line as [|x line]; cbn [splitlines_from]; constructor;
        [|constructor].
      split; [discriminate|]. intros H. apply Hline, in_removelast, H. }
    cbn [length] in Hn. cbn [splitlines_from].
    assert (Hsnoc : forall x, line ++ [x] <> [])
      by (intros x; destruct line; discriminate).
    destruct (c =? CR) eqn:Ecr.
    + destruct s as [|d s].
      * constructor; [|constructor]. split; [apply Hsnoc|].
        rewrite removelast_last. exact Hline.
      * cbn [length] in Hn. destruct (d =? LF) eqn:Elf.
        -- constructor; [|apply IH; [lia|intros []]].
           split; [destruct line; discriminate|].
           change [CR; LF] with ([CR] ++ [LF]).
           rewrite app_assoc, removelast_last. intros H.
           apply in_app_or in H. destruct H as [H|[H|[]]];
             [exact (Hline H)|discriminate H].
        -- constructor; [|apply IH; [cbn [length]; lia|intros []]].
           split; [apply Hsnoc|]. rewrite removelast_last. exact Hline.
    + destruct (is_line_boundary c) eqn:Eb.
      * constructor; [|apply IH; [lia|intros []]].
        split; [apply Hsnoc|]. rewrite removelast_last. exact Hline.
      * apply IH; [lia|]. intros H. apply in_app_or in H.
        destruct H as [H|[H|[]]]; [exact (Hline H)|].
        subst c. discriminate Eb.
Qed.

Lemma endswith_snoc (s : str) (x c : char) :
  endswith (s ++ [x]) [c] = (c =? x).
Proof.
  unfold endswith. rewrite rev_app_distr. cbn [rev app].
  rewrite startswith_cons, startswith_nil_pat. apply andb_true_r.
Qed.

(** X25.  The lines of the buffer spell its text. *)
Theorem get_lines_text (self : TextBuffer) :
  concat (get_lines self false) = concat self.
Proof.
  unfold get_lines. cbn [andb].
  destruct (rev (splitlines (concat self))); apply splitlines_concat.
Qed.

(** X26.  With [end_with_newline] the lines spell the text of the buffer and
    one more newline, unless the text is empty or ends with a newline
    already. *)
Theorem get_lines_end_with_newline (self : TextBuffer) :
  concat (get_lines self true) =
  if endswith (concat self) [LF] then concat self
  else match concat self with
       | [] => []
       | _ :: _ => concat self ++ [LF]
       end.
Proof.
  unfold get_lines. cbn [andb].
  pose proof (splitlines_concat (concat self)) as Htext.
  pose proof (splitlines_from_lines (length (concat self)) (concat self) []
                (le_n _) (fun H => H)) as Hlines.
  fold (splitlines (concat self)) in Hlines.
  destruct (rev (splitlines (concat self))) as [|last_line front] eqn:E.
  - apply (f_equal (@rev str)) in E. rewrite rev_involutive in E.
    rewrite E in Htext. cbn [rev concat] in Htext. rewrite <- Htext.
    reflexivity.
  - apply (f_equal (@rev str)) in E. rewrite rev_involutive in E.
    cbn [rev] in E. rewrite E in Htext, Hlines.
    apply Forall_app in Hlines. destruct Hlines as [_ Hlast].
    inversion Hlast as [|? ? [Hne _] _]; subst.
    destruct (exists_last Hne) as [body [x Hx]].
    rewrite concat_app in Htext. cbn [concat] in Htext.
    rewrite app_nil_r in Htext.
    assert (Hend : endswith (concat self) [LF] = endswith last_line [LF]).
    { rewrite <- Htext, Hx, app_assoc, !endswith_snoc. reflexivity. }
    rewrite Hend. destruct (endswith last_line [LF]); cbn [negb].
    + rewrite E. rewrite concat_app. cbn [concat]. rewrite app_nil_r.
      exact Htext.
    + rewrite concat_app. cbn [concat]. rewrite app_nil_r, app_assoc, Htext.
      destruct (concat self) eqn:Ec; [|reflexivity].
      rewrite Hx in Htext. destruct (concat (rev front)), body; discriminate.
Qed.

(** X27.  A proper list of lines: no line is empty, and no line holds a
    newline before its last character, with and without
    [end_with_newline]. *)
Theorem get_lines_proper (self : TextBuffer) (end_with_newline : bool)
  (line : str) :
  In line (get_lines self end_with_newline) ->
  line <> [] /\ ~ In LF (removelast line).
Proof.
  unfold get_lines.
  pose proof (splitlines_from_lines (length (concat self)) (concat self) []
                (le_n _) (fun H => H)) as Hlines.
  fold (splitlines (concat self)) in Hlines.
  rewrite Forall_forall in Hlines.
  destruct (rev (splitlines (concat self))) as [|last_line front] eqn:E;
    [apply Hlines|].
  apply (f_equal (@rev str)) in E. rewrite rev_involutive in E.
  cbn [rev] in E.
  destruct (end_with_newline && negb (endswith last_line [LF])) eqn:Eb;
    [|apply Hlines].
  apply andb_true_iff in Eb. destruct Eb as [_ Eb].
  apply negb_true_iff in Eb.
  intros Hin. apply in_app_or in Hin. destruct Hin as [Hin|[<-|[]]].
  - apply Hlines. rewrite E. apply in_or_app. left. exact Hin.
  - split; [destruct last_line; discriminate|].
    rewrite removelast_last.
    destruct (Hlines last_line) as [Hne Hno].
    { rewrite E. apply in_or_app. right. left. reflexivity. }
    destruct (exists_last Hne) as [body [x Hx]]. subst last_line.
    rewrite removelast_last in Hno. rewrite endswith_snoc in Eb.
    intros H. apply in_app_or in H. destruct H as [H|[H|[]]];
      [exact (Hno H)|]. subst x. discriminate Eb.
Qed.

Lemma get_lines_proper_witness :
  py "c" ++ [CR; LF] <> [] /\ ~ In LF (removelast (py "c" ++ [CR; LF])).
Proof.
  apply (get_lines_proper [py "ab"; [LF]; py "c"; [CR; LF]; py "d"] true).
  vm_compute. auto.
Defined.

(** *** [prefix_lines] *)

Lemma get_lines_false (self : TextBuffer) :
  get_lines self false = splitlines (concat self).
Proof.
  unfold get_lines. cbn [andb].
  destruct (rev (splitlines (concat self))); reflexivity.
Qed.

Lemma boundary_CR : is_line_boundary CR = true.
Proof. reflexivity. Qed.

(** Text without a line boundary joins the line that is being read. *)
Lemma splitlines_from_plain (body : str) : forall rest line,
  Forall (fun c => is_line_boundary c = false) body ->
  splitlines_from (body ++ rest) line = splitlines_from rest (line ++ body).
Proof.
  induction body as [|c body IH]; intros rest line Hplain.
  - rewrite app_nil_r. reflexivity.
  - inversion Hplain as [|? ? Hc Hbody]; subst.
    cbn [app splitlines_from].
    assert (Hcr : (c =? CR) = false).
    { destruct (Z.eqb_spec c CR) as [->|]; [discriminate Hc|reflexivity]. }
    rewrite Hcr, Hc, IH by assumption.
    rewrite <- app_assoc. reflexivity.
Qed.

(** The first line starts with what was read of it. *)
Lemma splitlines_from_head (n : nat) : forall s line,
  (length s <= n)%nat -> line <> [] ->
  exists l L, splitlines_from s line = (line ++ l) :: L.
Proof.
  induction n as [|n IH]; intros s line Hn Hline.
  - destruct s; [|cbn [length] in Hn; lia].
    destruct line; [congruence|]. exists [], []. rewrite app_nil_r.
    reflexivity.
  - destruct s as [|c s].
    { destruct line; [congruence|]. exists [], []. rewrite app_nil_r.
      reflexivity. }
    cbn [length] in Hn. cbn [splitlines_from].
    destruct (c =? CR).
    + destruct s as [|d s]; [eauto|]. destruct (d =? LF); eauto.
    + destruct (is_line_boundary c); [eauto|].
      destruct (IH s (line ++ [c])) as [l [L H]];
        [lia|destruct line; discriminate|].
      exists (c :: l), L. rewrite H, <- app_assoc. reflexivity.
Qed.

Lemma splitlines_from_first (d : char) (s : str) :
  exists l L, splitlines_from (d :: s) [] = (d :: l) :: L.
Proof.
  cbn [splitlines_from].
  destruct (Z.eqb_spec d CR) as [->|_].
  - destruct s as [|e s]; [cbn [app]; eauto|].
    destruct (e =? LF); cbn [app]; eauto.
  - destruct (is_line_boundary d); cbn [app]; [eauto|].
    apply (splitlines_from_head (length s) s [d]); [lia|discriminate].
Qed.

Section Prefix.

Variable prefix : str.
Hypothesis prefix_plain : Forall (fun c => is_line_boundary c = false) prefix.

Let prefixed (lines : list str) : str :=
  concat (map (fun line => prefix ++ line) lines).

(** The text of the prefixed lines does not start with a newline. *)
Lemma prefixed_head (d : char) (s : str) :
  d <> LF ->
  exists x rest, prefixed (splitlines_from (d :: s) []) = x :: rest /\ x <> LF.
Proof.
  intros Hd. destruct (splitlines_from_first d s) as [l [L ->]].
  unfold prefixed. cbn [map concat].
  destruct prefix as [|p prefix'] eqn:E.
  - cbn [app]. eauto.
  - inversion prefix_plain as [|? ? Hp _]; subst.
    rewrite <- !app_assoc. cbn [app]. eexists _, _. split; [reflexivity|].
    intros ->. discriminate Hp.
Qed.

Lemma splitlines_prefixed (n : nat) : forall s line,
  (length s <= n)%nat ->
  Forall (fun c => is_line_boundary c = false) line ->
  splitlines_from (prefixed (splitlines_from s line)) [] =
  map (fun line => prefix ++ line) (splitlines_from s line).
Proof.
  assert (Hplain : forall line,
            Forall (fun c => is_line_boundary c = false) line ->
            Forall (fun c => is_line_boundary c = false) (prefix ++ line)).
  { intros line H. apply Forall_app. split; [exact prefix_plain|exact H]. }
  assert (Hlast : forall line,
            Forall (fun c => is_line_boundary c = false) line ->
            line <> [] ->
            splitlines_from (prefixed [line]) [] = [prefix ++ line]).
  { intros line H Hne. unfold prefixed. cbn [map concat].
    rewrite app_nil_r. rewrite <- (app_nil_r (prefix ++ line)) at 1.
    rewrite splitlines_from_plain by (apply Hplain, H).
    cbn [app splitlines_from].
    destruct (prefix ++ line) eqn:E; [|reflexivity].
    apply app_eq_nil in E. tauto. }
  induction n as [|n IH]; intros s line Hn Hline.
  - destruct s; [|cbn [length] in Hn; lia].
    destruct line as [|x line]; [reflexivity|].
    cbn [splitlines_from]. apply Hlast; [exact Hline|discriminate].
  - destruct s as [|c s].
    { destruct line as [|x line]; [reflexivity|].
      cbn [splitlines_from]. apply Hlast; [exact Hline|discriminate]. }
    cbn [length] in Hn. cbn [splitlines_from].
    destruct (Z.eqb_spec c CR) as [->|Hcr].
    + destruct s as [|d s].
      * unfold prefixed. cbn [map concat]. rewrite app_nil_r.
        rewrite app_assoc, splitlines_from_plain by (apply Hplain, Hline).
        reflexivity.
      * cbn [length] in Hn. destruct (Z.eqb_spec d LF) as [->|Hd].
        -- unfold prefixed. cbn [map concat].
           fold (prefixed (splitlines_from s [])).
           replace ((prefix ++ line ++ [CR; LF]) ++
                    prefixed (splitlines_from s []))
             with ((prefix ++ line) ++
                   CR :: LF :: prefixed (splitlines_from s []))
             by (rewrite <- !app_assoc; reflexivity).
           rewrite splitlines_from_plain by (apply Hplain, Hline).
           cbn [app splitlines_from]. rewrite !Z.eqb_refl.
           rewrite IH by (try lia; constructor).
           rewrite <- app_assoc. reflexivity.
        -- unfold prefixed. cbn [map concat].
           fold (prefixed (splitlines_from (d :: s) [])).
           destruct (prefixed_head d s Hd) as [x [rest [Hx Hne]]].
           rewrite <- IH by (cbn [length]; try lia; constructor).
           replace ((prefix ++ line ++ [CR]) ++
                    prefixed (splitlines_from (d :: s) []))
             with ((prefix ++ line) ++
                   CR :: prefixed (splitlines_from (d :: s) []))
             by (rewrite <- !app_assoc; reflexivity).
           rewrite splitlines_from_plain by (apply Hplain, Hline).
           rewrite Hx. cbn [app splitlines_from]. rewrite Z.eqb_refl.
           rewrite (proj2 (Z.eqb_neq x LF) Hne).
           rewrite <- app_assoc. reflexivity.
    + destruct (is_line_boundary c) eqn:Eb.
      * unfold prefixed. cbn [map concat].
        fold (prefixed (splitlines_from s [])).
        replace ((prefix ++ line ++ [c]) ++ prefixed (splitlines_from s []))
          with ((prefix ++ line) ++ c :: prefixed (splitlines_from s []))
          by (rewrite <- !app_assoc; reflexivity).
        rewrite splitlines_from_plain by (apply Hplain, Hline).
        cbn [app splitlines_from].
        rewrite (proj2 (Z.eqb_neq c CR) Hcr), Eb.
        rewrite IH by (try lia; constructor).
        rewrite <- app_assoc. reflexivity.
      * apply IH; [lia|]. apply Forall_app. split; [exact Hline|].
        constructor; [exact Eb|constructor].
Qed.

End Prefix.

(** X28.  After [prefix_lines] the lines of the buffer are the lines it had,
    each with the prefix in front, as long as the prefix holds no line
    boundary. *)
Theorem prefix_lines_lines (self : TextBuffer) (prefix : str) :
  Forall (fun c => is_line_boundary c = false) prefix ->
  get_lines (prefix_lines self prefix) false =
  map (fun line => prefix ++ line) (get_lines self false).
Proof.
  intros Hprefix. unfold prefix_lines. rewrite !get_lines_false.
  apply (splitlines_prefixed prefix Hprefix (length (concat self))
           (concat self) [] (le_n _)).
  constructor.
Qed.

Lemma prefix_lines_lines_witness :
  get_lines (prefix_lines [py "ab"; [CR]; py "c"; [LF]; py "d"] (py "> "))
            false =
  map (fun line => py "> " ++ line)
      (get_lines [py "ab"; [CR]; py "c"; [LF]; py "d"] false).
Proof.
  apply prefix_lines_lines. repeat constructor.
Defined.

(** A prefix with a newline in it gives more lines than there were. *)
Example prefix_lines_newline :
  get_lines (prefix_lines [py "a"] [LF]) false = [[LF]; py "a"].
Proof. vm_compute. reflexivity. Qed.

(** ** The spans of a match *)

Lemma caps_within_weaken lo hi lo' hi' caps :
  (lo' <= lo)%nat -> (hi <= hi')%nat ->
  caps_within lo hi caps -> caps_within lo' hi' caps.
Proof.
  intros Hlo Hhi H. eapply Forall_impl; [|exact H]. cbv beta. intros e. lia.
Qed.

Lemma star_iter_caps (f : mstate -> list mstate) :
  (forall st st', In st' (f st) -> extends st st') ->
  closes_within f ->
  forall n, closes_within (star_iter f n).
Proof.
  intros Hext Hf. induction n as [|n IH]; intros st st' Hin.
  - cbn [star_iter In] in Hin. destruct Hin as [<-|[]].
    exists []. split; [reflexivity|constructor].
  - cbn [star_iter] in Hin. apply in_app_or in Hin.
    destruct Hin as [Hin|[<-|[]]];
      [|exists []; split; [reflexivity|constructor]].
    apply in_flat_map in Hin. destruct Hin as [st1 [H1 Hin]].
    destruct (Nat.ltb (m_pos st) (m_pos st1)); [|destruct Hin].
    destruct (Hf st st1 H1) as [new1 [E1 W1]].
    destruct (IH st1 st' Hin) as [new2 [E2 W2]].
    pose proof (extends_span _ _ (Hext st st1 H1)) as P1.
    pose proof (extends_span _ _
                  (star_iter_extends f Hext n st1 st' Hin)) as P2.
    exists (new2 ++ new1). split.
    + rewrite E2, E1, app_assoc. reflexivity.
    + apply Forall_app. split.
      * apply (caps_within_weaken (m_pos st1) (m_pos st')); [lia|lia|exact W2].
      * apply (caps_within_weaken (m_pos st) (m_pos st1)); [lia|lia|exact W1].
Qed.

Lemma ms_caps (r : regex) : closes_within (ms r).
Proof.
  assert (Hsame : forall st : mstate,
            exists new, m_caps st = new ++ m_caps st /\
                        caps_within (m_pos st) (m_pos st) new)
    by (intros st; exists []; split; [reflexivity|constructor]).
  induction r as [|c|p|r1 IH1 r2 IH2|r1 IH1 r2 IH2|r IH|i r IH| |];
    intros st st' Hin; cbn [ms] in Hin.
  - destruct Hin as [<-|[]]. apply Hsame.
  - destruct (m_rest st) as [|x rest] eqn:E; [destruct Hin|].
    destruct (x =? c); [|destruct Hin]. destruct Hin as [<-|[]].
    exists []. split; [reflexivity|constructor].
  - destruct (m_rest st) as [|x rest] eqn:E; [destruct Hin|].
    destruct (p x); [|destruct Hin]. destruct Hin as [<-|[]].
    exists []. split; [reflexivity|constructor].
  - apply in_flat_map in Hin. destruct Hin as [st1 [H1 H2]].
    destruct (IH1 st st1 H1) as [new1 [E1 W1]].
    destruct (IH2 st1 st' H2) as [new2 [E2 W2]].
    pose proof (extends_span _ _ (ms_extends r1 st st1 H1)) as P1.
    pose proof (extends_span _ _ (ms_extends r2 st1 st' H2)) as P2.
    exists (new2 ++ new1). split.
    + rewrite E2, E1, app_assoc. reflexivity.
    + apply Forall_app. split.
      * apply (caps_within_weaken (m_pos st1) (m_pos st')); [lia|lia|exact W2].
      * apply (caps_within_weaken (m_pos st) (m_pos st1)); [lia|lia|exact W1].
  - apply in_app_or in Hin. destruct Hin as [Hin|Hin]; auto.
  - exact (star_iter_caps (ms r) (ms_extends r) IH _ st st' Hin).
  - apply in_map_iff in Hin. destruct Hin as [st1 [<- H1]].
    destruct (IH st st1 H1) as [new1 [E1 W1]].
    pose proof (extends_span _ _ (ms_extends r st st1 H1)) as P1.
    exists ((i, (m_pos st, m_pos st1)) :: new1). split.
    + cbn [close_group m_caps app]. rewrite E1. reflexivity.
    + cbn [close_group m_pos]. constructor; [cbn [fst snd]; lia|exact W1].
  - destruct (Nat.eqb (m_pos st) 0); [|destruct Hin].
    destruct Hin as [<-|[]]. apply Hsame.
  - destruct (m_rest st) as [|x [|y rest]].
    + destruct Hin as [<-|[]]. apply Hsame.
    + destruct (x =? LF); [|destruct Hin]. destruct Hin as [<-|[]].
      apply Hsame.
    + destruct Hin.
Qed.

Lemma match_here_caps r subject pos rest m :
  match_here r subject pos rest = Some m ->
  caps_within pos (mt_end m) (mt_caps m).
Proof.
  unfold match_here.
  destruct (ms r (start_state pos rest)) as [|st l] eqn:E; [discriminate|].
  intros H. injection H as <-.
  destruct (ms_caps r (start_state pos rest) st) as [new [En W]];
    [rewrite E; left; reflexivity|].
  cbn [mk_match mt_end mt_caps start_state m_caps m_pos] in *.
  rewrite En, app_nil_r. exact W.
Qed.

Lemma lookup_cap_in i caps a b :
  lookup_cap i caps = Some (a, b) -> In (i, (a, b)) caps.
Proof.
  induction caps as [|[j sp] caps IH]; [discriminate|].
  cbn [lookup_cap]. destruct (Nat.eqb_spec i j) as [->|_].
  - intros H. injection H as ->. left. reflexivity.
  - intros H. right. apply IH, H.
Qed.

(** A match found at some position of the subject. *)
Lemma found_match (self : Re) (string : str) (search : bool) (m : rmatch) :
  fst (if search then Re_search self string else Re_match self string)
    = Some m ->
  exists pre rest,
    string = pre ++ rest /\ (search = false -> pre = []) /\
    match_here (re_p self) string (length pre) rest = Some m.
Proof.
  destruct search; cbn [Re_search Re_match fst]; intros H.
  - unfold re_search in H.
    apply (search_from_here _ string string []) in H; [|reflexivity].
    destruct H as [pre [rest [Hs Hm]]]. exists pre, rest.
    split; [exact Hs|]. split; [discriminate|exact Hm].
  - exists [], string. split; [reflexivity|]. split; [reflexivity|exact H].
Qed.



Example Re_start_demo :
  let re := Re_init (py "(b+)(c)?")
              (Cat (Grp 1 (Plus (Chr 98))) (Opt (Grp 2 (Chr 99)))) in
  let re' := snd (Re_search re (py "abbd")) in
  Re_start re 0 = AttributeError /\
  Re_start re' 0 = Gives (Ok 1) /\ Re_end re' 0 = Gives (Ok 3) /\
  Re_start re' 1 = Gives (Ok 1) /\ Re_end re' 1 = Gives (Ok 3) /\
  Re_start re' 2 = Gives (Ok (-1)) /\ Re_end re' 2 = Gives (Ok (-1)) /\
  Re_start re' 3 = Gives (Raise IndexError).
Proof. vm_compute. repeat split. Qed.

(** ** [sublist], piece by piece *)

Section SublistParts.

Variable T : Type.
Variable repl : Re -> entry T * Re.

Lemma sublist_matches_result (item : str) :
  forall matches self pos result,
    sublist_matches repl self item pos matches result =
    (result ++ fst (sublist_matches repl self item pos matches []),
     snd (sublist_matches repl self item pos matches [])).
Proof.
  induction matches as [|m matches IH]; intros self pos result.
  - cbn [sublist_matches fst snd].
    destruct (Nat.ltb pos (length item)); [reflexivity|].
    rewrite app_nil_r. reflexivity.
  - cbn [sublist_matches].
    destruct (repl (MkRe (re_r self) (re_p self) (Some m))) as [x self'].
    rewrite IH. rewrite (IH self' (mt_end m) (_ ++ [x])). cbn [fst snd].
    destruct (Nat.ltb pos (mt_start m)); cbn [app];
      rewrite <- ?app_assoc; reflexivity.
Qed.

Lemma sublist_items_result :
  forall items self result,
    sublist_items repl self items result =
    (result ++ fst (sublist_items repl self items []),
     snd (sublist_items repl self items [])).
Proof.
  induction items as [|[s|o] items IH]; intros self result.
  - cbn [sublist_items fst snd]. rewrite app_nil_r. reflexivity.
  - cbn [sublist_items].
    rewrite (sublist_matches_result s _ self 0%nat result).
    destruct (sublist_matches repl self s 0 (finditer (re_p self) s) [])
      as [r self'].
    cbn [fst snd app]. rewrite IH, (IH self' r). cbn [fst snd].
    rewrite app_assoc. reflexivity.
  - cbn [sublist_items]. rewrite IH, (IH self ([] ++ [Obj o])).
    cbn [fst snd]. rewrite app_assoc. reflexivity.
Qed.

Lemma sublist_items_app :
  forall items1 items2 self result,
    sublist_items repl self (items1 ++ items2) result =
    let (result1, self1) := sublist_items repl self items1 result in
    sublist_items repl self1 items2 result1.
Proof.
  induction items1 as [|[s|o] items1 IH]; intros items2 self result.
  - reflexivity.
  - cbn [app sublist_items].
    destruct (sublist_matches repl self s 0 (finditer (re_p self) s) result)
      as [r self'].
    apply IH.
  - cbn [app sublist_items]. apply IH.
Qed.

End SublistParts.

(** X16.  [sublist] works its way through the list: the result for two lists
    one after the other is the result for the first followed by the
    result for the second, which starts with the wrapper as the first
    left it. *)
Theorem sublist_app (T : Type) (repl : Re -> entry T * Re) (self : Re)
  (items1 items2 : list (entry T)) :
  sublist repl self (items1 ++ items2) =
  let (result1, self1) := sublist repl self items1 in
  let (result2, self2) := sublist repl self1 items2 in
  (result1 ++ result2, self2).
Proof.
  unfold sublist. rewrite sublist_items_app.
  destruct (sublist_items repl self items1 []) as [result1 self1].
  rewrite sublist_items_result.
  destruct (sublist_items repl self1 items2 []) as [result2 self2].
  reflexivity.
Qed.

(** X17.  Where the pattern finds nothing, [sublist] hands the list on with
    the wrapper as it was; only the empty strings are gone, because a
    rest of a string is appended when it is not empty. *)
Theorem sublist_no_match (T : Type) (repl : Re -> entry T * Re) (self : Re)
  (items : list (entry T)) :
  (forall s, In (Str s) items -> finditer (re_p self) s = []) ->
  sublist repl self items =
  (filter (fun e => negb (is_empty_string e)) items, self).
Proof.
  unfold sublist. induction items as [|[s|o] items IH]; intros Hno.
  - reflexivity.
  - cbn [sublist_items]. rewrite (Hno s) by (left; reflexivity).
    cbn [sublist_matches app filter is_empty_string].
    rewrite sublist_items_result, IH
      by (intros s' Hs'; apply Hno; right; exact Hs').
    cbn [fst snd]. destruct s as [|c s]; [reflexivity|].
    cbn [length negb]. rewrite slice_all. reflexivity.
  - cbn [sublist_items filter is_empty_string negb].
    rewrite sublist_items_result, IH
      by (intros s' Hs'; apply Hno; right; exact Hs').
    reflexivity.
Qed.

Lemma sublist_no_match_witness :
  sublist (fun re => (Obj 0%nat, re)) (Re_init (py "x") (Chr 120))
          [Str (py "ab"); Str []; Obj 1%nat; Str (py "c")] =
  (filter (fun e => negb (is_empty_string e))
          [Str (py "ab"); Str []; Obj 1%nat; Str (py "c")],
   Re_init (py "x") (Chr 120)).
Proof.
  apply sublist_no_match.
  intros s [H|[H|[H|[H|[]]]]]; try discriminate H;
    injection H as <-; vm_compute; reflexivity.
Defined.

(** ** [uri_scheme] *)

(** What a class, and a run of it, consumes. *)
Lemma ms_cls_char (p : char -> bool) (st st' : mstate) :
  In st' (ms (Cls p) st) ->
  exists x, p x = true /\ m_rest st = x :: m_rest st' /\
            m_pos st' = S (m_pos st) /\ m_caps st' = m_caps st.
Proof.
  cbn [ms]. destruct (m_rest st) as [|x rest] eqn:E; [intros []|].
  destruct (p x) eqn:Hp; [|intros []]. intros [<-|[]].
  exists x. repeat split; assumption.
Qed.

Lemma star_cls_run (p : char -> bool) : forall n st st',
  In st' (star_iter (ms (Cls p)) n st) ->
  exists run,
    Forall (fun c => p c = true) run /\
    m_rest st = run ++ m_rest st' /\
    m_pos st' = (m_pos st + length run)%nat /\ m_caps st' = m_caps st.
Proof.
  induction n as [|n IH]; intros st st' Hin.
  - cbn [star_iter In] in Hin. destruct Hin as [<-|[]].
    exists []. cbn [app length]. repeat split; [constructor|lia].
  - rewrite star_iter_S in Hin. apply in_app_or in Hin.
    destruct Hin as [Hin|[<-|[]]];
      [|exists []; cbn [app length]; repeat split; [constructor|lia]].
    apply in_flat_map in Hin. destruct Hin as [st1 [H1 Hin]].
    destruct (Nat.ltb (m_pos st) (m_pos st1)); [|destruct Hin].
    apply ms_cls_char in H1. destruct H1 as [x [Hx [Hr [Hp Hc]]]].
    destruct (IH st1 st' Hin) as [run [Hall [Hr' [Hp' Hc']]]].
    exists (x :: run). repeat split.
    + constructor; assumption.
    + rewrite Hr, Hr'. reflexivity.
    + rewrite Hp', Hp. cbn [length]. lia.
    + rewrite Hc', Hc. reflexivity.
Qed.

Section Schemes.

Variable U : unicode.

Lemma word_is_scheme_char (c : char) :
  is_word U c = true -> is_scheme_char U c = true.
Proof. intros H. unfold is_scheme_char. rewrite H. reflexivity. Qed.

Lemma scheme_char_not_colon (c : char) :
  is_scheme_char U c = true -> c <> 58.
Proof. intros H ->. discriminate H. Qed.

(** What the group of a scheme consumes: a name without a colon. *)
Lemma ms_scheme (st st' : mstate) :
  In st' (ms (Grp 1 (scheme_re U)) st) ->
  exists scheme,
    scheme <> [] /\ ~ In 58 scheme /\
    m_rest st = scheme ++ m_rest st' /\
    m_pos st' = (m_pos st + length scheme)%nat /\
    m_caps st' = (1%nat, (m_pos st, m_pos st')) :: m_caps st.
Proof.
  intros Hin. cbn [ms] in Hin. apply in_map_iff in Hin.
  destruct Hin as [st2 [<- Hin]]. apply in_flat_map in Hin.
  destruct Hin as [st1 [H1 H2]].
  apply ms_cls_char in H1. destruct H1 as [x [Hx [Hr [Hp Hc]]]].
  fold (ms (Cls (is_scheme_char U))) in H2.
  apply star_cls_run in H2. destruct H2 as [run [Hall [Hr' [Hp' Hc']]]].
  exists (x :: run). cbn [close_group m_rest m_pos m_caps].
  split; [discriminate|]. split; [|split; [|split]].
  - intros [H|H].
    + apply (scheme_char_not_colon x); [apply word_is_scheme_char, Hx|].
      exact H.
    + rewrite Forall_forall in Hall.
      apply (scheme_char_not_colon 58 (Hall _ H)). reflexivity.
  - rewrite Hr, Hr'. reflexivity.
  - rewrite Hp', Hp. cbn [length]. rewrite Nat.add_succ_r. reflexivity.
  - rewrite Hc', Hc. reflexivity.
Qed.

Lemma first_colon_unique : forall a a' r r' : str,
  a ++ 58 :: r = a' ++ 58 :: r' -> ~ In 58 a -> ~ In 58 a' -> a = a'.
Proof.
  induction a as [|x a IH]; intros [|y a'] r r' E Ha Ha'.
  - reflexivity.
  - cbn [app] in E. injection E as <- _. exfalso. apply Ha'. left. reflexivity.
  - cbn [app] in E. injection E as -> _. exfalso. apply Ha. left. reflexivity.
  - cbn [app] in E. injection E as -> E. f_equal.
    apply (IH a' r r' E); intros H; [apply Ha|apply Ha']; right; exact H.
Qed.

(** The group of a match that starts with a scheme. *)
Lemma scheme_group (r : regex) (link : str) (st0 st : mstate) (scheme : str) :
  ngroups r = 1%nat ->
  link = scheme ++ m_rest st0 ->
  m_pos st0 = length scheme ->
  m_caps st = (1%nat, (0%nat, m_pos st0)) :: [] ->
  group (mk_match r link 0 st) 1 = Ok (Some scheme).
Proof.
  intros Hg Hlink Hpos Hcaps.
  unfold group, mk_match. cbn [mt_groups mt_caps mt_string].
  rewrite Hg, Hcaps. cbn [Nat.leb lookup_cap Nat.eqb].
  rewrite Hpos. f_equal. f_equal.
  unfold slice. cbn [skipn]. rewrite Nat.sub_0_r, Hlink.
  rewrite firstn_app, firstn_all, Nat.sub_diag. cbn [firstn].
  apply app_nil_r.
Qed.

(** A match of [is_uri_re]: the scheme is the text before the first
    colon. *)
Lemma uri_match_scheme (link : str) (m : rmatch) :
  re_match (re_p (is_uri_re U)) link = Some m ->
  exists scheme rest,
    link = scheme ++ 58 :: rest /\ scheme <> [] /\ ~ In 58 scheme /\
    group m 1 = Ok (Some scheme).
Proof.
  unfold re_match, match_here, is_uri_re, Re_init. cbn [re_p].
  destruct (ms _ (start_state 0 link)) as [|st l] eqn:E; [discriminate|].
  intros H. injection H as <-.
  assert (Hin : In st (ms (Cat Bol (Cat (Grp 1 (scheme_re U)) (Chr 58)))
                          (start_state 0 link)))
    by (rewrite E; left; reflexivity).
  clear E.
  change (ms (Cat Bol ?r) (start_state 0 link))
    with (flat_map (ms r) [start_state 0 link]) in Hin.
  cbn [flat_map] in Hin. rewrite app_nil_r in Hin.
  change (ms (Cat ?a ?b) ?s) with (flat_map (ms b) (ms a s)) in Hin.
  apply in_flat_map in Hin. destruct Hin as [st0 [H0 H1]].
  apply ms_scheme in H0.
  destruct H0 as [scheme [Hne [Hno [Hrest [Hpos Hcaps]]]]].
  cbn [start_state m_rest m_pos m_caps Nat.add] in Hrest, Hpos, Hcaps.
  cbn [ms] in H1. destruct (m_rest st0) as [|x rest] eqn:Er; [destruct H1|].
  destruct (Z.eqb_spec x 58) as [->|]; [|destruct H1].
  destruct H1 as [<-|[]].
  exists scheme, rest. split; [exact Hrest|]. split; [exact Hne|].
  split; [exact Hno|].
  apply (scheme_group _ link st0); try assumption; try reflexivity.
  rewrite Er. exact Hrest.
Qed.

End Schemes.

Section SchemeOfLink.

Variable U : unicode.

(** A match of [is_url_re], with what is known of the scheme. *)
Lemma url_match_first_colon (link : str) (m : rmatch) :
  re_match (re_p (is_url_re U)) link = Some m ->
  exists scheme rest,
    link = scheme ++ 58 :: py "//" ++ rest /\ ~ In 58 scheme /\
    group m 1 = Ok (Some scheme) /\
    exists m', re_match (re_p (is_uri_re U)) link = Some m'.
Proof.
  unfold re_match, match_here, is_url_re, is_uri_re, Re_init. cbn [re_p].
  destruct (ms _ (start_state 0 link)) as [|st l] eqn:E; [discriminate|].
  intros H. injection H as <-.
  assert (Hin : In st (ms (Cat Bol (Cat (Grp 1 (scheme_re U)) (Lit (py "://"))))
                          (start_state 0 link)))
    by (rewrite E; left; reflexivity).
  clear E.
  change (ms (Cat Bol ?r) (start_state 0 link))
    with (flat_map (ms r) [start_state 0 link]) in Hin.
  cbn [flat_map] in Hin. rewrite app_nil_r in Hin.
  change (ms (Cat ?a ?b) ?s) with (flat_map (ms b) (ms a s)) in Hin.
  apply in_flat_map in Hin. destruct Hin as [st0 [H0 H1]].
  pose proof H0 as H0'. apply ms_scheme in H0.
  destruct H0 as [scheme [Hne [Hno [Hrest [Hpos Hcaps]]]]].
  cbn [start_state m_rest m_pos m_caps Nat.add] in Hrest, Hpos, Hcaps.
  rewrite ms_Lit in H1.
  destruct (startswith (m_rest st0) (py "://")) eqn:Es; [|destruct H1].
  destruct H1 as [<-|[]].
  pose proof (startswith_app _ _ Es) as Hr.
  exists scheme, (skipn 3 (m_rest st0)). split.
  { rewrite Hrest. f_equal. exact Hr. }
  split; [exact Hno|]. split.
  { apply (scheme_group _ link st0); try assumption; reflexivity. }
  change (ms (Cat Bol ?r) (start_state 0 link))
    with (flat_map (ms r) [start_state 0 link]).
  cbn [flat_map]. rewrite app_nil_r.
  change (ms (Cat ?a ?b) ?s) with (flat_map (ms b) (ms a s)).
  assert (Hin : In (advance st0 (py "//" ++ skipn 3 (m_rest st0)))
                   (flat_map (ms (Chr 58))
                      (ms (Grp 1 (scheme_re U)) (start_state 0 link)))).
  { apply in_flat_map. exists st0. split; [exact H0'|].
    cbn [ms]. rewrite Hr. left. reflexivity. }
  destruct (flat_map (ms (Chr 58)) _) as [|st' l']; [destruct Hin|].
  eexists. reflexivity.
Qed.

(** X20.  For a URL that is not at the same time an email address
    [uri_scheme] gives the text before [://], which is what [link_type]
    gives as well unless the link starts with [zim+]. *)
Theorem uri_scheme_url (link : str) :
  found (fst (Re_match (is_url_re U) link)) = true ->
  found (fst (Re_match (is_email_re U) link)) = false ->
  exists scheme rest,
    link = scheme ++ py "://" ++ rest /\
    uri_scheme U link = Ok (Some scheme) /\
    (startswith link (py "zim+") = false ->
     link_type U link = Ok (Some scheme)).
Proof.
  unfold uri_scheme, link_type, Re_match. cbn [fst snd].
  intros Hurl Hemail. rewrite Hemail.
  destruct (re_match (re_p (is_url_re U)) link) as [m|] eqn:Em;
    [|discriminate Hurl].
  destruct (url_match_first_colon link m Em)
    as [scheme [rest [Hlink [Hno [Hg [m' Em']]]]]].
  rewrite Em'. cbn [found].
  destruct (uri_match_scheme U link m' Em')
    as [scheme' [rest' [Hlink' [_ [Hno' Hg']]]]].
  assert (scheme' = scheme).
  { apply (first_colon_unique scheme' scheme rest' (py "//" ++ rest));
      [transitivity link; [symmetry; exact Hlink'|exact Hlink]
      |assumption|assumption]. }
  subst scheme'.
  exists scheme, rest. split; [exact Hlink|].
  unfold Re_getitem, group_at. cbn [re_m Z.ltb Z.compare Z.to_nat Pos.to_nat
    Pos.iter_op Nat.add].
  split; [exact Hg'|]. intros ->. exact Hg.
Qed.

End SchemeOfLink.

Lemma uri_scheme_url_witness :
  exists scheme rest,
    py "https://example.org/a" = scheme ++ py "://" ++ rest /\
    uri_scheme ascii_only (py "https://example.org/a") = Ok (Some scheme) /\
    (startswith (py "https://example.org/a") (py "zim+") = false ->
     link_type ascii_only (py "https://example.org/a") = Ok (Some scheme)).
Proof.
  apply uri_scheme_url; vm_compute; reflexivity.
Defined.

Example uri_scheme_demo :
  uri_scheme ascii_only (py "https://example.org/a") = Ok (Some (py "https")) /\
  uri_scheme ascii_only (py "mid:foo.123") = Ok (Some (py "mid")) /\
  uri_scheme ascii_only (py "me@example.org") = Ok (Some (py "mailto")) /\
  uri_scheme ascii_only (py "zim+file:///notes") = Ok (Some (py "zim+file")) /\
  uri_scheme ascii_only (py "Some Page") = Ok None.
Proof. vm_compute. repeat split. Qed.

(** ** Links that are URLs *)

Lemma star_iter_self (f : mstate -> list mstate) (n : nat) (st : mstate) :
  In st (star_iter f n st).
Proof.
  destruct n; [left; reflexivity|].
  rewrite star_iter_S. apply in_or_app. right. left. reflexivity.
Qed.

(** A run of a class can be taken by the iteration of the class. *)
Lemma star_cls_reach (p : char -> bool) : forall run pos rest caps n,
  Forall (fun c => p c = true) run ->
  (length run <= n)%nat ->
  In (MState (pos + length run) rest caps)
     (star_iter (ms (Cls p)) n (MState pos (run ++ rest) caps)).
Proof.
  induction run as [|c run IH]; intros pos rest caps n Hall Hn.
  - cbn [length app]. rewrite Nat.add_0_r. apply star_iter_self.
  - inversion Hall as [|? ? Hc Hrun]; subst.
    destruct n as [|n]; [cbn [length] in Hn; lia|]. cbn [length] in Hn.
    rewrite star_iter_S. apply in_or_app. left. apply in_flat_map.
    exists (MState (S pos) (run ++ rest) caps). split.
    + cbn [ms m_rest app]. rewrite Hc. left. reflexivity.
    + cbn [m_pos]. rewrite (proj2 (Nat.ltb_lt pos (S pos))) by lia.
      replace (pos + length (c :: run))%nat with (S pos + length run)%nat
        by (cbn [length]; lia).
      apply IH; [exact Hrun|lia].
Qed.

Section Urls.

Variable U : unicode.

Lemma scheme_name_no_colon (scheme : str) :
  scheme_name U scheme -> ~ In 58 scheme.
Proof.
  destruct scheme as [|c cs]; [intros []|]. intros [Hc Hcs] [H|H].
  - apply (scheme_char_not_colon U c); [apply word_is_scheme_char, Hc|exact H].
  - rewrite Forall_forall in Hcs.
    apply (scheme_char_not_colon U 58 (Hcs _ H)). reflexivity.
Qed.

(** [is_url_re] matches a scheme name followed by [://]. *)
Lemma url_match_found (scheme rest : str) :
  scheme_name U scheme ->
  exists m, re_match (re_p (is_url_re U)) (scheme ++ py "://" ++ rest) = Some m.
Proof.
  destruct scheme as [|c cs]; [intros []|]. intros [Hc Hcs].
  unfold re_match, match_here, is_url_re, Re_init. cbn [re_p].
  match goal with
  | |- exists m, match ?l with _ => _ end = _ =>
      assert (Hin : exists st, In st l)
  end.
  { change (ms (Cat Bol ?r) (start_state 0 ?s))
      with (flat_map (ms r) [start_state 0 s]).
    cbn [flat_map]. rewrite app_nil_r.
    change (ms (Cat ?a ?b) ?s) with (flat_map (ms b) (ms a s)).
    eexists. apply in_flat_map.
    exists (close_group 1 0 (MState (1 + length cs) (py "://" ++ rest) [])).
    split.
    - change (ms (Grp 1 ?r) ?s) with (map (close_group 1 (m_pos s)) (ms r s)).
      apply in_map. unfold scheme_re.
      change (ms (Cat ?a ?b) ?s) with (flat_map (ms b) (ms a s)).
      apply in_flat_map.
      exists (MState 1 (cs ++ py "://" ++ rest) []). split.
      + cbn [ms start_state m_rest app]. rewrite Hc. left. reflexivity.
      + change (ms (Star ?r) ?s) with (star_iter (ms r) (length (m_rest s)) s).
        apply star_cls_reach; [exact Hcs|].
        cbn [m_rest]. rewrite length_app. lia.
    - rewrite ms_Lit. cbn [close_group m_rest m_pos m_caps].
      change (startswith (py "://" ++ rest) (py "://"))
        with (startswith rest []).
      rewrite startswith_nil_pat. left. reflexivity. }
  destruct Hin as [st Hin].
  match goal with
  | |- exists m, match ?l with _ => _ end = _ => destruct l as [|st' l']
  end; [destruct Hin|]. eexists. reflexivity.
Qed.

(** The match of [is_url_re] on a scheme name followed by [://]: group
    1 is the scheme name. *)
Lemma url_match_group (scheme rest : str) :
  scheme_name U scheme ->
  exists m,
    re_match (re_p (is_url_re U)) (scheme ++ py "://" ++ rest) = Some m /\
    group m 1 = Ok (Some scheme).
Proof.
  intros Hname. destruct (url_match_found scheme rest Hname) as [m Hm].
  exists m. split; [exact Hm|].
  destruct (url_match_first_colon U _ m Hm)
    as [scheme' [rest' [Hlink [Hno [Hg _]]]]].
  assert (scheme' = scheme).
  { apply (first_colon_unique scheme' scheme (py "//" ++ rest')
             (py "//" ++ rest));
      [symmetry; exact Hlink|exact Hno|apply scheme_name_no_colon, Hname]. }
  subst scheme'. exact Hg.
Qed.

(** The type of an [smb://] link. *)
Lemma link_type_smb (rest : str) :
  link_type U (py "smb://" ++ rest) = Ok (Some (py "smb")).
Proof.
  destruct (url_match_group (py "smb") rest) as [m [Hm Hg]].
  { vm_compute. repeat constructor. }
  change (py "smb" ++ py "://" ++ rest) with (py "smb://" ++ rest) in Hm.
  unfold link_type, Re_match. rewrite Hm. cbn [fst snd found].
  change (startswith (py "smb://" ++ rest) (py "zim+")) with false.
  cbv iota. unfold Re_getitem, group_at.
  cbn [re_m Z.ltb Z.compare Z.to_nat Pos.to_nat Pos.iter_op Nat.add].
  exact Hg.
Qed.

End Urls.

(** X21.  A link that starts with the name of a scheme and [://] has the
    scheme as its type, whatever follows; when it starts with [zim+] the
    type is [notebook]. *)
Theorem link_type_of_url (U : unicode) (scheme rest : str) :
  scheme_name U scheme ->
  link_type U (scheme ++ py "://" ++ rest) =
  Ok (Some (if startswith (scheme ++ py "://" ++ rest) (py "zim+")
            then py "notebook" else scheme)).
Proof.
  intros Hname. destruct (url_match_group U scheme rest Hname) as [m [Hm Hg]].
  unfold link_type, Re_match. rewrite Hm. cbn [fst snd found].
  destruct (startswith (scheme ++ py "://" ++ rest) (py "zim+"));
    [reflexivity|].
  unfold Re_getitem, group_at.
  cbn [re_m Z.ltb Z.compare Z.to_nat Pos.to_nat Pos.iter_op Nat.add].
  exact Hg.
Qed.

Lemma link_type_of_url_witness :
  link_type ascii_only (py "zim+file" ++ py "://" ++ py "/home/me/notes") =
  Ok (Some (if startswith (py "zim+file" ++ py "://" ++ py "/home/me/notes")
                          (py "zim+")
            then py "notebook" else py "zim+file")).
Proof.
  apply link_type_of_url. vm_compute. repeat constructor.
Defined.

(** X24.  What [normalize_win32_share] makes of a share path where [os.name]
    is not ['nt'] is a link of the type [smb]. *)
Theorem normalize_win32_share_link_type (U : unicode) (path : str) :
  Forall scalar path ->
  startswith path [BSL; BSL] = true ->
  exists url,
    normalize_win32_share false path = Ok url /\
    link_type U url = Ok (Some (py "smb")).
Proof.
  intros Hs Hstart.
  destruct (normalize_share_posix path Hs Hstart) as [rest [_ [Hn _]]].
  eexists. split; [exact Hn|].
  apply link_type_smb.
Qed.

Lemma normalize_win32_share_link_type_witness :
  exists url,
    normalize_win32_share false (py "\\host\my share") = Ok url /\
    link_type ascii_only url = Ok (Some (py "smb")).
Proof.
  apply normalize_win32_share_link_type; [all_scalar|vm_compute; reflexivity].
Defined.
